(** * The retrieval engine of mikeweb: utils/rag-utils and services/rag-service

    A shallow embedding of the three text utilities ([cosineSimilarity],
    [createSimpleEmbedding], [extractKeywords]) and of the [RAGService] class,
    followed by the properties the specification states about them.  The
    rest of utils/rag-utils ([findRelevantChunks], [chunkText]), the cache of
    utils/performance, utils/conversation-utils and what the handler of
    app/api/chat-simple does before it calls the language model are embedded
    as well, with further properties of the code.

    Conventions of the embedding.
    - A TypeScript [number] that holds a measurement (a vector entry, a
      similarity, a score) is an IEEE 754 binary64 value: Rocq's primitive
      [float], whose operations round exactly as the ones of JavaScript
      ([Math.sqrt] being the correctly rounded square root of the engines).
      A [number] that only ever counts (array lengths, occurrence counters,
      the argument of [slice]) is a [Z]; such counters stay far below 2^53,
      where the two representations agree.
    - A TypeScript [string] is a sequence of code units; the embedding takes
      the code units below 256 (the Latin-1 block, which [toLowerCase] maps
      into itself), that is, Rocq's [string].
    - A [throw] is the [Throw] outcome of a computation; the methods of the
      class are state-passing functions over the fields of the instance.
    - What a function reads of its environment is an argument: the time that
      the clock shows, the items of [localStorage], the instance that the
      module of the service keeps. *)

From Stdlib Require Import ZArith List Ascii Lia Bool Permutation.
From Stdlib Require Uint63 QArith Qpower Lqa.
From Stdlib Require Import Floats.PrimFloat.
From Stdlib Require Floats.SpecFloat Floats.FloatOps Floats.FloatAxioms.
From stdpp Require Import gmap strings list sorting.

Set Warnings "-inexact-float,-clear-no-such-hyp".
Local Open Scope Z_scope.

(** ** JavaScript primitives used by the sources *)

Module Js.

(** [new Error(message)] *)
Inductive exn := Error (message : string).

(** The outcome of evaluating an expression that may throw. *)
Inductive completion (A : Type) :=
| Normal (value : A)
| Throw (e : exn).
Arguments Normal {A} value.
Arguments Throw {A} e.

(** An integer-valued [number] read as a measurement. *)
Definition ofZ (z : Z) : float := of_uint63 (Uint63.of_Z z).

Definition charCode (c : ascii) : Z := Z.of_nat (nat_of_ascii c).
Global Arguments ofZ : simpl never.
Global Arguments charCode : simpl never.

(** [String.prototype.toLowerCase] on the code units below 256: the ASCII
    capitals and the Latin-1 capitals U+00C0..U+00DE (but the multiplication
    sign U+00D7) move up by 32. *)
Definition toLowerCaseUnit (c : ascii) : ascii :=
  let n := charCode c in
  if ((65 <=? n) && (n <=? 90)) || ((192 <=? n) && (n <=? 222) && negb (n =? 215))
  then ascii_of_nat (Z.to_nat (n + 32))
  else c.

Fixpoint toLowerCase (s : string) : string :=
  match s with
  | EmptyString => EmptyString
  | String c s' => String (toLowerCaseUnit c) (toLowerCase s')
  end.

(** [s.length] *)
Definition strlen (s : string) : Z := Z.of_nat (String.length s).

(** The characters of [s], as [s.charCodeAt(i)] enumerates them for
    [i = 0 .. s.length - 1]. *)
Definition units (s : string) : list ascii := String.list_ascii_of_string s.

(** [s.includes(sub)] *)
Fixpoint includes (s sub : string) : bool :=
  String.prefix sub s ||
  match s with
  | EmptyString => false
  | String _ s' => includes s' sub
  end.

(** The class [\w] of a regular expression without the [u] and [i] flags. *)
Definition isWordChar (c : ascii) : bool :=
  let n := charCode c in
  ((48 <=? n) && (n <=? 57)) || ((65 <=? n) && (n <=? 90)) ||
  ((97 <=? n) && (n <=? 122)) || (n =? 95).

(** The class [\s] below 256: TAB, LF, VT, FF, CR, SP and NBSP. *)
Definition isWhiteSpace (c : ascii) : bool :=
  let n := charCode c in
  ((9 <=? n) && (n <=? 13)) || (n =? 32) || (n =? 160).

(** [s.replace(/[^\w\s]/g, "")] *)
Fixpoint stripPunctuation (s : string) : string :=
  match s with
  | EmptyString => EmptyString
  | String c s' =>
      if isWordChar c || isWhiteSpace c
      then String c (stripPunctuation s')
      else stripPunctuation s'
  end.

(** [s.split(/\s+/)]: the pieces between the maximal runs of white space,
    with an empty piece before a leading run and after a trailing one.
    [cur] is the piece being read, reversed; [inRun] tells that the previous
    character was white space. *)
Fixpoint splitGo (cur : string) (inRun : bool) (s : string) : list string :=
  match s with
  | EmptyString => [String.rev cur]
  | String c s' =>
      if isWhiteSpace c
      then if inRun then splitGo cur true s'
           else String.rev cur :: splitGo EmptyString true s'
      else splitGo (String c cur) false s'
  end.

Definition splitWhiteSpace (s : string) : list string :=
  splitGo EmptyString false s.

(** [arr.includes(x)] on an array of strings *)
Definition arrayIncludes (arr : list string) (x : string) : bool :=
  existsb (String.eqb x) arr.

(** [arr.slice(0, stop)] for an integer [stop]: a negative [stop] counts
    from the end of the array. *)
Definition slice0 {A} (stop : Z) (arr : list A) : list A :=
  let len := Z.of_nat (length arr) in
  let final := if stop <? 0 then Z.max (len + stop) 0 else Z.min stop len in
  take (Z.to_nat final) arr.

(** [arr.sort(comparefn)].  The algorithm is the engine's; ECMAScript fixes
    its result whenever the comparator is consistent: the sort is stable.
    [after a b] reads [comparefn(a, b) > 0], that is, [a] is to be placed
    behind [b].  An element moves behind the ones it has to follow and stays
    ahead of every other one that it preceded in the array.  With a
    comparator that is not consistent, as one that meets a NaN, the order
    is the engine's choice among the orders of the same elements, and the
    one computed here need not be it. *)
Section Sort.
Context {A : Type} (after : A → A → bool).

Fixpoint insertSorted (x : A) (l : list A) : list A :=
  match l with
  | [] => [x]
  | y :: l' => if after x y then y :: insertSorted x l' else x :: l
  end.

Fixpoint sort (l : list A) : list A :=
  match l with
  | [] => []
  | x :: l' => insertSorted x (sort l')
  end.
End Sort.

(** [arr.join(sep)] on an array of strings *)
Fixpoint join (sep : string) (arr : list string) : string :=
  match arr with
  | [] => ""
  | [x] => x
  | x :: rest => x +:+ sep +:+ join sep rest
  end.

(** A [Map<string, V>]: the entries in insertion order. *)
Section OrderedMap.
Context {V : Type}.

(** [m.get(k)] *)
Fixpoint mapGet (m : list (string * V)) (k : string) : option V :=
  match m with
  | [] => None
  | (k', v) :: m' => if String.eqb k' k then Some v else mapGet m' k
  end.

(** [m.set(k, v)]: an existing key keeps its place. *)
Fixpoint mapSet (m : list (string * V)) (k : string) (v : V) : list (string * V) :=
  match m with
  | [] => [(k, v)]
  | (k', v') :: m' =>
      if String.eqb k' k then (k', v) :: m' else (k', v') :: mapSet m' k v
  end.
End OrderedMap.

(** A [Set<string>] read in insertion order: [set.add(x)]. *)
Definition setAdd (s : list string) (x : string) : list string :=
  if arrayIncludes s x then s else s ++ [x].

End Js.

(** ** utils/rag-utils *)

Module RagUtils.
Import Js.

(** [cosineSimilarity(vecA, vecB)].  The loop runs over the indices of
    [vecA]; reading an array out of range gives [undefined], a NaN in
    arithmetic. *)
Definition at_ (v : list float) (i : nat) : float := default nan (v !! i).

Definition cosineStep (vecA vecB : list float) (acc : float * float * float) (i : nat)
  : float * float * float :=
  let '(dotProduct, normA, normB) := acc in
  ((dotProduct + at_ vecA i * at_ vecB i)%float,
   (normA + at_ vecA i * at_ vecA i)%float,
   (normB + at_ vecB i * at_ vecB i)%float).

(** The value returned when the lengths agree. *)
Definition cosine (vecA vecB : list float) : float :=
  let '(dotProduct, normA, normB) :=
    foldl (cosineStep vecA vecB) (0%float, 0%float, 0%float) (seq 0 (length vecA)) in
  (dotProduct / (sqrt normA * sqrt normB))%float.

Definition cosineSimilarity (vecA vecB : list float) : completion float :=
  if negb (length vecA =? length vecB)%nat
  then Throw (Error "Vectors must have the same length")
  else Normal (cosine vecA vecB).

(** [createSimpleEmbedding(text)].  The 26 buckets count, so they are
    integers until the final division. *)
Definition countLetter (embedding : list Z) (c : ascii) : list Z :=
  let code := charCode c - 97 in
  if (0 <=? code) && (code <? 26)
  then alter Z.succ (Z.to_nat code) embedding
  else embedding.

Definition createSimpleEmbedding (text : string) : list float :=
  let normalizedText := toLowerCase text in
  let embedding := foldl countLetter (replicate 26 0) (units normalizedText) in
  let sum := foldl Z.add 0 embedding in
  if 0 <? sum
  then map (λ x, (ofZ x / ofZ sum)%float) embedding
  else map ofZ embedding.

(** [extractKeywords(text)] *)
Definition stopWords : gset string :=
  list_to_set
    ["a"; "an"; "the"; "and"; "or"; "but"; "is"; "are"; "was"; "were"; "be";
     "been"; "being"; "in"; "on"; "at"; "to"; "for"; "with"; "by"; "about";
     "against"; "between"; "into"; "through"; "during"; "before"; "after";
     "above"; "below"; "from"; "up"; "down"; "of"; "off"; "over"; "under"].

Definition keepWord (word : string) : bool :=
  (2 <? strlen word) && negb (bool_decide (word ∈ stopWords)).

(** The tokens that are counted. *)
Definition words (text : string) : list string :=
  List.filter keepWord (splitWhiteSpace (stripPunctuation (toLowerCase text))).

(** [wordCounts.set(word, (wordCounts.get(word) || 0) + 1)] *)
Definition countWord (wordCounts : list (string * Z)) (word : string) : list (string * Z) :=
  mapSet wordCounts word (default 0 (mapGet wordCounts word) + 1).

Definition wordCounts (text : string) : list (string * Z) :=
  foldl countWord [] (words text).

(** The comparator [(a, b) => b[1] - a[1]] is positive. *)
Definition lessFrequent (a b : string * Z) : bool := 0 <? b.2 - a.2.

Definition extractKeywords (text : string) : list string :=
  map fst (slice0 10 (sort lessFrequent (wordCounts text))).

Global Arguments countLetter : simpl never.
Global Arguments createSimpleEmbedding : simpl never.
Global Arguments cosine : simpl never.
Global Arguments cosineSimilarity : simpl never.
Global Arguments extractKeywords : simpl never.
Global Arguments keepWord : simpl never.
Global Arguments words : simpl never.

End RagUtils.

(** ** services/rag-service *)

Module RagService.
Import Js RagUtils.

(** types/knowledge-types: [relatedChunks] is optional. *)
Record KnowledgeChunk := {
  id : string;
  title : string;
  content : string;
  keywords : list string;
  relatedChunks : option (list string)
}.

(** [EnhancedKnowledgeChunk extends KnowledgeChunk]; the fields of the
    chunk are read through the coercion. *)
Record EnhancedKnowledgeChunk := {
  chunk :> KnowledgeChunk;
  embedding : list float;
  autoKeywords : list string
}.

(** [chunk.relatedChunks = relatedChunks] *)
Definition withRelatedChunks (c : EnhancedKnowledgeChunk) (related : list string)
  : EnhancedKnowledgeChunk :=
  {| chunk := {| id := id c; title := title c; content := content c;
                 keywords := keywords c; relatedChunks := Some related |};
     embedding := embedding c;
     autoKeywords := autoKeywords c |}.

Global Instance EnhancedKnowledgeChunk_inhabited : Inhabited EnhancedKnowledgeChunk :=
  populate {| chunk := {| id := ""; title := ""; content := ""; keywords := [];
                          relatedChunks := None |};
              embedding := []; autoKeywords := [] |}.

(** The enhanced chunks are objects: the array [chunks] and the map
    [chunkMap] hold references to the same ones, and
    [inferChunkRelationships] assigns a field of them in place.  [objects]
    is the store of the chunk objects the instance has created and a
    reference is a position in it. *)
Abbreviation ref := nat (only parsing).

Record RAGService := {
  objects : list EnhancedKnowledgeChunk;
  chunks : list ref;
  isInitialized : bool;
  systemPrompt : string;
  chunkMap : gmap string ref
}.

(** [new RAGService()] *)
Definition newRAGService : RAGService :=
  {| objects := []; chunks := []; isInitialized := false; systemPrompt := "";
     chunkMap := ∅ |}.

(** The object behind a reference.  The references an instance holds point
    into its store, so the default is not read. *)
Definition deref (this : RAGService) (r : ref) : EnhancedKnowledgeChunk :=
  objects this !!! r.

(** *** Methods: state and exceptions *)

Definition M (A : Type) : Type := RAGService → completion A * RAGService.

Global Instance M_ret : MRet M := λ A (x : A) this, (Normal x, this).

Global Instance M_bind : MBind M := λ A B (f : A → M B) (m : M A) this,
  match m this with
  | (Normal x, this') => f x this'
  | (Throw e, this') => (Throw e, this')
  end.

Definition throw {A} (e : exn) : M A := λ this, (Throw e, this).

Definition getThis : M RAGService := λ this, (Normal this, this).

Definition lift {A} (c : completion A) : M A := λ this, (c, this).

Definition setSystemPrompt (p : string) : M unit := λ this,
  (Normal (), {| objects := objects this; chunks := chunks this;
                 isInitialized := isInitialized this; systemPrompt := p;
                 chunkMap := chunkMap this |}).

Definition setChunks (refs : list ref) : M unit := λ this,
  (Normal (), {| objects := objects this; chunks := refs;
                 isInitialized := isInitialized this;
                 systemPrompt := systemPrompt this; chunkMap := chunkMap this |}).

Definition setIsInitialized (b : bool) : M unit := λ this,
  (Normal (), {| objects := objects this; chunks := chunks this;
                 isInitialized := b; systemPrompt := systemPrompt this;
                 chunkMap := chunkMap this |}).

(** [this.chunkMap.set(key, r)] *)
Definition chunkMapSet (key : string) (r : ref) : M unit := λ this,
  (Normal (), {| objects := objects this; chunks := chunks this;
                 isInitialized := isInitialized this;
                 systemPrompt := systemPrompt this;
                 chunkMap := <[key := r]> (chunkMap this) |}).

(** An object literal: a new object in the store. *)
Definition allocate (c : EnhancedKnowledgeChunk) : M ref := λ this,
  (Normal (length (objects this)),
   {| objects := objects this ++ [c]; chunks := chunks this;
      isInitialized := isInitialized this; systemPrompt := systemPrompt this;
      chunkMap := chunkMap this |}).

(** An assignment to a field of the object behind [r]. *)
Definition store (r : ref) (c : EnhancedKnowledgeChunk) : M unit := λ this,
  (Normal (), {| objects := <[r := c]> (objects this); chunks := chunks this;
                 isInitialized := isInitialized this;
                 systemPrompt := systemPrompt this; chunkMap := chunkMap this |}).

(** [arr.map(f)] and [for (const x of arr) f(x)] with an effectful [f]. *)
Fixpoint mapM {A B} (f : A → M B) (l : list A) : M (list B) :=
  match l with
  | [] => mret []
  | x :: l' => y ← f x; ys ← mapM f l'; mret (y :: ys)
  end.

Fixpoint forM {A} (f : A → M unit) (l : list A) : M unit :=
  match l with
  | [] => mret ()
  | x :: l' => f x ;; forM f l'
  end.

(** A loop that accumulates a value and may throw, and [arr.map(f)] with a
    callback that may throw. *)
Fixpoint foldC {A B} (f : B → A → completion B) (acc : B) (l : list A) : completion B :=
  match l with
  | [] => Normal acc
  | x :: l' =>
      match f acc x with
      | Normal acc' => foldC f acc' l'
      | Throw e => Throw e
      end
  end.

Fixpoint mapC {A B} (f : A → completion B) (l : list A) : completion (list B) :=
  match l with
  | [] => Normal []
  | x :: l' =>
      match f x with
      | Throw e => Throw e
      | Normal y =>
          match mapC f l' with
          | Throw e => Throw e
          | Normal ys => Normal (y :: ys)
          end
      end
  end.

Definition newline : string := String (ascii_of_nat 10) "".

(** The callback of [knowledgeChunks.map] in [initialize]. *)
Definition enhance (c : KnowledgeChunk) : EnhancedKnowledgeChunk :=
  let fullText := title c +:+ newline +:+ newline +:+ content c in
  {| chunk := c;
     embedding := createSimpleEmbedding fullText;
     autoKeywords := extractKeywords fullText |}.

Definition enhanceAndRegister (c : KnowledgeChunk) : M ref :=
  enhancedChunk ← allocate (enhance c);
  chunkMapSet (id c) enhancedChunk ;;
  mret enhancedChunk.

(** [chunk.relatedChunks && chunk.relatedChunks.length > 0] *)
Definition hasRelatedChunks (c : KnowledgeChunk) : bool :=
  match relatedChunks c with
  | Some l => (0 <? length l)%nat
  | None => false
  end.

Definition keywordOverlap (c other : EnhancedKnowledgeChunk) : Z :=
  Z.of_nat (length (List.filter
    (λ keyword, arrayIncludes (keywords other) keyword
                || arrayIncludes (autoKeywords other) keyword)
    (keywords c ++ autoKeywords c))).

(** The body of the inner loop of [inferChunkRelationships]. *)
Definition relate (c : EnhancedKnowledgeChunk) (related : list string)
    (otherChunk : EnhancedKnowledgeChunk) : completion (list string) :=
  if String.eqb (id c) (id otherChunk) then Normal related
  else
    match cosineSimilarity (embedding c) (embedding otherChunk) with
    | Throw e => Throw e
    | Normal similarity =>
        if (2 <=? keywordOverlap c otherChunk) || (0.6 <? similarity)%float
        then Normal (related ++ [id otherChunk])
        else Normal related
    end.

(** The body of the outer loop. *)
Definition inferOne (r : ref) : M unit :=
  this ← getThis;
  let c := deref this r in
  if hasRelatedChunks c then mret ()
  else
    related ← lift (foldC (relate c) [] (map (deref this) (chunks this)));
    store r (withRelatedChunks c related).

Definition inferChunkRelationships : M unit :=
  this ← getThis;
  forM inferOne (chunks this).

(** [initialize(knowledgeChunks, systemPrompt)]; the method is [async] but
    awaits nothing, so that its body runs to its end when it is called.
    The two calls of [console.log] are left out. *)
Definition initialize (knowledgeChunks : list KnowledgeChunk) (prompt : string) : M unit :=
  this ← getThis;
  if isInitialized this then mret ()
  else if (0 <? length (chunks this))%nat && String.eqb (systemPrompt this) prompt
  then mret ()
  else
    setSystemPrompt prompt ;;
    refs ← mapM enhanceAndRegister knowledgeChunks;
    setChunks refs ;;
    inferChunkRelationships ;;
    setIsInitialized true.

(** An entry of [similarities]: [{ chunk, score }]. *)
Definition scored : Type := ref * float.

(** The candidates: [this.chunks.length > 50 ? this.chunks.slice(0, 50) : this.chunks] *)
Definition chunksToProcess (this : RAGService) : list ref :=
  if (50 <? length (chunks this))%nat then slice0 50 (chunks this) else chunks this.

(** [similarities = chunksToProcess.map(...)] *)
Definition similarity (this : RAGService) (queryEmbedding : list float) (r : ref)
  : completion scored :=
  match cosineSimilarity queryEmbedding (embedding (deref this r)) with
  | Throw e => Throw e
  | Normal score => Normal (r, score)
  end.

Definition manualKeywordMatches (combinedQuery : string) (c : EnhancedKnowledgeChunk) : Z :=
  Z.of_nat (length (List.filter
    (λ keyword, includes (toLowerCase combinedQuery) (toLowerCase keyword))
    (keywords c))).

Definition autoKeywordMatches (queryKeywords : list string) (c : EnhancedKnowledgeChunk) : Z :=
  Z.of_nat (length (List.filter (λ keyword, arrayIncludes queryKeywords keyword)
    (autoKeywords c))).

(** The callback of [similarities.forEach]: [item.score += ...] *)
Definition boost (this : RAGService) (combinedQuery : string) (queryKeywords : list string)
    (item : scored) : scored :=
  let c := deref this item.1 in
  (item.1,
   (item.2 + (ofZ (manualKeywordMatches combinedQuery c) * 0.15
              + ofZ (autoKeywordMatches queryKeywords c) * 0.05))%float).

(** The boosted [similarities], before they are sorted. *)
Definition boostedSimilarities (this : RAGService) (combinedQuery : string)
  : completion (list scored) :=
  let queryEmbedding := createSimpleEmbedding combinedQuery in
  match mapC (similarity this queryEmbedding) (chunksToProcess this) with
  | Throw e => Throw e
  | Normal similarities =>
      let queryKeywords := extractKeywords combinedQuery in
      Normal (map (boost this combinedQuery queryKeywords) similarities)
  end.

(** The comparator [(a, b) => b.score - a.score] is positive. *)
Definition lowerScore (a b : scored) : bool := (0 <? b.2 - a.2)%float.

(** The two nested [forEach] over the top chunks and their related
    identifiers. *)
Definition collectRelated (topChunkIds : list string) (relatedChunkIds : list string)
    (c : EnhancedKnowledgeChunk) : list string :=
  match relatedChunks c with
  | Some related =>
      foldl (λ ids relatedId,
               if negb (arrayIncludes topChunkIds relatedId)
               then setAdd ids relatedId else ids)
            relatedChunkIds related
  | None => relatedChunkIds
  end.

Definition formatChunk (topChunkIds : list string) (c : EnhancedKnowledgeChunk) : string :=
  let isRelated := negb (arrayIncludes topChunkIds (id c)) in
  let relationNote := if isRelated then " (Related Information)" else "" in
  "## " +:+ title c +:+ relationNote +:+ newline +:+ newline +:+ content c.

Definition separator : string :=
  newline +:+ newline +:+ "---" +:+ newline +:+ newline.

(** The part of [getRelevantContext] that follows the boost: the sort, the
    cut to [maxChunks], the related chunks and the text. *)
Definition topChunksOf (maxChunks : Z) (similarities : list scored) : list ref :=
  map fst (slice0 maxChunks (sort lowerScore similarities)).

Definition relatedChunkIdsOf (this : RAGService) (topChunks : list ref) : list string :=
  let topChunkIds := map (λ r, id (deref this r)) topChunks in
  foldl (λ ids r, collectRelated topChunkIds ids (deref this r)) [] topChunks.

Definition relatedChunksOf (this : RAGService) (topChunks : list ref) : list ref :=
  omap (λ k, chunkMap this !! k) (relatedChunkIdsOf this topChunks).

Definition assemble (this : RAGService) (maxChunks : Z) (similarities : list scored)
  : string :=
  let topChunks := topChunksOf maxChunks similarities in
  let topChunkIds := map (λ r, id (deref this r)) topChunks in
  let relatedChunks := relatedChunksOf this topChunks in
  let maxRelatedToAdd := Nat.min (length relatedChunks) 2 in
  let combinedChunks := topChunks ++ take maxRelatedToAdd relatedChunks in
  let formattedChunks :=
    map (λ r, formatChunk topChunkIds (deref this r)) combinedChunks in
  join separator formattedChunks.

(** [getRelevantContext(query, conversationHistory, maxChunks)] *)
Definition getRelevantContext (query conversationHistory : string) (maxChunks : Z)
  : M string :=
  this ← getThis;
  if negb (isInitialized this) then throw (Error "RAG Service not initialized")
  else
    let combinedQuery := query +:+ " " +:+ conversationHistory in
    similarities ← lift (boostedSimilarities this combinedQuery);
    mret (assemble this maxChunks similarities).

(** [getSystemPrompt()], [isReady()] and [getChunkIds()] *)
Definition getSystemPrompt : M string :=
  this ← getThis; mret (systemPrompt this).

Definition isReady : M bool :=
  this ← getThis; mret (isInitialized this).

Definition getChunkIds : M (list string) :=
  this ← getThis; mret (map (λ r, id (deref this r)) (chunks this)).

End RagService.

(** ** Vocabulary of the statements *)

Module Spec.
Import Js RagUtils RagService.

(** [a] stands before [b] in [l]. *)
Definition precedes {A} (l : list A) (a b : A) : Prop :=
  ∃ l1 l2 l3, l = l1 ++ a :: l2 ++ b :: l3.

(** A comparator is consistent on the elements of an array when "not behind"
    is a total preorder on them: no two elements are behind each other, and
    the relation is transitive. *)
Definition consistent {A} (after : A → A → bool) (l : list A) : Prop :=
  (∀ a b, a ∈ l → b ∈ l → after a b = true → after b a = false) ∧
  (∀ a b c, a ∈ l → b ∈ l → c ∈ l →
     after a b = false → after b c = false → after a c = false).

(** The same, as a test. *)
Definition consistentb {A} (after : A → A → bool) (l : list A) : bool :=
  forallb (λ a, forallb (λ b,
    implb (after a b) (negb (after b a))
    && forallb (λ c,
         implb (negb (after a b) && negb (after b c)) (negb (after a c))) l) l) l.

(** How often a token occurs. *)
Definition occurrences (w : string) (l : list string) : Z :=
  Z.of_nat (length (List.filter (String.eqb w) l)).

(** The lowercase Latin letters, [a] being the letter 0. *)
Definition letter (i : nat) : ascii := ascii_of_nat (97 + i).
Global Arguments letter : simpl never.

Definition isLetter (c : ascii) : bool :=
  (97 <=? charCode c) && (charCode c <=? 122).

(** The number of occurrences of the letter [i] and the number of letters
    of a string. *)
Definition letterCount (i : nat) (s : string) : Z :=
  Z.of_nat (length (List.filter (Ascii.eqb (letter i)) (units s))).

Definition letterTotal (s : string) : Z :=
  Z.of_nat (length (List.filter isLetter (units s))).

Definition sumFloat (v : list float) : float := foldl PrimFloat.add 0%float v.

(** The exact quotient of a count by a positive total, and exact sums. *)
Definition exactQuotient (n d : Z) : QArith_base.Q := QArith_base.Qmake n (Z.to_pos d).

Definition sumQ (l : list QArith_base.Q) : QArith_base.Q :=
  foldl QArith_base.Qplus (QArith_base.Qmake 0 1) l.

(** The number [m * 2 ^ e]. *)
Definition dyadic (m e : Z) : QArith_base.Q :=
  QArith_base.Qmult (QArith_base.inject_Z m)
    (QArith_base.Qpower (QArith_base.Qmake 2 1) e).

(** The number that a double is, on its representation and on the double;
    the infinities and NaN are no number, and have 0 here.  [isFinite] tells
    the numbers from them. *)
Definition value (x : SpecFloat.spec_float) : QArith_base.Q :=
  match x with
  | SpecFloat.S754_finite s m e => dyadic (SpecFloat.cond_Zopp s (Z.pos m)) e
  | _ => QArith_base.Qmake 0 1
  end.

Definition valueOf (x : float) : QArith_base.Q := value (FloatOps.Prim2SF x).

Definition isFinite (x : float) : bool :=
  match FloatOps.Prim2SF x with
  | SpecFloat.S754_zero _ | SpecFloat.S754_finite _ _ _ => true
  | _ => false
  end.

(** The doubles that a sum of quotients of counts goes through: [+0], and
    the positive doubles of 53 digits. *)
Definition summand (x : SpecFloat.spec_float) : Prop :=
  x = SpecFloat.S754_zero false ∨
  ∃ m e, x = SpecFloat.S754_finite false m e ∧
         Z.pos (SpecFloat.digits2_pos m) = 53 ∧ -1074 ≤ e.

(** One part in [2 ^ 52], the distance from 1 to the next double, which is
    [Number.EPSILON]; and 32 times as much. *)
Definition epsilon : QArith_base.Q := QArith_base.Qmake 1 (2 ^ 52).

Definition sumTolerance : QArith_base.Q := QArith_base.Qmake 1 (2 ^ 47).

(** [cosineSimilarity(a, b) > bound] *)
Definition similarityExceeds (a b : list float) (bound : float) : bool :=
  match cosineSimilarity a b with
  | Normal s => (bound <? s)%float
  | Throw _ => false
  end.

(** The test of [inferChunkRelationships] on a chunk and another one. *)
Definition inferredRelation (a b : EnhancedKnowledgeChunk) : bool :=
  negb (String.eqb (id a) (id b))
  && ((2 <=? keywordOverlap a b) || similarityExceeds (embedding a) (embedding b) 0.6).

Definition related (c : EnhancedKnowledgeChunk) (others : list EnhancedKnowledgeChunk)
  : list string :=
  map (λ o : EnhancedKnowledgeChunk, id o) (List.filter (inferredRelation c) others).

(** A chunk after the inference over the chunks [all]. *)
Definition infer (all : list EnhancedKnowledgeChunk) (c : EnhancedKnowledgeChunk)
  : EnhancedKnowledgeChunk :=
  if hasRelatedChunks c then c else withRelatedChunks c (related c all).

(** What inference reads of the other chunks. *)
Definition features (c : EnhancedKnowledgeChunk)
  : string * list string * list string * list float :=
  (id c, keywords c, autoKeywords c, embedding c).

(** The entries [initialize] makes in [chunkMap], the first object being
    the one at [base]. *)
Fixpoint register (base : nat) (kcs : list KnowledgeChunk) (m : gmap string ref)
  : gmap string ref :=
  match kcs with
  | [] => m
  | c :: kcs' => register (S base) kcs' (<[id c := base]> m)
  end.

(** The instance that [initialize] makes of a new one. *)
Definition ready (kcs : list KnowledgeChunk) (prompt : string) : RAGService :=
  {| objects := map (infer (map enhance kcs)) (map enhance kcs);
     chunks := seq 0 (length kcs);
     isInitialized := true;
     systemPrompt := prompt;
     chunkMap := register 0 kcs ∅ |}.

(** The states of an instance: a new one, and the ones its methods lead to. *)
Inductive reachable : RAGService → Prop :=
| reachable_new : reachable newRAGService
| reachable_initialize this kcs prompt :
    reachable this → reachable (initialize kcs prompt this).2
| reachable_getRelevantContext this query conversationHistory maxChunks :
    reachable this →
    reachable (getRelevantContext query conversationHistory maxChunks this).2
| reachable_getSystemPrompt this : reachable this → reachable (getSystemPrompt this).2
| reachable_isReady this : reachable this → reachable (isReady this).2
| reachable_getChunkIds this : reachable this → reachable (getChunkIds this).2.

(** The corpus of an instance: the chunks its array refers to. *)
Definition corpus (this : RAGService) : list EnhancedKnowledgeChunk :=
  map (deref this) (chunks this).

(** The section of the result for a chunk, primary or related. *)
Definition section (isRelated : bool) (c : EnhancedKnowledgeChunk) : string :=
  "## " +:+ title c +:+ (if isRelated then " (Related Information)" else "")
  +:+ newline +:+ newline +:+ content c.

(** The related-chunk identifiers that the chunks [primary] refer to, in the
    order of the references. *)
Definition referencedIds (this : RAGService) (primary : list ref) : list string :=
  concat (map (λ r, default [] (relatedChunks (deref this r))) primary).

(** The overlap of two chunks as the size of the intersection of their
    keyword sets. *)
Definition keywordSet (c : EnhancedKnowledgeChunk) : gset string :=
  list_to_set (keywords c ++ autoKeywords c).

Definition setOverlap (a b : EnhancedKnowledgeChunk) : Z :=
  Z.of_nat (size (keywordSet a ∩ keywordSet b)).

Definition relatedBySets (a b : EnhancedKnowledgeChunk) : bool :=
  negb (String.eqb (id a) (id b))
  && ((2 <=? setOverlap a b) || similarityExceeds (embedding a) (embedding b) 0.6).

End Spec.

(** ** Knowledge bases used as examples *)

Module Examples.
Import Js RagUtils RagService.

(** Two chunks that share one keyword, which the first one has both as a
    curated and as an extracted keyword, and no letter. *)
Definition billing : KnowledgeChunk :=
  {| id := "billing"; title := "Billing"; content := "billing";
     keywords := ["billing"]; relatedChunks := None |}.

Definition support : KnowledgeChunk :=
  {| id := "support"; title := "Support"; content := "chat desk";
     keywords := ["billing"; "support"]; relatedChunks := None |}.

(** A knowledge base with a chunk that has no letter. *)
Definition login : KnowledgeChunk :=
  {| id := "login"; title := "Login"; content := "password reset account";
     keywords := ["login"]; relatedChunks := None |}.

Definition year : KnowledgeChunk :=
  {| id := "year"; title := "2024"; content := "100%";
     keywords := []; relatedChunks := None |}.

Definition invoices : KnowledgeChunk :=
  {| id := "invoices"; title := "Billing"; content := "invoice payment refund";
     keywords := ["billing"; "invoice"]; relatedChunks := None |}.

(** The knowledge base of the end-to-end scenario of the specification. *)
Definition scenarioX : KnowledgeChunk :=
  {| id := "x"; title := "Billing"; content := "invoice payment refund";
     keywords := ["billing"; "invoice"]; relatedChunks := None |}.

Definition scenarioY : KnowledgeChunk :=
  {| id := "y"; title := "Login"; content := "password reset account";
     keywords := ["login"; "password"]; relatedChunks := None |}.
End Examples.

(** ** Further JavaScript primitives *)

Module JsText.
Import Js.

(** [s.trimStart()], [s.trimEnd()] and [s.trim()].  Below 256 the white
    space and the line terminators that they remove are the characters of
    the class [\s]. *)
Fixpoint trimStart (s : string) : string :=
  match s with
  | EmptyString => EmptyString
  | String c s' => if isWhiteSpace c then trimStart s' else s
  end.

Fixpoint trimEnd (s : string) : string :=
  match s with
  | EmptyString => EmptyString
  | String c s' =>
      match trimEnd s' with
      | EmptyString => if isWhiteSpace c then EmptyString else String c EmptyString
      | String c' t => String c (String c' t)
      end
  end.

Definition trim (s : string) : string := trimEnd (trimStart s).

(** [/^(a|b|...)$/.test(s)]: [s] is one of the alternatives. *)
Definition matchesWhole (alternatives : list string) (s : string) : bool :=
  existsb (String.eqb s) alternatives.

(** [/^(a|b|...)/.test(s)]: [s] starts with one of the alternatives. *)
Definition matchesStart (alternatives : list string) (s : string) : bool :=
  existsb (λ alternative, String.prefix alternative s) alternatives.

(** [/c$/.test(s)] for a character [c]: the last character of [s] is [c]. *)
Fixpoint endsWithChar (c : ascii) (s : string) : bool :=
  match s with
  | EmptyString => false
  | String c' s' =>
      match s' with
      | EmptyString => Ascii.eqb c' c
      | String _ _ => endsWithChar c s'
      end
  end.

(** The assertion [\b] between two characters, [None] standing for an end
    of the string: exactly one of them is a word character. *)
Definition isWordCharAt (c : option ascii) : bool := from_option isWordChar false c.

Definition boundary (before after : option ascii) : bool :=
  xorb (isWordCharAt before) (isWordCharAt after).

Definition first (s : string) : option ascii :=
  match s with
  | EmptyString => None
  | String c _ => Some c
  end.

(** The rest of [/\b(a|b|...)\b/] at a position behind the first assertion:
    [alternative] is read from [s], [before] being the character read last,
    and the second assertion holds behind it. *)
Fixpoint matchBoundedFrom (before : option ascii) (alternative s : string) : bool :=
  match alternative with
  | EmptyString => boundary before (first s)
  | String a alternative' =>
      match s with
      | EmptyString => false
      | String c s' => Ascii.eqb a c && matchBoundedFrom (Some c) alternative' s'
      end
  end.

(** [/\b(a|b|...)\b/.test(s)]: a match at the start of [s], which the
    character [before] precedes, or further on. *)
Fixpoint matchesBounded (alternatives : list string) (before : option ascii) (s : string)
  : bool :=
  (boundary before (first s)
   && existsb (λ alternative, matchBoundedFrom before alternative s) alternatives)
  || match s with
     | EmptyString => false
     | String c s' => matchesBounded alternatives (Some c) s'
     end.

(** The canonical form of a character under the flag [i] (without [u]): its
    upper case when that is one code unit.  Of the characters below 256 the
    micro sign and the y with diaeresis have an upper case above 255, which
    is the upper case of no other character below 256; they stand for their
    canonical forms here.  The sharp s has none of one code unit.  On the
    characters below 256 two characters have the same canonical form exactly
    when they have the same lower case or are the same; above, this fails:
    the Kelvin sign U+212A is its own canonical form, and its lower case is
    k. *)
Definition canonicalize (c : ascii) : ascii :=
  let n := charCode c in
  if ((97 <=? n) && (n <=? 122)) || ((224 <=? n) && (n <=? 254) && negb (n =? 247))
  then ascii_of_nat (Z.to_nat (n - 32))
  else c.

(** [/^pattern$/i.test(s)] for a [pattern] of plain characters. *)
Fixpoint equalsIgnoreCase (s pattern : string) : bool :=
  match s, pattern with
  | EmptyString, EmptyString => true
  | String c s', String p pattern' =>
      Ascii.eqb (canonicalize c) (canonicalize p) && equalsIgnoreCase s' pattern'
  | _, _ => false
  end.

(** [/^(a|b|...)$/i.test(s)] *)
Definition matchesWholeIgnoreCase (alternatives : list string) (s : string) : bool :=
  existsb (equalsIgnoreCase s) alternatives.

(** [arr.slice(start, stop)] for integers: a negative bound counts from the
    end of the array. *)
Definition slice {A} (start stop : Z) (arr : list A) : list A :=
  let len := Z.of_nat (length arr) in
  let k := if start <? 0 then Z.max (len + start) 0 else Z.min start len in
  let final := if stop <? 0 then Z.max (len + stop) 0 else Z.min stop len in
  take (Z.to_nat (final - k)) (drop (Z.to_nat k) arr).

(** [arr.slice(start)] *)
Definition sliceFrom {A} (start : Z) (arr : list A) : list A :=
  slice start (Z.of_nat (length arr)) arr.

End JsText.

(** ** utils/rag-utils: the search over plain chunks *)

Module RagSearch.
Import Js RagUtils RagService.

(** [findRelevantChunks(query, chunks, embeddings, topK)].  An entry of the
    result is [chunks[index]], which is [undefined] when the array of the
    embeddings is longer than the one of the chunks: [None] here.  The items
    [{ score, index }] are the pairs of an index and a score, and the
    comparator is the one of the service. *)
Definition findRelevantChunks (query : string) (chunks : list string)
    (embeddings : list (list float)) (topK : Z) : completion (list (option string)) :=
  let queryEmbedding := createSimpleEmbedding query in
  match mapC (cosineSimilarity queryEmbedding) embeddings with
  | Throw e => Throw e
  | Normal similarities =>
      let indices :=
        map fst
          (slice0 topK
             (sort lowerScore (imap (λ index score, (index, score)) similarities))) in
      Normal (map (λ index, chunks !! index) indices)
  end.

End RagSearch.

(** ** utils/performance: the cache *)

Module Performance.

(** [SimpleCache<T>]: the entries of the cache hold a value and the time at
    which it was set.  The clock is read by [set] and by [get]; what
    [Date.now()] returns at the call is the argument [now], in milliseconds,
    and the time to live is a number of milliseconds. *)
Section SimpleCache.
Context {T : Type}.

Record Item := { value : T; timestamp : Z }.

Record SimpleCache := { cache : gmap string Item; ttl : Z }.

(** [new SimpleCache(ttlMs)], and the default of [ttlMs]. *)
Definition newSimpleCache (ttlMs : Z) : SimpleCache := {| cache := ∅; ttl := ttlMs |}.

Definition defaultTtl : Z := 5 * 60 * 1000.

(** [set(key, value)] *)
Definition set (now : Z) (key : string) (v : T) (this : SimpleCache) : SimpleCache :=
  {| cache := <[key := {| value := v; timestamp := now |}]> (cache this);
     ttl := ttl this |}.

(** [get(key)]: [null] is [None]. *)
Definition get (now : Z) (key : string) (this : SimpleCache) : option T * SimpleCache :=
  match cache this !! key with
  | None => (None, this)
  | Some item =>
      if ttl this <? now - timestamp item
      then (None, {| cache := delete key (cache this); ttl := ttl this |})
      else (Some (value item), this)
  end.

(** [clear()] *)
Definition clear (this : SimpleCache) : SimpleCache :=
  {| cache := ∅; ttl := ttl this |}.

End SimpleCache.
Global Arguments Item : clear implicits.
Global Arguments SimpleCache : clear implicits.

End Performance.

(** ** app/api/chat-simple/route: what the handler does before it calls the
    language model *)

Module ChatRoute.
Import Js JsText RagService.

Definition greetingPatterns : list (list string) :=
  [["hi"; "hello"; "hey"; "good morning"; "good afternoon"; "good evening"];
   ["hi there"; "hello there"; "hey there"];
   ["what's up"; "whats up"; "sup"];
   ["how are you"; "how's it going"; "hows it going"]].

Definition questionStarts : list string :=
  ["what"; "how"; "when"; "where"; "why"; "who"; "which"; "can"; "could"; "would";
   "should"; "is"; "are"; "do"; "does"; "did"].

Definition questionWords : list string :=
  ["help"; "explain"; "tell me"; "show me"; "guide"; "tutorial"; "steps"].

(** [detectIntent(message)] *)
Definition detectIntent (message : string) : string :=
  let lowerMessage := trim (toLowerCase message) in
  if existsb (λ pattern, matchesWhole pattern lowerMessage) greetingPatterns
  then "greeting"
  else if endsWithChar "?" lowerMessage
          || matchesStart questionStarts lowerMessage
          || matchesBounded questionWords None lowerMessage
  then "question"
  else "general".

Definition simplePatterns : list (list string) :=
  [["thanks"; "thank you"; "ok"; "okay"; "yes"; "no"; "sure"];
   ["bye"; "goodbye"; "see you"; "talk to you later"]].

(** [needsKnowledgeBase(intent, message)] *)
Definition needsKnowledgeBase (intent message : string) : bool :=
  if String.eqb intent "greeting" then false
  else if existsb (λ pattern, matchesWholeIgnoreCase pattern (trim message)) simplePatterns
  then false
  else true.

(** types/chat-types: of a message the handler reads the role and the
    content. *)
Record Message := { role : string; content : string }.

(** What the handler reads of the configuration it fetches. *)
Record Config := { systemPrompt : string; knowledgeBase : list KnowledgeChunk }.

(** services/rag-service, [getRagService()]: the module keeps one instance,
    which it creates when it is first asked for.  [ragServiceInstance] is
    the state of that instance, [None] while the variable is [null]; the
    function gives the state of the instance that it returns. *)
Definition getRagService (ragServiceInstance : option RAGService) : RAGService :=
  match ragServiceInstance with
  | Some this => this
  | None => newRAGService
  end.

(** [messages.length > 0 ? messages[messages.length - 1].content : ""] *)
Definition userQueryOf (messages : list Message) : string :=
  if (0 <? length messages)%nat
  then from_option content "" (messages !! (length messages - 1)%nat)
  else "".

(** [recentHistory] *)
Definition recentHistoryOf (messages : list Message) : string :=
  if (1 <? length messages)%nat
  then join newline
         (map (λ m, role m +:+ ": " +:+ content m) (slice (-7) (-1) messages))
  else "".

(** [limitedMessages], what is sent to the language model of the
    conversation. *)
Definition maxHistoryMessages : Z := 10.

Definition limitedMessagesOf (messages : list Message) : list Message :=
  if maxHistoryMessages <? Z.of_nat (length messages)
  then sliceFrom (Z.of_nat (length messages) - maxHistoryMessages) messages
  else messages.

(** The calls of the service in [POST]; the handler awaits [initialize],
    whose body has run by then. *)
Definition retrieve (config : Config) (userQuery recentHistory : string) : M string :=
  ready ← isReady;
  (if negb ready
   then initialize (knowledgeBase config) (systemPrompt config)
   else mret ()) ;;
  getRelevantContext userQuery recentHistory 3.

(** [relevantContext] as [POST] computes it from the body of the request and
    the configuration that the configuration endpoint answers with, and the
    state of the instance of the service afterwards.  An exception ends the
    handler with the response of its [catch]. *)
Definition relevantContextOf (config : Config) (ragEnabled : bool)
    (messages : list Message) (ragServiceInstance : option RAGService)
  : completion string * option RAGService :=
  let userQuery := userQueryOf messages in
  let intent := detectIntent userQuery in
  let needsRAG := ragEnabled && needsKnowledgeBase intent userQuery in
  if needsRAG
  then
    let ragService := getRagService ragServiceInstance in
    let recentHistory := recentHistoryOf messages in
    let '(relevantContext, this) := retrieve config userQuery recentHistory ragService in
    (relevantContext, Some this)
  else (Normal "", ragServiceInstance).

End ChatRoute.

(** ** utils/rag-utils: the chunking of a text *)

Module RagChunking.
Import Js JsText.

Definition lineFeed : ascii := ascii_of_nat 10.

(** The number of characters of the white space that [s] starts with. *)
Fixpoint whiteSpaceRun (s : string) : nat :=
  match s with
  | EmptyString => 0%nat
  | String c s' => if isWhiteSpace c then S (whiteSpaceRun s') else 0%nat
  end.

(** The number of characters up to the last line feed among the first [n]
    characters of [s], that line feed included. *)
Fixpoint lastLineFeed (n : nat) (s : string) : option nat :=
  match n, s with
  | S n', String c s' =>
      match lastLineFeed n' s' with
      | Some e => Some (S e)
      | None => if Ascii.eqb c lineFeed then Some 1%nat else None
      end
  | _, _ => None
  end.

(** The length of the match of [/\n\s*\n/] at the start of [s], if there is
    one: a line feed, and the white space behind it up to its last line
    feed, which is where the greedy [\s*] gives back to. *)
Definition paragraphBreak (before : option ascii) (s : string) : option nat :=
  match s with
  | EmptyString => None
  | String c s' =>
      if Ascii.eqb c lineFeed
      then S <$> lastLineFeed (whiteSpaceRun s') s'
      else None
  end.

(** The length of the match of [/(?<=[.!?])\s+/] at the start of [s], which
    the character [before] precedes: the white space behind the end of a
    sentence. *)
Definition isSentenceEnd (c : ascii) : bool :=
  Ascii.eqb c "." || Ascii.eqb c "!" || Ascii.eqb c "?".

Definition sentenceBreak (before : option ascii) (s : string) : option nat :=
  if from_option isSentenceEnd false before
  then match whiteSpaceRun s with
       | O => None
       | S n => Some (S n)
       end
  else None.

(** [s.split(separator)] for a regular expression whose matches are not
    empty: [matchAt before s] is the length of its match at the start of [s],
    which [before] precedes.  [cur] is the piece being read, reversed, and
    [skip] the number of characters of a separator that are still to be
    passed. *)
Fixpoint splitGoBy (matchAt : option ascii → string → option nat)
    (before : option ascii) (cur : string) (skip : nat) (s : string) : list string :=
  match s with
  | EmptyString => [String.rev cur]
  | String c s' =>
      match skip with
      | S skip' => splitGoBy matchAt (Some c) cur skip' s'
      | O =>
          match matchAt before s with
          | Some (S n) => String.rev cur :: splitGoBy matchAt (Some c) EmptyString n s'
          | _ => splitGoBy matchAt (Some c) (String c cur) 0 s'
          end
      end
  end.

Definition splitBy (matchAt : option ascii → string → option nat) (s : string)
  : list string :=
  splitGoBy matchAt None EmptyString 0 s.

(** [text.split(/\n\s*\n/)] *)
Definition paragraphsOf (text : string) : list string := splitBy paragraphBreak text.

Definition paragraphSeparator : string := String lineFeed (String lineFeed EmptyString).

(** The overlap that a chunk leaves to the next one: its last three
    sentences, if they are shorter than [overlap]. *)
Definition overlapOf (overlap : Z) (currentChunk : string) : string :=
  let lastSentences := join " " (sliceFrom (-3) (splitBy sentenceBreak currentChunk)) in
  if strlen lastSentences <? overlap then lastSentences else "".

(** The body of the loop over the paragraphs, on [chunks] and
    [currentChunk]. *)
Definition addParagraph (chunkSize overlap : Z) (state : list string * string)
    (paragraph : string) : list string * string :=
  let '(chunks, currentChunk) := state in
  let '(chunks, currentChunk) :=
    if (chunkSize <? strlen currentChunk + strlen paragraph) && (0 <? strlen currentChunk)
    then (chunks ++ [currentChunk], overlapOf overlap currentChunk)
    else (chunks, currentChunk) in
  let currentChunk :=
    if 0 <? strlen currentChunk then currentChunk +:+ paragraphSeparator
    else currentChunk in
  (chunks, currentChunk +:+ paragraph).

(** [chunkText(text, chunkSize, overlap)] *)
Definition chunkText (text : string) (chunkSize overlap : Z) : list string :=
  if strlen text <=? chunkSize then [text]
  else
    let '(chunks, currentChunk) :=
      foldl (addParagraph chunkSize overlap) ([], EmptyString) (paragraphsOf text) in
    if 0 <? strlen currentChunk then chunks ++ [currentChunk] else chunks.

End RagChunking.

(** ** utils/conversation-utils *)

Module JsNumber.
Import Js JsText.

(** The value of a character as a digit, for the radices up to 36. *)
Definition digitValue (c : ascii) : option Z :=
  let n := charCode c in
  if (48 <=? n) && (n <=? 57) then Some (n - 48)
  else if (97 <=? n) && (n <=? 122) then Some (n - 87)
  else if (65 <=? n) && (n <=? 90) then Some (n - 55)
  else None.

(** The value of the longest prefix of [s] made of digits of the radix, read
    behind the digits of value [acc]; [None] while no digit was read. *)
Fixpoint parseDigits (radix : Z) (acc : option Z) (s : string) : option Z :=
  match s with
  | EmptyString => acc
  | String c s' =>
      match digitValue c with
      | Some v =>
          if v <? radix
          then parseDigits radix (Some (default 0 acc * radix + v)) s'
          else acc
      | None => acc
      end
  end.

(** [Number.parseInt(s)] without a radix: white space, a sign, the prefix of
    a hexadecimal number, and the digits; [None] is NaN.  The result is the
    integer that the digits denote, which the number that JavaScript returns
    is while it is below 2^53. *)
Definition parseInt (s : string) : option Z :=
  let s := trimStart s in
  let '(sign, s) :=
    match s with
    | String c s' =>
        if Ascii.eqb c "-" then (-1, s')
        else if Ascii.eqb c "+" then (1, s')
        else (1, s)
    | EmptyString => (1, s)
    end in
  let '(radix, s) :=
    match s with
    | String c1 (String c2 s') =>
        if Ascii.eqb c1 "0" && (Ascii.eqb c2 "x" || Ascii.eqb c2 "X")
        then (16, s')
        else (10, s)
    | _ => (10, s)
    end in
  (λ n, sign * n) <$> parseDigits radix None s.

Definition digitChar (d : Z) : ascii := ascii_of_nat (Z.to_nat (48 + d)).

(** The decimal digits of [n] before [rest]; [fuel] bounds the number of
    digits behind the first one. *)
Fixpoint digitsOf (fuel : nat) (n : Z) (rest : string) : string :=
  let rest' := String (digitChar (n mod 10)) rest in
  match fuel with
  | O => rest'
  | S fuel' => if n <? 10 then rest' else digitsOf fuel' (n / 10) rest'
  end.

(** [z.toString()] for an integer [z] below 10^21: its decimal digits, behind
    a minus sign when it is negative. *)
Definition toString (z : Z) : string :=
  if z <? 0 then String "-" (digitsOf (Z.to_nat (Z.log2 (- z))) (- z) EmptyString)
  else digitsOf (Z.to_nat (Z.log2 z)) z EmptyString.

End JsNumber.

Module ConversationUtils.
Import Js JsText JsNumber.

Definition MAX_MESSAGES : Z := 20.

Definition CONVERSATION_EXPIRY : Z := 24 * 60 * 60 * 1000.

(** The functions run in a browser, where [localStorage] holds items, or on
    the server, where [window] is undefined: [None].  [now] is what
    [new Date().getTime()] gives when the function is called.  The storage
    has room for the two items. *)
Abbreviation Storage := (option (gmap string string)) (only parsing).

(** The messages go through [JSON.stringify] and [JSON.parse]; the stored
    text is read as a list of messages, or not at all. *)
Section Conversation.
Context {Message : Type}.
Context (stringify : list Message → string).
Context (parse : string → completion (list Message)).

(** [saveConversation(messages)] *)
Definition saveConversation (now : Z) (messages : list Message) (localStorage : Storage)
  : Storage :=
  match localStorage with
  | None => None
  | Some items =>
      let limitedMessages :=
        if MAX_MESSAGES <? Z.of_nat (length messages)
        then sliceFrom (Z.of_nat (length messages) - MAX_MESSAGES) messages
        else messages in
      Some (<["last_interaction_time" := toString now]>
              (<["chat_messages" := stringify limitedMessages]> items))
  end.

(** [loadConversation()]; an empty text is falsy. *)
Definition loadConversation (localStorage : Storage) : list Message :=
  match localStorage with
  | None => []
  | Some items =>
      match items !! "chat_messages" with
      | None => []
      | Some savedMessages =>
          if String.eqb savedMessages "" then []
          else match parse savedMessages with
               | Normal messages => messages
               | Throw _ => []
               end
      end
  end.

(** [clearConversation()] *)
Definition clearConversation (localStorage : Storage) : Storage :=
  match localStorage with
  | None => None
  | Some items => Some (delete "chat_messages" items)
  end.

(** [shouldClearConversation()]: a comparison with NaN is false. *)
Definition shouldClearConversation (now : Z) (localStorage : Storage) : bool :=
  match localStorage with
  | None => false
  | Some items =>
      match items !! "last_interaction_time" with
      | None => false
      | Some lastInteractionTime =>
          if String.eqb lastInteractionTime "" then false
          else match parseInt lastInteractionTime with
               | Some last => CONVERSATION_EXPIRY <? now - last
               | None => false
               end
      end
  end.

(** [getConversationAge()]; [None] is NaN. *)
Definition getConversationAge (now : Z) (localStorage : Storage) : option Z :=
  match localStorage with
  | None => Some 0
  | Some items =>
      match items !! "last_interaction_time" with
      | None => Some 0
      | Some lastInteractionTime =>
          if String.eqb lastInteractionTime "" then Some 0
          else (λ last, now - last) <$> parseInt lastInteractionTime
      end
  end.

(** components/chat-interface: the messages that the interface starts with,
    and the storage afterwards. *)
Definition initialMessages (now : Z) (localStorage : Storage) : list Message * Storage :=
  if bool_decide (is_Some localStorage) && shouldClearConversation now localStorage
  then ([], clearConversation localStorage)
  else (loadConversation localStorage, localStorage).

End Conversation.

End ConversationUtils.

(** ** utils/performance: the timers *)

Module Timers.

(** [debounce(func, wait)] and [throttle(func, limit)] return closures over
    a variable, and set timers.  A closure is a function of the time at
    which it is called, and so is the callback of a timer; the state holds
    the variable, the timers that are set and the calls of [func] that were
    made, each with its time.  [func] returns, and does not call the closure.
    A timer runs its callback once, not before its delay has passed; a
    delay below 0 is 0. *)
Definition delay (ms : Z) : Z := Z.max 0 ms.

Fixpoint removeTimer (due : Z) (timers : list Z) : list Z :=
  match timers with
  | [] => []
  | d :: timers' => if d =? due then timers' else d :: removeTimer due timers'
  end.

Section Closures.
Context {Args : Type}.

(** *** [throttle] *)
Record Throttle := {
  inThrottle : bool;
  throttleTimers : list Z;
  throttleInvoked : list (Z * Args)
}.

(** [inThrottle] is [undefined] at first. *)
Definition newThrottle : Throttle :=
  {| inThrottle := false; throttleTimers := []; throttleInvoked := [] |}.

(** The closure that [throttle] returns. *)
Definition throttled (limit now : Z) (args : Args) (st : Throttle) : Throttle :=
  if negb (inThrottle st)
  then {| inThrottle := true;
          throttleTimers := throttleTimers st ++ [now + delay limit];
          throttleInvoked := throttleInvoked st ++ [(now, args)] |}
  else st.

(** The callback [() => (inThrottle = false)] of the timer that is due at
    [due]; [None] when there is no such timer, or when it is not due yet. *)
Definition throttleTimeout (now due : Z) (st : Throttle) : option Throttle :=
  if bool_decide (due ∈ throttleTimers st) && (due <=? now)
  then Some {| inThrottle := false;
               throttleTimers := removeTimer due (throttleTimers st);
               throttleInvoked := throttleInvoked st |}
  else None.

(** *** [debounce] *)

(** [timeout] names the timer that was set last; a timer holds the time at
    which it is due and the arguments of the call that set it. *)
Record Debounce := {
  timeout : option (Z * Args);
  debounceInvoked : list (Z * Args)
}.

Definition newDebounce : Debounce := {| timeout := None; debounceInvoked := [] |}.

(** The closure that [debounce] returns: it clears the timer that was set
    last, if it has not run yet, and sets another one. *)
Definition debounced (wait now : Z) (args : Args) (st : Debounce) : Debounce :=
  {| timeout := Some (now + delay wait, args); debounceInvoked := debounceInvoked st |}.

(** The callback [() => func(...args)] of the timer. *)
Definition debounceTimeout (now : Z) (st : Debounce) : option Debounce :=
  match timeout st with
  | Some (due, args) =>
      if due <=? now
      then Some {| timeout := None;
                   debounceInvoked := debounceInvoked st ++ [(now, args)] |}
      else None
  | None => None
  end.

(** *** What happens to a closure: it is called, or a timer runs. *)
Inductive Event :=
| Call (now : Z) (args : Args)
| Timeout (now due : Z).

Definition eventTime (e : Event) : Z :=
  match e with
  | Call now _ => now
  | Timeout now _ => now
  end.

Fixpoint runThrottle (limit : Z) (events : list Event) (st : Throttle) : option Throttle :=
  match events with
  | [] => Some st
  | Call now args :: events' => runThrottle limit events' (throttled limit now args st)
  | Timeout now due :: events' =>
      match throttleTimeout now due st with
      | Some st' => runThrottle limit events' st'
      | None => None
      end
  end.

Fixpoint runDebounce (wait : Z) (events : list Event) (st : Debounce) : option Debounce :=
  match events with
  | [] => Some st
  | Call now args :: events' => runDebounce wait events' (debounced wait now args st)
  | Timeout now _ :: events' =>
      match debounceTimeout now st with
      | Some st' => runDebounce wait events' st'
      | None => None
      end
  end.

End Closures.
Global Arguments Throttle : clear implicits.
Global Arguments Debounce : clear implicits.
Global Arguments Event : clear implicits.

End Timers.

(** ** Vocabulary of the further statements *)

Module Props.
Import Js JsText RagUtils RagService.

(** The characters of a keyword: the digits, the lowercase ASCII letters and
    the underscore. *)
Definition isKeywordChar (c : ascii) : bool :=
  let n := charCode c in
  ((48 <=? n) && (n <=? 57)) || ((97 <=? n) && (n <=? 122)) || (n =? 95).

(** The letters that [createSimpleEmbedding] counts in a text, in the order
    of the text. *)
Definition letters (text : string) : list ascii :=
  List.filter Spec.isLetter (units (toLowerCase text)).

(** What the code makes of the candidates behind its call of [sort], for any
    order [ranked] that the sort leaves them in.  ECMAScript fixes that
    order when the comparator is consistent; when it is not, as with a score
    that is a NaN, the order is the engine's choice, and the array still
    holds the same elements.  [assembleRanked] is the rest of
    [getRelevantContext]: the cut to [maxChunks], the related chunks and the
    text.  [chunksOfRanked] is the rest of [findRelevantChunks]: the cut to
    [topK] and the chunks at the indices. *)
Definition assembleRanked (this : RAGService) (maxChunks : Z) (ranked : list scored)
  : string :=
  let topChunks := map fst (slice0 maxChunks ranked) in
  let topChunkIds := map (λ r, id (deref this r)) topChunks in
  let relatedChunks := relatedChunksOf this topChunks in
  let maxRelatedToAdd := Nat.min (length relatedChunks) 2 in
  let combinedChunks := topChunks ++ take maxRelatedToAdd relatedChunks in
  let formattedChunks :=
    map (λ r, formatChunk topChunkIds (deref this r)) combinedChunks in
  join separator formattedChunks.

Definition chunksOfRanked (chunks : list string) (topK : Z) (ranked : list scored)
  : list (option string) :=
  map (λ index, chunks !! index) (map fst (slice0 topK ranked)).

(** The messages that are answered without the knowledge base, in their
    normal form: lowercased, without the white space around them. *)
Definition smallTalk : list string :=
  ["hi"; "hello"; "hey"; "good morning"; "good afternoon"; "good evening";
   "hi there"; "hello there"; "hey there";
   "what's up"; "whats up"; "sup";
   "how are you"; "how's it going"; "hows it going";
   "thanks"; "thank you"; "ok"; "okay"; "yes"; "no"; "sure";
   "bye"; "goodbye"; "see you"; "talk to you later"].

Definition normalForm (message : string) : string := trim (toLowerCase message).

(** The characters of the patterns of [needsKnowledgeBase]. *)
Definition isPlainChar (c : ascii) : bool :=
  ((97 <=? charCode c) && (charCode c <=? 122)) || (charCode c =? 32).

(** How a message is written into [recentHistory]. *)
Definition historyLine (m : ChatRoute.Message) : string :=
  ChatRoute.role m +:+ ": " +:+ ChatRoute.content m.

(** The states of the instance of the service that the module of the service
    keeps, as the requests that the handler serves lead to them. *)
Inductive served : option RAGService → Prop :=
| served_start : served None
| served_request ragServiceInstance config ragEnabled messages :
    served ragServiceInstance →
    served (ChatRoute.relevantContextOf config ragEnabled messages ragServiceInstance).2.

(** The calls of the methods of a cache, each with the time at which it is
    made, and the cache after a sequence of calls. *)
Inductive CacheCall (T : Type) :=
| CallSet (now : Z) (key : string) (v : T)
| CallGet (now : Z) (key : string)
| CallClear.
Arguments CallSet {T} now key v.
Arguments CallGet {T} now key.
Arguments CallClear {T}.

Definition call {T} (this : Performance.SimpleCache T) (c : CacheCall T)
  : Performance.SimpleCache T :=
  match c with
  | CallSet now key v => Performance.set now key v this
  | CallGet now key => (Performance.get now key this).2
  | CallClear => Performance.clear this
  end.

Definition callTime {T} (c : CacheCall T) : option Z :=
  match c with
  | CallSet now _ _ => Some now
  | CallGet now _ => Some now
  | CallClear => None
  end.

(** The value that was set last for a key and the time at which it was, if
    the cache has not been cleared since. *)
Definition lastSet {T} (key : string) (calls : list (CacheCall T)) : option (Z * T) :=
  foldl (λ acc c,
           match c with
           | CallSet now key' v => if String.eqb key' key then Some (now, v) else acc
           | CallGet _ _ => acc
           | CallClear => None
           end) None calls.

(** A codec of the lists of units, for the examples: a list is written as
    a bracket and a mark for each element. *)
Fixpoint marks (ms : list unit) : string :=
  match ms with
  | [] => EmptyString
  | _ :: ms' => String "x" (marks ms')
  end.

Definition stringifyUnits (ms : list unit) : string := String "[" (marks ms).

Definition parseUnits (s : string) : completion (list unit) :=
  Normal (replicate (String.length s - 1) ()).

(** The calls of [func] that a debounced closure makes: a timer that runs
    calls [func] with the arguments of the call of the closure before it,
    [pending] being the arguments of a call that no timer has followed. *)
Fixpoint answered {Args} (pending : option Args) (events : list (Timers.Event Args))
  : list (Z * Args) :=
  match events with
  | [] => []
  | Timers.Call _ args :: events' => answered (Some args) events'
  | Timers.Timeout now _ :: events' =>
      match pending with
      | Some args => (now, args) :: answered None events'
      | None => answered None events'
      end
  end.

(** The times of the events do not decrease, from [clock] on. *)
Fixpoint chronological {Args} (clock : Z) (events : list (Timers.Event Args)) : Prop :=
  match events with
  | [] => True
  | e :: events' => clock ≤ Timers.eventTime e ∧ chronological (Timers.eventTime e) events'
  end.

End Props.

(** ** The array sort *)

Section SortFacts.
Import Js Spec.
Context {A : Type} (after : A → A → bool).

Lemma insertSorted_perm x l : insertSorted after x l ≡ₚ x :: l.
Proof.
  induction l as [|y l IH]; simpl; [done|].
  destruct (after x y); [|done].
  rewrite IH. apply Permutation_swap.
Qed.

Lemma sort_perm l : sort after l ≡ₚ l.
Proof.
  induction l as [|x l IH]; simpl; [done|].
  by rewrite insertSorted_perm, IH.
Qed.

Lemma precedes_cons (l : list A) a b c : precedes l a b → precedes (c :: l) a b.
Proof. intros (l1 & l2 & l3 & ->). by exists (c :: l1), l2, l3. Qed.

Lemma precedes_head (l : list A) a b : b ∈ l → precedes (a :: l) a b.
Proof.
  intros (l2 & l3 & ->)%list_elem_of_split. by exists [], l2, l3.
Qed.

Lemma precedes_cons_inv (l : list A) a b c :
  precedes (c :: l) a b → (c = a ∧ b ∈ l) ∨ precedes l a b.
Proof.
  intros (l1 & l2 & l3 & H). destruct l1 as [|d l1]; simplify_eq/=.
  - left. split; [done|]. set_solver.
  - right. by exists l1, l2, l3.
Qed.

(** Inserting keeps the order of the elements that were there. *)
Lemma insertSorted_keeps x l a b :
  precedes l a b → precedes (insertSorted after x l) a b.
Proof.
  induction l as [|y l IH]; simpl; intros H.
  - destruct H as (l1 & ? & ? & H). by destruct l1.
  - destruct (after x y); [|by apply precedes_cons].
    apply precedes_cons_inv in H as [[-> Hb]|H].
    + apply precedes_head. rewrite insertSorted_perm. set_solver.
    + apply precedes_cons; auto.
Qed.

(** The inserted element stays ahead of the ones it need not follow. *)
Lemma insertSorted_ahead x l b :
  b ∈ l → after x b = false → precedes (insertSorted after x l) x b.
Proof.
  induction l as [|y l IH]; simpl; intros Hb Hxb; [by apply elem_of_nil in Hb|].
  destruct (after x y) eqn:Hxy.
  - apply precedes_cons, IH; [|done].
    apply elem_of_cons in Hb as [->|]; [congruence|done].
  - by apply precedes_head.
Qed.

(** Stability, for any comparator: two elements keep their order unless
    the comparator puts the first behind the second. *)
Lemma sort_stable l a b :
  precedes l a b → after a b = false → precedes (sort after l) a b.
Proof.
  induction l as [|x l IH]; simpl; intros H Hab.
  - destruct H as (l1 & ? & ? & H). by destruct l1.
  - apply precedes_cons_inv in H as [[-> Hb]|H].
    + apply insertSorted_ahead; [|done]. by rewrite sort_perm.
    + by apply insertSorted_keeps, IH.
Qed.

Lemma consistent_subseteq (l l' : list A) :
  l' ⊆ l → consistent after l → consistent after l'.
Proof. intros Hsub [Hasym Htrans]. split; eauto 10. Qed.

Lemma consistentb_spec (l : list A) : consistentb after l = true → consistent after l.
Proof.
  unfold consistentb. rewrite forallb_forall. intros H. split.
  - intros a b Ha%list_elem_of_In Hb%list_elem_of_In Hab.
    specialize (H a Ha). rewrite forallb_forall in H. specialize (H b Hb).
    apply andb_true_iff in H as [H _]. rewrite Hab in H. by apply negb_true_iff.
  - intros a b c Ha%list_elem_of_In Hb%list_elem_of_In Hc%list_elem_of_In Hab Hbc.
    specialize (H a Ha). rewrite forallb_forall in H. specialize (H b Hb).
    apply andb_true_iff in H as [_ H]. rewrite forallb_forall in H.
    specialize (H c Hc). rewrite Hab, Hbc in H. by apply negb_true_iff.
Qed.

(** With a consistent comparator the result is ordered. *)
Lemma insertSorted_sorted x l :
  consistent after (x :: l) →
  StronglySorted (λ a b, after a b = false) l →
  StronglySorted (λ a b, after a b = false) (insertSorted after x l).
Proof.
  intros Hc Hl. induction Hl as [|y l Hl IH Hy]; simpl.
  - repeat constructor.
  - destruct Hc as [Hasym Htrans]. destruct (after x y) eqn:Hxy.
    + constructor.
      * apply IH. apply (consistent_subseteq (x :: y :: l)); [set_solver|done].
      * rewrite Forall_forall in Hy |- *. intros z Hz.
        rewrite insertSorted_perm in Hz.
        apply elem_of_cons in Hz as [->|Hz]; [|auto].
        apply Hasym; [set_solver..|done].
    + constructor; [by constructor|].
      constructor; [done|].
      rewrite Forall_forall in Hy |- *. intros z Hz.
      apply (Htrans x y z); [set_solver..|done|auto].
Qed.

Lemma sort_sorted l :
  consistent after l → StronglySorted (λ a b, after a b = false) (sort after l).
Proof.
  induction l as [|x l IH]; intros Hc; simpl; [constructor|].
  apply insertSorted_sorted.
  - apply (consistent_subseteq (x :: l)); [|done].
    intros z. rewrite !elem_of_cons, sort_perm. done.
  - apply IH. apply (consistent_subseteq (x :: l)); [set_solver|done].
Qed.

Lemma StronglySorted_lookup (R : A → A → Prop) l i j a b :
  StronglySorted R l → (i < j)%nat → l !! i = Some a → l !! j = Some b → R a b.
Proof.
  intros Hl. revert i j. induction Hl as [|x l Hl IH Hx]; intros i j Hij Hi Hj.
  - by rewrite lookup_nil in Hi.
  - destruct j as [|j]; [lia|]. destruct i as [|i]; simplify_eq/=.
    + rewrite Forall_forall in Hx. apply Hx.
      apply list_elem_of_lookup. eauto.
    + apply (IH i j); [lia|done..].
Qed.

Lemma precedes_lookup (l : list A) a b :
  precedes l a b ↔ ∃ i j, (i < j)%nat ∧ l !! i = Some a ∧ l !! j = Some b.
Proof.
  split.
  - intros (l1 & l2 & l3 & ->).
    exists (length l1), (length l1 + S (length l2))%nat. split; [lia|]. split.
    + by rewrite list_lookup_middle.
    + rewrite lookup_app_r by lia.
      replace (length l1 + S (length l2) - length l1)%nat with (S (length l2)) by lia.
      simpl. by rewrite list_lookup_middle.
  - intros (i & j & Hij & Hi & Hj).
    apply list_elem_of_split_length in Hi as (l1 & l2 & -> & ->).
    rewrite lookup_app_r in Hj by lia.
    destruct (j - length l1)%nat as [|k] eqn:Hk; [lia|]. simpl in Hj.
    apply list_elem_of_split_length in Hj as (l3 & l4 & -> & _).
    by exists l1, l3, l4.
Qed.

Lemma precedes_NoDup_asym (l : list A) a b :
  NoDup l → precedes l a b → ¬ precedes l b a.
Proof.
  intros Hnd (i & j & Hij & Hi & Hj)%precedes_lookup
    (i' & j' & Hij' & Hi' & Hj')%precedes_lookup.
  assert (i = j') by eauto using NoDup_lookup.
  assert (j = i') by eauto using NoDup_lookup. lia.
Qed.

Lemma precedes_total (l : list A) a b :
  a ∈ l → b ∈ l → a ≠ b → precedes l a b ∨ precedes l b a.
Proof.
  intros [i Hi]%list_elem_of_lookup [j Hj]%list_elem_of_lookup Hne.
  destruct (Nat.lt_trichotomy i j) as [?|[->|?]].
  - left. apply precedes_lookup. eauto.
  - congruence.
  - right. apply precedes_lookup. eauto.
Qed.
End SortFacts.

(** ** The text utilities *)

Section EmbeddingFacts.
Import Js RagUtils Spec.

Lemma slice0_take {A} (n : Z) (l : list A) :
  0 ≤ n → slice0 n l = take (Z.to_nat n) l.
Proof.
  intros Hn. unfold slice0.
  destruct (Z.ltb_spec n 0); [lia|].
  destruct (Z.le_gt_cases n (Z.of_nat (length l))).
  - by rewrite Z.min_l.
  - rewrite Z.min_r, Nat2Z.id by lia.
    rewrite !take_ge; [done|lia..].
Qed.

Lemma letter_eqb (i : nat) (c : ascii) :
  (i < 26)%nat → Ascii.eqb (letter i) c = (charCode c - 97 =? Z.of_nat i).
Proof.
  intros Hi. unfold letter, charCode.
  destruct (Z.eqb_spec (Z.of_nat (nat_of_ascii c) - 97) (Z.of_nat i)) as [H|H].
  - apply Ascii.eqb_eq.
    replace (97 + i)%nat with (nat_of_ascii c) by lia.
    apply ascii_nat_embedding.
  - apply Ascii.eqb_neq. intros <-.
    rewrite nat_ascii_embedding in H; lia.
Qed.

Lemma countLetter_length e c : length (countLetter e c) = length e.
Proof.
  unfold countLetter. destruct (_ && _); [|done]. apply length_alter.
Qed.

Lemma countLetter_lookup e c i :
  (i < 26)%nat →
  countLetter e c !! i
  = (if Ascii.eqb (letter i) c then Z.succ else id) <$> (e !! i).
Proof.
  intros Hi. rewrite letter_eqb by done. unfold countLetter.
  destruct (Z.eqb_spec (charCode c - 97) (Z.of_nat i)) as [H|H].
  - rewrite H.
    destruct (Z.leb_spec 0 (Z.of_nat i)), (Z.ltb_spec (Z.of_nat i) 26);
      try lia; simpl.
    by rewrite Nat2Z.id, list_lookup_alter_eq.
  - destruct (_ && _) eqn:Hr; [|by rewrite option_fmap_id].
    apply andb_true_iff in Hr as [?%Z.leb_le ?%Z.ltb_lt].
    rewrite list_lookup_alter_ne by lia. by rewrite option_fmap_id.
Qed.

Lemma foldl_countLetter_length cs e :
  length (foldl countLetter e cs) = length e.
Proof.
  revert e. induction cs as [|c cs IH]; intros e; simpl; [done|].
  by rewrite IH, countLetter_length.
Qed.

Lemma foldl_countLetter_lookup cs e i :
  (i < 26)%nat →
  foldl countLetter e cs !! i
  = (λ x, x + Z.of_nat (length (List.filter (Ascii.eqb (letter i)) cs))) <$> (e !! i).
Proof.
  intros Hi. revert e. induction cs as [|c cs IH]; intros e; cbn.
  - destruct (e !! i); cbn; [f_equal; lia|done].
  - rewrite IH, countLetter_lookup by done.
    destruct (e !! i) as [x|]; cbn; [|done].
    destruct (Ascii.eqb (letter i) c); cbn; f_equal; lia.
Qed.

Lemma foldl_add_init (l : list Z) (a : Z) : foldl Z.add a l = a + foldl Z.add 0 l.
Proof.
  revert a. induction l as [|x l IH]; intros a; simpl; [lia|].
  rewrite (IH (a + x)), (IH (0 + x)). lia.
Qed.

Lemma sum_alter_succ (e : list Z) (k : nat) :
  (k < length e)%nat →
  foldl Z.add 0 (alter Z.succ k e) = foldl Z.add 0 e + 1.
Proof.
  revert k. induction e as [|x e IH]; intros k Hk; cbn in Hk; [lia|].
  destruct k as [|k]; cbn.
  - rewrite (foldl_add_init e (0 + Z.succ x)), (foldl_add_init e (0 + x)). lia.
  - specialize (IH k ltac:(lia)).
    rewrite (foldl_add_init _ (0 + x)), (foldl_add_init e (0 + x)), IH. lia.
Qed.

Lemma sum_countLetter e c :
  length e = 26%nat →
  foldl Z.add 0 (countLetter e c) = foldl Z.add 0 e + (if isLetter c then 1 else 0).
Proof.
  intros He. unfold countLetter, isLetter.
  destruct (Z.leb_spec 0 (charCode c - 97)), (Z.ltb_spec (charCode c - 97) 26),
    (Z.leb_spec 97 (charCode c)), (Z.leb_spec (charCode c) 122);
    simpl; try lia.
  apply sum_alter_succ. lia.
Qed.

Lemma sum_foldl_countLetter cs e :
  length e = 26%nat →
  foldl Z.add 0 (foldl countLetter e cs)
  = foldl Z.add 0 e + Z.of_nat (length (List.filter isLetter cs)).
Proof.
  revert e. induction cs as [|c cs IH]; intros e He; simpl; [lia|].
  rewrite IH by (by rewrite countLetter_length).
  rewrite sum_countLetter by done.
  destruct (isLetter c); simpl; lia.
Qed.

(** The buckets after the counting loop. *)
Lemma buckets_counts (s : string) :
  foldl countLetter (replicate 26 0) (units s)
  = map (λ i, letterCount i s) (seq 0 26).
Proof.
  apply list_eq_same_length with 26%nat.
  - by rewrite length_map, length_seq.
  - by rewrite foldl_countLetter_length.
  - intros i x y Hi Hx Hy.
    rewrite foldl_countLetter_lookup in Hx by done.
    rewrite lookup_replicate_2 in Hx by done. simpl in Hx.
    rewrite list_lookup_fmap, lookup_seq_lt in Hy by done. simpl in Hy.
    unfold letterCount in Hy. simplify_eq. lia.
Qed.

Lemma buckets_sum (s : string) :
  foldl Z.add 0 (foldl countLetter (replicate 26 0) (units s)) = letterTotal s.
Proof. by rewrite sum_foldl_countLetter. Qed.

Lemma letterCount_nonneg i s : 0 ≤ letterCount i s.
Proof. unfold letterCount. lia. Qed.

Lemma sum_zero_all_zero (l : list Z) :
  Forall (λ x, 0 ≤ x) l → foldl Z.add 0 l = 0 → Forall (λ x, x = 0) l.
Proof.
  induction 1 as [|x l Hx Hl IH]; simpl; [done|].
  rewrite foldl_add_init. intros H.
  assert (0 ≤ foldl Z.add 0 l).
  { clear -Hl. induction Hl; simpl; [done|]. rewrite foldl_add_init. lia. }
  constructor; [lia|]. apply IH. lia.
Qed.

Lemma foldl_Qplus_quotients (l : list Z) (d : Z) (q : QArith_base.Q) :
  QArith_base.Qeq (foldl QArith_base.Qplus q (map (λ n, exactQuotient n d) l))
    (QArith_base.Qplus q (exactQuotient (foldl Z.add 0 l) d)).
Proof.
  revert q. induction l as [|x l IH]; intros q; cbn [map foldl].
  - unfold exactQuotient, QArith_base.Qeq, QArith_base.Qplus. cbn.
    rewrite Pos2Z.inj_mul. ring.
  - rewrite IH, (foldl_add_init l (0 + x)). unfold exactQuotient.
    rewrite <- QArith_base.Qplus_assoc.
    apply QArith_base.Qplus_comp; [reflexivity|].
    rewrite QArith_base.Qinv_plus_distr. by rewrite Z.add_0_l.
Qed.

Lemma sumQ_quotients (l : list Z) (d : Z) :
  0 < d → foldl Z.add 0 l = d →
  QArith_base.Qeq (sumQ (map (λ n, exactQuotient n d) l)) (QArith_base.Qmake 1 1).
Proof.
  intros Hd Hl. unfold sumQ. rewrite foldl_Qplus_quotients, Hl.
  rewrite QArith_base.Qplus_0_l. unfold exactQuotient, QArith_base.Qeq. cbn.
  rewrite Z2Pos.id by done. lia.
Qed.

Lemma createSimpleEmbedding_length text :
  length (createSimpleEmbedding text) = 26%nat.
Proof.
  unfold createSimpleEmbedding. destruct (_ <? _);
    by rewrite length_map, foldl_countLetter_length.
Qed.
End EmbeddingFacts.

(** ** Double precision *)

Section DoubleFacts.
Import Js Spec SpecFloat.

Lemma digits2_pos_bounds (p : positive) :
  2 ^ (Z.pos (digits2_pos p) - 1) ≤ Z.pos p < 2 ^ Z.pos (digits2_pos p).
Proof.
  induction p as [p IH|p IH|]; cbn [digits2_pos]; [| |done];
    rewrite Pos2Z.inj_succ;
    replace (Z.succ (Z.pos (digits2_pos p)) - 1) with (Z.succ (Z.pos (digits2_pos p) - 1))
      by lia;
    rewrite !Z.pow_succ_r by lia; lia.
Qed.

Lemma digits2_pos_unique (p : positive) (d : Z) :
  2 ^ (d - 1) ≤ Z.pos p < 2 ^ d → Z.pos (digits2_pos p) = d.
Proof.
  intros [Hlo Hhi]. pose proof (digits2_pos_bounds p) as [Hlo' Hhi'].
  assert (0 < d).
  { destruct (Z.ltb_spec 0 d); [done|]. exfalso.
    destruct (Z.eq_dec d 0) as [->|]; [change (2 ^ 0) with 1 in Hhi; lia|].
    rewrite Z.pow_neg_r in Hhi by lia. lia. }
  destruct (Z.lt_trichotomy (Z.pos (digits2_pos p)) d) as [Hlt|[Heq|Hgt]]; [|done|].
  - exfalso. assert (2 ^ Z.pos (digits2_pos p) ≤ 2 ^ (d - 1)); [|lia].
    apply Z.pow_le_mono_r; lia.
  - exfalso. assert (2 ^ d ≤ 2 ^ (Z.pos (digits2_pos p) - 1)); [|lia].
    apply Z.pow_le_mono_r; lia.
Qed.

Lemma iter_xO (p c : positive) : Z.pos (Pos.iter xO p c) = Z.pos p * 2 ^ Z.pos c.
Proof.
  change (2 ^ Z.pos c) with (Z.pow_pos 2 c). unfold Z.pow_pos.
  rewrite !Pos2Nat.inj_iter.
  induction (Pos.to_nat c) as [|n IH]; cbn [nat_rect]; [lia|].
  rewrite Pos2Z.inj_xO, IH. lia.
Qed.

Lemma shr_1_m (mrs : shr_record) : 0 ≤ shr_m mrs → shr_m (shr_1 mrs) = shr_m mrs / 2.
Proof.
  destruct mrs as [[|[p|p|]|p] r s]; cbn; intros H; try done; try lia.
  - rewrite Pos2Z.inj_xI. apply Z.div_unique_pos with 1; lia.
  - rewrite Pos2Z.inj_xO. apply Z.div_unique_pos with 0; lia.
Qed.

Lemma iter_shr_1_m (p : positive) (mrs : shr_record) :
  0 ≤ shr_m mrs → shr_m (iter_pos shr_1 p mrs) = shr_m mrs / 2 ^ Z.pos p.
Proof.
  revert mrs. induction p as [p IH|p IH|]; intros mrs Hm; cbn [iter_pos].
  - assert (0 ≤ shr_m (shr_1 mrs)) by (rewrite shr_1_m by done; by apply Z.div_pos).
    assert (0 ≤ shr_m (iter_pos shr_1 p (shr_1 mrs))).
    { rewrite IH by done. apply Z.div_pos; lia. }
    rewrite IH, IH, shr_1_m by done.
    rewrite !Z.div_div by lia. f_equal.
    replace (Z.pos p~1) with (Z.pos p + Z.pos p + 1) by lia.
    rewrite !Z.pow_add_r by lia. lia.
  - assert (0 ≤ shr_m (iter_pos shr_1 p mrs)).
    { rewrite IH by done. apply Z.div_pos; lia. }
    rewrite IH, IH by done.
    rewrite !Z.div_div by lia. f_equal.
    replace (Z.pos p~0) with (Z.pos p + Z.pos p) by lia.
    rewrite !Z.pow_add_r by lia. lia.
  - by apply shr_1_m.
Qed.

(** Shifting a mantissa of [d] digits, 53 at least, to 53 digits. *)
Lemma shr_fexp_m (mx : positive) (ex : Z) (lx : location) :
  let d := Z.pos (digits2_pos mx) in
  53 ≤ d → -1074 ≤ ex + d - 53 →
  ∃ mrs, shr_fexp 53 1024 (Z.pos mx) ex lx = (mrs, ex + d - 53) ∧
         shr_m mrs = Z.pos mx / 2 ^ (d - 53) ∧
         (d = 53 → mrs = shr_record_of_loc (Z.pos mx) lx).
Proof.
  intros d Hd He. unfold shr_fexp, fexp, emin. cbn [Zdigits2]. fold d.
  replace (Z.max (d + ex - 53) (3 - 1024 - 53) - ex) with (d - 53) by lia.
  unfold shr. destruct (d - 53) as [|k|k] eqn:Hk; [|..|lia].
  - exists (shr_record_of_loc (Z.pos mx) lx). replace (ex + d - 53) with ex by lia.
    split; [done|]. split; [|done].
    rewrite Z.pow_0_r, Z.div_1_r. by destruct lx as [|[]].
  - eexists. split; [f_equal; lia|]. split; [|lia].
    rewrite iter_shr_1_m; by destruct lx as [|[]].
Qed.

(** Rounding a mantissa of [d] digits, 53 at least, gives a double of 53
    digits that is the mantissa without its last [d - 53] digits, or the
    next one. *)
Lemma binary_round_aux_spec (mx : positive) (ex : Z) (lx : location) :
  let d := Z.pos (digits2_pos mx) in
  let k := d - 53 in
  53 ≤ d → -1074 ≤ ex + k → ex + d ≤ 1023 →
  ∃ (m : positive) (e : Z),
    binary_round_aux 53 1024 false (Z.pos mx) ex lx = S754_finite false m e ∧
    Z.pos (digits2_pos m) = 53 ∧ ex + k ≤ e ≤ ex + k + 1 ∧
    (∃ mr, Z.pos mx / 2 ^ k ≤ mr ≤ Z.pos mx / 2 ^ k + 1 ∧
           Z.pos m * 2 ^ (e - ex) = mr * 2 ^ k) ∧
    (d = 53 → lx = loc_Exact → m = mx ∧ e = ex).
Proof.
  intros d k Hd He Hmax.
  destruct (shr_fexp_m mx ex lx Hd) as (mrs & Hshr & Hm & Hexact); [fold d; lia|].
  fold d in Hshr, Hm, Hexact. fold k in Hm.
  replace (ex + d - 53) with (ex + k) in Hshr by lia.
  unfold binary_round_aux. rewrite Hshr.
  set (mt := Z.pos mx / 2 ^ k) in *.
  set (mr := round_nearest_even (shr_m mrs) (loc_of_shr_record mrs)).
  assert (Hmt : 2 ^ 52 ≤ mt < 2 ^ 53).
  { pose proof (digits2_pos_bounds mx) as [Hlo Hhi]. fold d in Hlo, Hhi.
    replace (d - 1) with (52 + k) in Hlo by lia.
    replace d with (53 + k) in Hhi by lia.
    rewrite Z.pow_add_r in Hlo, Hhi by lia.
    assert (0 < 2 ^ k) by (apply Z.pow_pos_nonneg; lia).
    unfold mt. split.
    - apply Z.div_le_lower_bound; lia.
    - apply Z.div_lt_upper_bound; lia. }
  assert (Hmr : mt ≤ mr ≤ mt + 1).
  { unfold mr. rewrite Hm.
    destruct (loc_of_shr_record mrs) as [|[]]; cbn [round_nearest_even];
      [lia|destruct (Z.even mt); lia|lia|lia]. }
  assert (Hmrx : d = 53 → lx = loc_Exact → mr = Z.pos mx).
  { intros H53 ->. unfold mr. by rewrite (Hexact H53). }
  clearbody mr. destruct mr as [|mr|mr]; [lia| |lia].
  assert (Hk : 0 ≤ k) by lia.
  destruct (Z.ltb_spec (Z.pos mr) (2 ^ 53)) as [Hlt|Hge].
  - assert (Hdr : Z.pos (digits2_pos mr) = 53).
    { apply digits2_pos_unique. change (53 - 1) with 52. lia. }
    destruct (shr_fexp_m mr (ex + k) loc_Exact) as (mrs' & Hshr' & _ & Hexact');
      [lia|lia|].
    rewrite Hdr in Hshr', Hexact'. rewrite Hshr', Hexact' by done.
    cbn [shr_record_of_loc shr_m].
    replace (ex + k + 53 - 53) with (ex + k) by lia.
    destruct (Z.leb_spec (ex + k) (1024 - 53)); [|lia].
    exists mr, (ex + k). split; [done|]. split; [done|]. split; [lia|]. split.
    + exists (Z.pos mr). split; [done|]. by replace (ex + k - ex) with k by lia.
    + intros H53 Hlx. specialize (Hmrx H53 Hlx). split; [congruence|lia].
  - assert (Hmr53 : Z.pos mr = 2 ^ 53) by lia.
    assert (Hdr : Z.pos (digits2_pos mr) = 54).
    { apply digits2_pos_unique. rewrite Hmr53. done. }
    destruct (shr_fexp_m mr (ex + k) loc_Exact) as (mrs' & Hshr' & Hm' & _);
      [lia|lia|].
    rewrite Hdr in Hshr', Hm'. rewrite Hshr'.
    rewrite Hm', Hmr53. change (2 ^ 53 / 2 ^ (54 - 53)) with (Z.pos (2 ^ 52)%positive).
    cbv iota.
    destruct (Z.leb_spec (ex + k + 54 - 53) (1024 - 53)); [|lia].
    exists (2 ^ 52)%positive, (ex + k + 54 - 53).
    split; [done|]. split; [done|]. split; [lia|]. split.
    + exists (Z.pos mr). split; [done|]. rewrite Hmr53.
      replace (ex + k + 54 - 53 - ex) with (1 + k) by lia.
      rewrite Z.pow_add_r by lia. change (Z.pos (2 ^ 52)) with (2 ^ 52).
      change (2 ^ 53) with (2 ^ 52 * 2 ^ 1). lia.
    + intros H53 Hlx. specialize (Hmrx H53 Hlx).
      pose proof (digits2_pos_bounds mx) as Hb. fold d in Hb. rewrite H53 in Hb. lia.
Qed.

(** What rounding keeps of a quotient [N / c]: between the quotient without
    its last [k] digits and the next number of that form, which are both
    within one part in [2 ^ 52] of it. *)
Lemma rounded_enclosure (N c k mr : Z) :
  0 < c → 0 ≤ k → 2 ^ 52 ≤ N / c / 2 ^ k →
  N / c / 2 ^ k ≤ mr ≤ N / c / 2 ^ k + 1 →
  (2 ^ 52 - 1) * N ≤ mr * 2 ^ k * c * 2 ^ 52 ≤ (2 ^ 52 + 1) * N.
Proof.
  intros Hc Hk Ht Hmr.
  assert (Hp : 0 < 2 ^ k) by (apply Z.pow_pos_nonneg; lia).
  pose proof (Z.div_mod N c ltac:(lia)) as HN.
  pose proof (Z.mod_pos_bound N c Hc) as HNr.
  pose proof (Z.div_mod (N / c) (2 ^ k) ltac:(lia)) as Hq.
  pose proof (Z.mod_pos_bound (N / c) (2 ^ k) Hp) as Hqr.
  set (q := N / c) in *. set (t := q / 2 ^ k) in *. set (P := 2 ^ k) in *.
  set (W := P * c). set (a := W * t).
  assert (HW : 0 < W) by (unfold W; lia).
  assert (Hlo : a ≤ N).
  { unfold a, W. rewrite HN, Hq at 1.
    replace (P * c * t) with (c * (P * t)) by lia.
    assert (c * (P * t) ≤ c * (P * t + q mod P)); [|lia].
    apply Z.mul_le_mono_nonneg_l; lia. }
  assert (Hhi : N < a + W).
  { unfold a, W. rewrite HN.
    assert (c * q + c ≤ P * c * t + P * c); [|lia].
    replace (P * c * t + P * c) with (c * (P * t + P)) by lia.
    replace (c * q + c) with (c * (q + 1)) by lia.
    apply Z.mul_le_mono_nonneg_l; lia. }
  assert (HaB : W * 2 ^ 52 ≤ a).
  { unfold a. apply Z.mul_le_mono_nonneg_l; lia. }
  change (2 ^ 52) with 4503599627370496 in *.
  assert (mr = t ∨ mr = t + 1) as [->| ->] by lia.
  - replace (t * P * c * 4503599627370496) with (a * 4503599627370496)
      by (unfold a, W; lia).
    lia.
  - replace ((t + 1) * P * c * 4503599627370496) with ((a + W) * 4503599627370496)
      by (unfold a, W; lia).
    lia.
Qed.

(** An integer below [2 ^ 53] is a double. *)
Lemma ofZ_normal (n : Z) :
  0 < n < 2 ^ 53 →
  ∃ m e, FloatOps.Prim2SF (ofZ n) = S754_finite false m e ∧
         Z.pos (digits2_pos m) = 53 ∧ -52 ≤ e ≤ 0 ∧ Z.pos m = n * 2 ^ (- e).
Proof.
  intros Hn. unfold ofZ. rewrite FloatAxioms.of_uint63_spec, Uint63.of_Z_spec.
  rewrite Z.mod_small by (change Uint63.wB with (2 ^ 63); lia).
  destruct n as [|p|p]; [lia| |lia].
  unfold FloatOps.prec, FloatOps.emax. cbn [binary_normalize]. unfold binary_round.
  pose proof (digits2_pos_bounds p) as Hb.
  set (d := Z.pos (digits2_pos p)) in *.
  assert (Hd : 1 ≤ d ≤ 53).
  { split; [unfold d; lia|].
    destruct (Z.leb_spec d 53); [done|]. exfalso.
    assert (2 ^ 53 ≤ 2 ^ (d - 1)); [apply Z.pow_le_mono_r; lia|lia]. }
  unfold fexp, emin. replace (Z.max (d + 0 - 53) (3 - 1024 - 53)) with (d - 53) by lia.
  unfold shl_align. destruct (d - 53 - 0) as [|c|c] eqn:Hc; [|lia|].
  - destruct (binary_round_aux_spec p 0 loc_Exact) as (m & e & -> & Hm & _ & _ & Hexact);
      [fold d; lia..|].
    fold d in Hexact. destruct Hexact as [-> ->]; [lia|done|].
    exists p, 0. split; [done|]. split; [done|]. split; [lia|]. cbn. lia.
  - pose proof (iter_xO p c) as Hz. set (mz := Pos.iter xO p c) in *.
    assert (Hc' : Z.pos c = 53 - d) by lia.
    assert (Hdz : Z.pos (digits2_pos mz) = 53).
    { apply digits2_pos_unique. rewrite Hz, Hc'.
      assert (H1 : 2 ^ (53 - 1) = 2 ^ (d - 1) * 2 ^ (53 - d)).
      { rewrite <- Z.pow_add_r by lia. f_equal. lia. }
      assert (H2 : 2 ^ 53 = 2 ^ d * 2 ^ (53 - d)).
      { rewrite <- Z.pow_add_r by lia. f_equal. lia. }
      rewrite H1, H2.
      assert (0 < 2 ^ (53 - d)) by (apply Z.pow_pos_nonneg; lia). nia. }
    destruct (binary_round_aux_spec mz (d - 53) loc_Exact)
      as (m & e & -> & Hm & _ & _ & Hexact); [rewrite Hdz; lia..|].
    destruct Hexact as [-> ->]; [done..|].
    exists mz, (d - 53). split; [done|]. split; [done|]. split; [lia|].
    rewrite Hz, Hc'. f_equal. f_equal. lia.
Qed.

Lemma ofZ_0 : FloatOps.Prim2SF (ofZ 0) = S754_zero false.
Proof. reflexivity. Qed.

(** The quotient of two doubles of 53 digits. *)
Lemma SFdiv_normal (m1 m2 : positive) (e1 e2 : Z) :
  Z.pos (digits2_pos m1) = 53 → Z.pos (digits2_pos m2) = 53 →
  -52 ≤ e1 ≤ 0 → -52 ≤ e2 ≤ 0 →
  ∃ m e mr k,
    SFdiv 53 1024 (S754_finite false m1 e1) (S754_finite false m2 e2)
    = S754_finite false m e ∧
    Z.pos (digits2_pos m) = 53 ∧ -105 ≤ e ≤ 1 ∧
    0 ≤ k ∧ e1 - e2 - 53 ≤ e ∧
    2 ^ 52 ≤ Z.pos m1 * 2 ^ 53 / Z.pos m2 / 2 ^ k ∧
    Z.pos m1 * 2 ^ 53 / Z.pos m2 / 2 ^ k ≤ mr ≤ Z.pos m1 * 2 ^ 53 / Z.pos m2 / 2 ^ k + 1 ∧
    Z.pos m * 2 ^ (e - (e1 - e2 - 53)) = mr * 2 ^ k.
Proof.
  intros Hd1 Hd2 He1 He2. unfold SFdiv, SFdiv_core_binary. cbn [Zdigits2].
  rewrite Hd1, Hd2. unfold fexp, emin.
  replace (Z.min (Z.max (53 + e1 - (53 + e2) - 53) (3 - 1024 - 53)) (e1 - e2))
    with (e1 - e2 - 53) by lia.
  replace (e1 - e2 - (e1 - e2 - 53)) with 53 by lia.
  rewrite Z.shiftl_mul_pow2 by done. cbn [xorb].
  pose proof (digits2_pos_bounds m1) as Hb1. rewrite Hd1 in Hb1.
  pose proof (digits2_pos_bounds m2) as Hb2. rewrite Hd2 in Hb2.
  change (53 - 1) with 52 in *.
  set (N := Z.pos m1 * 2 ^ 53) in *.
  assert (Hq : 2 ^ 52 ≤ N / Z.pos m2 < 2 ^ 54).
  { split.
    - apply Z.div_le_lower_bound; [lia|].
      unfold N. change (2 ^ 53) with (2 ^ 52 * 2) in *. nia.
    - apply Z.div_lt_upper_bound; [lia|].
      unfold N. change (2 ^ 54) with (2 ^ 53 * 2). change (2 ^ 53) with (2 ^ 52 * 2) in *.
      nia. }
  assert (Hqr : Z.div_eucl N (Z.pos m2) = (N / Z.pos m2, N mod Z.pos m2)).
  { unfold Z.div, Z.modulo. by destruct (Z.div_eucl N (Z.pos m2)). }
  rewrite Hqr. set (r := N mod Z.pos m2). clearbody r.
  destruct (N / Z.pos m2) as [|q|q];
    [change (2 ^ 52) with 4503599627370496 in Hq; lia| |lia].
  set (d := Z.pos (digits2_pos q)).
  assert (Hd : 53 ≤ d ≤ 54).
  { pose proof (digits2_pos_bounds q) as Hb. fold d in Hb. split.
    - destruct (Z.leb_spec 53 d); [done|]. exfalso.
      assert (2 ^ d ≤ 2 ^ 52); [apply Z.pow_le_mono_r; lia|lia].
    - destruct (Z.leb_spec d 54); [done|]. exfalso.
      assert (2 ^ 54 ≤ 2 ^ (d - 1)); [apply Z.pow_le_mono_r; lia|lia]. }
  destruct (binary_round_aux_spec q (e1 - e2 - 53) (new_location (Z.pos m2) r))
    as (m & e & -> & Hm & He & (mr & Hmr & Hval) & _); [fold d; lia..|].
  fold d in He, Hmr, Hval.
  exists m, e, mr, (d - 53). split; [done|]. split; [done|]. split; [lia|].
  split; [lia|]. split; [lia|]. split; [|done].
  pose proof (digits2_pos_bounds q) as Hb. fold d in Hb.
  apply Z.div_le_lower_bound; [apply Z.pow_pos_nonneg; lia|].
  rewrite <- Z.pow_add_r by lia. replace (d - 53 + 52) with (d - 1) by lia. lia.
Qed.

Lemma shl_align_fst (m : positive) (e e' : Z) :
  e' ≤ e → Z.pos (shl_align m e e').1 = Z.pos m * 2 ^ (e - e').
Proof.
  intros He. unfold shl_align. destruct (e' - e) as [|c|c] eqn:Hc; [|lia|]; cbn [fst].
  - replace (e - e') with 0 by lia. lia.
  - rewrite iter_xO. f_equal. f_equal. lia.
Qed.

(** The sum of two doubles of 53 digits. *)
Lemma SFadd_normal (m1 m2 : positive) (e1 e2 : Z) :
  Z.pos (digits2_pos m1) = 53 → Z.pos (digits2_pos m2) = 53 →
  -1074 ≤ e1 ≤ 969 → -1074 ≤ e2 ≤ 969 →
  let ez := Z.min e1 e2 in
  let sum := Z.pos m1 * 2 ^ (e1 - ez) + Z.pos m2 * 2 ^ (e2 - ez) in
  ∃ m e mr k,
    SFadd 53 1024 (S754_finite false m1 e1) (S754_finite false m2 e2)
    = S754_finite false m e ∧
    Z.pos (digits2_pos m) = 53 ∧ ez ≤ e ∧ 0 ≤ k ∧
    2 ^ 52 ≤ sum / 2 ^ k ∧
    sum / 2 ^ k ≤ mr ≤ sum / 2 ^ k + 1 ∧
    Z.pos m * 2 ^ (e - ez) = mr * 2 ^ k.
Proof.
  intros Hd1 Hd2 He1 He2 ez sum. unfold SFadd. fold ez. cbn [cond_Zopp].
  pose proof (shl_align_fst m1 e1 ez ltac:(lia)) as Ha.
  pose proof (shl_align_fst m2 e2 ez ltac:(lia)) as Hb.
  set (a := (shl_align m1 e1 ez).1) in *. set (b := (shl_align m2 e2 ez).1) in *.
  change (Z.pos a + Z.pos b) with (Z.pos (a + b)). cbn [binary_normalize].
  assert (Hsum : Z.pos (a + b) = sum) by (unfold sum; lia).
  pose proof (digits2_pos_bounds m1) as Hb1. rewrite Hd1 in Hb1.
  pose proof (digits2_pos_bounds m2) as Hb2. rewrite Hd2 in Hb2.
  change (53 - 1) with 52 in *.
  set (emx := Z.max e1 e2).
  assert (Hp1 : 1 ≤ 2 ^ (e1 - ez) ≤ 2 ^ (emx - ez)).
  { split; [assert (0 < 2 ^ (e1 - ez)) by (apply Z.pow_pos_nonneg; lia); lia|].
    apply Z.pow_le_mono_r; lia. }
  assert (Hp2 : 1 ≤ 2 ^ (e2 - ez) ≤ 2 ^ (emx - ez)).
  { split; [assert (0 < 2 ^ (e2 - ez)) by (apply Z.pow_pos_nonneg; lia); lia|].
    apply Z.pow_le_mono_r; lia. }
  assert (Hs : 2 ^ 52 ≤ sum < 2 ^ (54 + (emx - ez))).
  { rewrite Z.pow_add_r by lia. change (2 ^ 54) with (2 ^ 53 * 2).
    unfold sum. split; nia. }
  set (d := Z.pos (digits2_pos (a + b))).
  assert (Hd : 53 ≤ d ≤ 54 + (emx - ez)).
  { pose proof (digits2_pos_bounds (a + b)) as Hbd. fold d in Hbd.
    rewrite Hsum in Hbd. split.
    - destruct (Z.leb_spec 53 d); [done|]. exfalso.
      assert (2 ^ d ≤ 2 ^ 52); [apply Z.pow_le_mono_r; lia|lia].
    - destruct (Z.leb_spec d (54 + (emx - ez))); [done|]. exfalso.
      assert (2 ^ (54 + (emx - ez)) ≤ 2 ^ (d - 1)); [apply Z.pow_le_mono_r; lia|lia]. }
  unfold binary_round. fold d. unfold fexp, emin.
  replace (Z.max (d + ez - 53) (3 - 1024 - 53)) with (ez + (d - 53)) by lia.
  unfold shl_align. destruct (ez + (d - 53) - ez) as [| |c] eqn:Hc; [| |lia].
  all: destruct (binary_round_aux_spec (a + b) ez loc_Exact)
         as (m & e & -> & Hm & He & (mr & Hmr & Hval) & _); [fold d; lia..|];
       fold d in He, Hmr, Hval; rewrite Hsum in Hmr;
       exists m, e, mr, (d - 53); split; [done|]; split; [done|]; split; [lia|];
       split; [lia|]; split; [|done];
       pose proof (digits2_pos_bounds (a + b)) as Hbd; fold d in Hbd;
       rewrite Hsum in Hbd;
       apply Z.div_le_lower_bound; [apply Z.pow_pos_nonneg; lia|];
       rewrite <- Z.pow_add_r by lia; replace (d - 53 + 52) with (d - 1) by lia; lia.
Qed.
End DoubleFacts.

Section DoubleValues.
Import Js Spec QArith Qpower SpecFloat.
Local Open Scope Q_scope.

Lemma dyadic_shift (m e j : Z) : (0 ≤ j)%Z → dyadic (m * 2 ^ j) e == dyadic m (e + j).
Proof.
  intros Hj. unfold dyadic.
  rewrite inject_Z_mult, Zpower_Qpower, Qpower_plus by done.
  change (inject_Z 2) with (2 # 1). ring.
Qed.

Lemma dyadic_mult (c m e : Z) : inject_Z c * dyadic m e == dyadic (c * m) e.
Proof. unfold dyadic. rewrite inject_Z_mult. ring. Qed.

Lemma pow2_pos (e : Z) : 0 < (2 # 1) ^ e.
Proof. by apply Qpower_0_lt. Qed.

Lemma dyadic_le (a b e : Z) : (a ≤ b)%Z → dyadic a e <= dyadic b e.
Proof.
  intros Hab. unfold dyadic. apply Qmult_le_compat_r.
  - by rewrite <- Zle_Qle.
  - apply Qlt_le_weak, pow2_pos.
Qed.

Lemma dyadic_0 (e : Z) : dyadic 0 e == 0.
Proof. unfold dyadic. ring. Qed.

Lemma dyadic_inject (n : Z) : dyadic n 0 == inject_Z n.
Proof. unfold dyadic. cbn. ring. Qed.

(** What is within one part in [2 ^ 52] in the integers is so in the
    numbers. *)
Lemma dyadic_enclosure (N c M e : Z) (X : Q) :
  (0 < c)%Z → X * inject_Z c == dyadic N e →
  ((2 ^ 52 - 1) * N ≤ M * c * 2 ^ 52 ≤ (2 ^ 52 + 1) * N)%Z →
  (4503599627370495 # 4503599627370496) * X <= dyadic M e
  ∧ dyadic M e <= (4503599627370497 # 4503599627370496) * X.
Proof.
  intros Hc HX [Hlo Hhi].
  apply (dyadic_le _ _ e) in Hlo, Hhi.
  assert (Hcq : 0 < inject_Z c) by (by rewrite <- (Zlt_Qlt 0)).
  assert (E1 : ∀ a : Z, dyadic (a * N) e == inject_Z a * (X * inject_Z c)).
  { intros a. rewrite HX. unfold dyadic. rewrite inject_Z_mult. ring. }
  assert (E2 : dyadic (M * c * 2 ^ 52) e
               == (4503599627370496 # 1) * (dyadic M e * inject_Z c)).
  { unfold dyadic. rewrite !inject_Z_mult.
    change (inject_Z (2 ^ 52)) with (4503599627370496 # 1). ring. }
  rewrite E1, E2 in Hlo, Hhi.
  change (inject_Z (2 ^ 52 - 1)) with (4503599627370495 # 1) in Hlo.
  change (inject_Z (2 ^ 52 + 1)) with (4503599627370497 # 1) in Hhi.
  set (D := dyadic M e) in *. clearbody D.
  split.
  - apply (Qmult_le_r _ _ _ Hcq). Lqa.lra.
  - apply (Qmult_le_r _ _ _ Hcq). Lqa.lra.
Qed.

Lemma dyadic_plus (a b e : Z) : dyadic (a + b) e == dyadic a e + dyadic b e.
Proof. unfold dyadic. rewrite inject_Z_plus. ring. Qed.

Lemma exactQuotient_mult (n d : Z) : (0 < d)%Z → exactQuotient n d * inject_Z d == inject_Z n.
Proof.
  intros Hd. unfold exactQuotient, Qeq, Qmult, inject_Z. cbn.
  rewrite Pos.mul_1_r, Z2Pos.id by done. lia.
Qed.

Lemma exactQuotient_plus (a b d : Z) :
  exactQuotient (a + b) d == exactQuotient a d + exactQuotient b d.
Proof. unfold exactQuotient. by rewrite Qinv_plus_distr. Qed.

Lemma exactQuotient_bounds (n d : Z) :
  (0 ≤ n ≤ d)%Z → (0 < d)%Z → 0 <= exactQuotient n d ∧ exactQuotient n d <= 1.
Proof.
  intros Hn Hd. unfold exactQuotient, Qle. cbn. rewrite Z2Pos.id by done. lia.
Qed.

Lemma summand_exponent (m : positive) (e : Z) :
  Z.pos (digits2_pos m) = 53%Z → dyadic (Z.pos m) e <= 2 → (e ≤ 969)%Z.
Proof.
  intros Hd Hv. destruct (Z.leb_spec e 969) as [|He]; [done|]. exfalso.
  pose proof (digits2_pos_bounds m) as [Hlo _]. rewrite Hd in Hlo.
  change (2 ^ (53 - 1))%Z with 4503599627370496%Z in Hlo.
  assert (H1 : dyadic (Z.pos m) 0 <= dyadic (Z.pos m) e).
  { unfold dyadic. apply Qmult_le_l; [by rewrite <- (Zlt_Qlt 0)|].
    apply Qpower_le_compat_l; [lia|done]. }
  rewrite dyadic_inject in H1.
  assert (H2 : inject_Z 4503599627370496 <= inject_Z (Z.pos m)) by (by rewrite <- Zle_Qle).
  change (inject_Z 4503599627370496) with (4503599627370496 # 1) in H2.
  Lqa.lra.
Qed.

(** The quotient of two integers below [2 ^ 53] is within one part in
    [2 ^ 52] of the exact quotient. *)
Lemma quotient_double (n d : Z) :
  (0 < n < 2 ^ 53)%Z → (0 < d < 2 ^ 53)%Z →
  ∃ m e, FloatOps.Prim2SF (ofZ n / ofZ d) = S754_finite false m e ∧
         Z.pos (digits2_pos m) = 53%Z ∧ (-105 ≤ e ≤ 1)%Z ∧
         (4503599627370495 # 4503599627370496) * exactQuotient n d <= dyadic (Z.pos m) e ∧
         dyadic (Z.pos m) e <= (4503599627370497 # 4503599627370496) * exactQuotient n d.
Proof.
  intros Hn Hd.
  destruct (ofZ_normal n Hn) as (m1 & e1 & Hx & Hd1 & He1 & Hm1).
  destruct (ofZ_normal d Hd) as (m2 & e2 & Hy & Hd2 & He2 & Hm2).
  rewrite FloatAxioms.div_spec, Hx, Hy.
  unfold FloatAxioms.SF64div, FloatOps.prec, FloatOps.emax.
  destruct (SFdiv_normal m1 m2 e1 e2 Hd1 Hd2 He1 He2)
    as (m & e & mr & k & -> & Hm & He & Hk & Hee & Ht & Hmr & Hval).
  exists m, e. split; [done|]. split; [done|]. split; [done|].
  pose proof (rounded_enclosure (Z.pos m1 * 2 ^ 53) (Z.pos m2) k mr
                ltac:(lia) Hk Ht Hmr) as Henc.
  rewrite <- Hval in Henc.
  apply (dyadic_enclosure _ _ _ (e1 - e2 - 53) (exactQuotient n d)) in Henc; [|lia|].
  - rewrite dyadic_shift in Henc by lia.
    by replace (e1 - e2 - 53 + (e - (e1 - e2 - 53)))%Z with e in Henc by lia.
  - rewrite dyadic_shift by lia. rewrite Hm1, Hm2, dyadic_shift by lia.
    replace (e1 - e2 - 53 + 53 + - e1)%Z with (- e2)%Z by lia.
    rewrite inject_Z_mult, Qmult_assoc, exactQuotient_mult by lia.
    unfold dyadic. rewrite Zpower_Qpower by lia. reflexivity.
Qed.

Lemma quotient_zero (d : Z) :
  (0 < d < 2 ^ 53)%Z → FloatOps.Prim2SF (ofZ 0 / ofZ d) = S754_zero false.
Proof.
  intros Hd. destruct (ofZ_normal d Hd) as (m2 & e2 & Hy & _).
  by rewrite FloatAxioms.div_spec, Hy, ofZ_0.
Qed.

(** The sum of two doubles that are not negative is within one part in
    [2 ^ 52] of the exact sum. *)
Lemma sum_double (x y : spec_float) :
  summand x → summand y → value x <= 2 → value y <= 2 →
  summand (SFadd 53 1024 x y) ∧
  (4503599627370495 # 4503599627370496) * (value x + value y)
  <= value (SFadd 53 1024 x y) ∧
  value (SFadd 53 1024 x y)
  <= (4503599627370497 # 4503599627370496) * (value x + value y).
Proof.
  intros [->|(m1 & e1 & -> & Hd1 & He1)] [->|(m2 & e2 & -> & Hd2 & He2)] Hvx Hvy.
  - cbn. split; [by left|]. split; Lqa.lra.
  - assert (0 <= dyadic (Z.pos m2) e2).
    { rewrite <- (dyadic_0 e2). by apply dyadic_le. }
    cbn [SFadd value cond_Zopp] in *. split; [right; eauto|]. split; Lqa.lra.
  - assert (0 <= dyadic (Z.pos m1) e1).
    { rewrite <- (dyadic_0 e1). by apply dyadic_le. }
    cbn [SFadd value cond_Zopp] in *. split; [right; eauto|]. split; Lqa.lra.
  - cbn [value cond_Zopp] in Hvx, Hvy.
    pose proof (summand_exponent m1 e1 Hd1 Hvx).
    pose proof (summand_exponent m2 e2 Hd2 Hvy).
    destruct (SFadd_normal m1 m2 e1 e2 Hd1 Hd2 ltac:(lia) ltac:(lia))
      as (m & e & mr & k & -> & Hm & He & Hk & Ht & Hmr & Hval).
    split; [right; exists m, e; split; [done|]; split; [done|]; lia|].
    cbn [value cond_Zopp].
    set (ez := Z.min e1 e2) in *.
    set (sum := (Z.pos m1 * 2 ^ (e1 - ez) + Z.pos m2 * 2 ^ (e2 - ez))%Z) in *.
    rewrite <- (Z.div_1_r sum) in Ht, Hmr.
    pose proof (rounded_enclosure sum 1 k mr ltac:(lia) Hk Ht Hmr) as Henc.
    rewrite <- Hval in Henc.
    apply (dyadic_enclosure _ _ _ ez (dyadic (Z.pos m1) e1 + dyadic (Z.pos m2) e2))
      in Henc; [|lia|].
    + rewrite dyadic_shift in Henc by lia.
      by replace (ez + (e - ez))%Z with e in Henc by lia.
    + unfold sum. rewrite dyadic_plus, !dyadic_shift by lia.
      replace (ez + (e1 - ez))%Z with e1 by lia.
      replace (ez + (e2 - ez))%Z with e2 by lia.
      change (inject_Z 1) with 1. ring.
Qed.

(** A quotient of a count by the total, as a double. *)
Lemma entry_double (n d : Z) :
  (0 ≤ n < 2 ^ 53)%Z → (0 < d < 2 ^ 53)%Z →
  summand (FloatOps.Prim2SF (ofZ n / ofZ d)) ∧
  (4503599627370495 # 4503599627370496) * exactQuotient n d <= valueOf (ofZ n / ofZ d) ∧
  valueOf (ofZ n / ofZ d) <= (4503599627370497 # 4503599627370496) * exactQuotient n d.
Proof.
  intros Hn Hd. unfold valueOf. destruct (Z.eq_dec n 0) as [->|Hn0].
  - rewrite (quotient_zero d Hd). split; [by left|]. by cbn.
  - destruct (quotient_double n d ltac:(lia) Hd) as (m & e & -> & Hm & He & Hv).
    split; [right; exists m, e; split; [done|]; split; [done|]; lia|]. done.
Qed.

(** The sum as the code computes it, from left to right: after [k] steps it
    is within one part in [2 ^ 52] and [k] times [9 / 2 ^ 55] of the exact
    sum of the exact quotients. *)
Lemma sum_loop (d : Z) (l : list Z) :
  (0 < d < 2 ^ 53)%Z →
  ∀ (acc : float) (S : Z) (k : nat),
    Forall (λ n, 0 ≤ n)%Z l → (0 ≤ S)%Z → (S + foldl Z.add 0%Z l ≤ d)%Z →
    (k + length l ≤ 26)%nat →
    summand (FloatOps.Prim2SF acc) →
    (4503599627370495 # 4503599627370496) * exactQuotient S d
      - inject_Z (Z.of_nat k) * (9 # 36028797018963968) <= valueOf acc →
    valueOf acc <= (4503599627370497 # 4503599627370496) * exactQuotient S d
      + inject_Z (Z.of_nat k) * (9 # 36028797018963968) →
    let r := foldl PrimFloat.add acc (map (λ n, (ofZ n / ofZ d)%float) l) in
    summand (FloatOps.Prim2SF r) ∧
    (4503599627370495 # 4503599627370496) * exactQuotient (S + foldl Z.add 0%Z l) d
      - inject_Z (Z.of_nat (k + length l)) * (9 # 36028797018963968) <= valueOf r ∧
    valueOf r <= (4503599627370497 # 4503599627370496) * exactQuotient (S + foldl Z.add 0%Z l) d
      + inject_Z (Z.of_nat (k + length l)) * (9 # 36028797018963968).
Proof.
  intros Hd. induction l as [|n l IH]; intros acc S k Hl HS Hsum Hk Hacc Hlo Hhi.
  - cbn [foldl map length]. rewrite Z.add_0_r, Nat.add_0_r. done.
  - cbn [map foldl length] in *. apply Forall_cons in Hl as [Hn Hl].
    rewrite foldl_add_init in Hsum.
    assert (Hl0 : (0 ≤ foldl Z.add 0%Z l)%Z).
    { clear -Hl. induction Hl as [|x l Hx Hl IH]; cbn [foldl]; [done|].
      rewrite foldl_add_init. lia. }
    destruct (entry_double n d ltac:(lia) Hd) as (Hx & Hxlo & Hxhi).
    destruct (exactQuotient_bounds S d ltac:(lia) ltac:(lia)) as [HX0 HX1].
    destruct (exactQuotient_bounds n d ltac:(lia) ltac:(lia)) as [Hq0 Hq1].
    destruct (exactQuotient_bounds (S + n) d ltac:(lia) ltac:(lia)) as [_ HXq].
    rewrite exactQuotient_plus in HXq.
    assert (HK : inject_Z (Z.of_nat k) <= 25).
    { change 25 with (inject_Z 25). rewrite <- Zle_Qle. lia. }
    assert (HK0 : 0 <= inject_Z (Z.of_nat k)).
    { change 0 with (inject_Z 0). rewrite <- Zle_Qle. lia. }
    unfold valueOf in *.
    destruct (sum_double _ _ Hacc Hx) as (Hs & Hslo & Hshi); [Lqa.lra..|].
    unfold FloatAxioms.SF64add, FloatOps.prec, FloatOps.emax in *.
    specialize (IH (acc + ofZ n / ofZ d)%float (S + n)%Z (Datatypes.S k) Hl).
    rewrite FloatAxioms.add_spec in IH.
    unfold FloatAxioms.SF64add, FloatOps.prec, FloatOps.emax in IH.
    rewrite exactQuotient_plus in IH.
    replace (inject_Z (Z.of_nat (Datatypes.S k))) with (inject_Z (Z.of_nat k) + 1) in IH.
    2:{ rewrite Nat2Z.inj_succ. unfold Z.succ. by rewrite inject_Z_plus. }
    rewrite foldl_add_init.
    replace (S + (0 + n + foldl Z.add 0%Z l))%Z with (S + n + foldl Z.add 0%Z l)%Z by lia.
    replace (k + Datatypes.S (length l))%nat with (Datatypes.S k + length l)%nat by lia.
    apply IH; [lia|lia|lia|done|Lqa.lra|Lqa.lra].
Qed.

Lemma foldl_add_nonneg (l : list Z) : Forall (λ n, 0 ≤ n)%Z l → (0 ≤ foldl Z.add 0%Z l)%Z.
Proof.
  induction 1 as [|x l Hx Hl IH]; cbn [foldl]; [done|]. rewrite foldl_add_init. lia.
Qed.

Lemma exactQuotient_0 (d : Z) : exactQuotient 0 d == 0.
Proof. done. Qed.

Lemma exactQuotient_1 (d : Z) : (0 < d)%Z → exactQuotient d d == 1.
Proof.
  intros Hd. unfold exactQuotient, Qeq. cbn. rewrite Z2Pos.id by done. lia.
Qed.

(** The exact sum of the quotients as doubles. *)
Lemma entries_sum (d : Z) (l : list Z) :
  (0 < d < 2 ^ 53)%Z → Forall (λ n, 0 ≤ n)%Z l → (foldl Z.add 0%Z l < 2 ^ 53)%Z →
  ∀ q : Q,
    q + (4503599627370495 # 4503599627370496) * exactQuotient (foldl Z.add 0%Z l) d
    <= foldl Qplus q (map valueOf (map (λ n, (ofZ n / ofZ d)%float) l)) ∧
    foldl Qplus q (map valueOf (map (λ n, (ofZ n / ofZ d)%float) l))
    <= q + (4503599627370497 # 4503599627370496) * exactQuotient (foldl Z.add 0%Z l) d.
Proof.
  intros Hd. induction l as [|n l IH]; intros Hl Hsum q.
  - cbn [foldl map]. pose proof (exactQuotient_0 d). split; Lqa.lra.
  - apply Forall_cons in Hl as [Hn Hl]. cbn [map foldl] in *.
    rewrite foldl_add_init in Hsum. pose proof (foldl_add_nonneg l Hl).
    destruct (entry_double n d ltac:(lia) Hd) as (_ & Hxlo & Hxhi).
    destruct (IH Hl ltac:(lia) (q + valueOf (ofZ n / ofZ d))) as [Hlo Hhi].
    rewrite foldl_add_init, Z.add_0_l, exactQuotient_plus.
    split; Lqa.lra.
Qed.

(** The signature of a text with letters, fewer than [2 ^ 53]. *)
Lemma signature_sums (counts : list Z) (total : Z) :
  (0 < total < 2 ^ 53)%Z → Forall (λ n, 0 ≤ n)%Z counts →
  foldl Z.add 0%Z counts = total → length counts = 26%nat →
  let signature := map (λ x, (ofZ x / ofZ total)%float) counts in
  1 - epsilon <= sumQ (map valueOf signature) ∧
  sumQ (map valueOf signature) <= 1 + epsilon ∧
  isFinite (sumFloat signature) = true ∧
  1 - sumTolerance <= valueOf (sumFloat signature) ∧
  valueOf (sumFloat signature) <= 1 + sumTolerance.
Proof.
  intros Ht Hnn Hsum Hlen signature.
  pose proof (exactQuotient_0 total) as H0.
  pose proof (exactQuotient_1 total ltac:(lia)) as H1.
  change epsilon with (1 # 4503599627370496).
  change sumTolerance with (1 # 140737488355328).
  destruct (entries_sum total counts Ht Hnn ltac:(lia) 0) as [Hlo Hhi].
  rewrite Hsum in Hlo, Hhi. fold signature in Hlo, Hhi.
  change (foldl Qplus 0 ?l) with (sumQ l) in Hlo, Hhi.
  destruct (sum_loop total counts Ht 0%float 0%Z 0%nat Hnn ltac:(lia) ltac:(lia)
              ltac:(lia) ltac:(by left)) as (Hs & Hslo & Hshi).
  { change (valueOf 0) with 0. change (inject_Z (Z.of_nat 0)) with 0. Lqa.lra. }
  { change (valueOf 0) with 0. change (inject_Z (Z.of_nat 0)) with 0. Lqa.lra. }
  rewrite Z.add_0_l, Hsum, Hlen in Hslo, Hshi. fold signature in Hs, Hslo, Hshi.
  change (foldl add 0%float signature) with (sumFloat signature) in Hs, Hslo, Hshi.
  change (inject_Z (Z.of_nat (0 + 26))) with 26 in Hslo, Hshi.
  split; [Lqa.lra|]. split; [Lqa.lra|]. split; [|split; Lqa.lra].
  unfold isFinite. by destruct Hs as [->|(m & e & -> & _)].
Qed.
End DoubleValues.

Section KeywordFacts.
Import Js RagUtils Spec.

Lemma arrayIncludes_spec (arr : list string) (x : string) :
  arrayIncludes arr x = true ↔ x ∈ arr.
Proof.
  unfold arrayIncludes. rewrite existsb_exists. split.
  - intros (y & Hy & ->%String.eqb_eq). by apply list_elem_of_In.
  - intros Hx. exists x. split; [by apply list_elem_of_In|apply String.eqb_refl].
Qed.

Lemma arrayIncludes_false (arr : list string) (x : string) :
  arrayIncludes arr x = false ↔ x ∉ arr.
Proof.
  rewrite <- arrayIncludes_spec. by destruct (arrayIncludes arr x).
Qed.

Lemma occurrences_snoc w l x :
  occurrences w (l ++ [x]) = occurrences w l + (if String.eqb w x then 1 else 0).
Proof.
  unfold occurrences. rewrite List.filter_app, length_app. cbn.
  destruct (String.eqb w x); cbn; lia.
Qed.

Lemma occurrences_zero w l : w ∉ l → occurrences w l = 0.
Proof.
  unfold occurrences. induction l as [|y l IH]; cbn; [done|].
  intros [Hne Hl]%not_elem_of_cons.
  destruct (String.eqb_spec w y); [done|auto].
Qed.

Section OrderedMapFacts.
Context {V : Type}.
Implicit Types m : list (string * V).

Lemma mapGet_None m k : mapGet m k = None ↔ k ∉ map fst m.
Proof.
  induction m as [|[k' v] m IH]; cbn.
  - split; [intros _; apply not_elem_of_nil|done].
  - rewrite not_elem_of_cons. destruct (String.eqb_spec k' k).
    + split; [done|]. intros [? _]. congruence.
    + rewrite IH. naive_solver.
Qed.

Lemma mapGet_mapSet m k v k' :
  mapGet (mapSet m k v) k' = if String.eqb k k' then Some v else mapGet m k'.
Proof.
  induction m as [|[k0 v0] m IH]; cbn.
  - done.
  - destruct (String.eqb_spec k0 k) as [->|Hne]; cbn.
    + by destruct (String.eqb_spec k k').
    + rewrite IH. destruct (String.eqb_spec k0 k'), (String.eqb_spec k k');
        congruence.
Qed.

Lemma mapSet_keys m k v :
  map fst (mapSet m k v)
  = if bool_decide (k ∈ map fst m) then map fst m else map fst m ++ [k].
Proof.
  induction m as [|[k0 v0] m IH]; cbn; [done|].
  destruct (String.eqb_spec k0 k) as [->|Hne]; cbn.
  - rewrite bool_decide_eq_true_2; [done|]. apply elem_of_cons. by left.
  - rewrite IH. destruct (bool_decide_reflect (k ∈ map fst m)) as [Hin|Hin].
    + rewrite bool_decide_eq_true_2; [done|]. apply elem_of_cons. by right.
    + rewrite bool_decide_eq_false_2; [done|].
      rewrite not_elem_of_cons. split; [congruence|done].
Qed.

Lemma mapGet_elem_of m k v :
  NoDup (map fst m) → (k, v) ∈ m → mapGet m k = Some v.
Proof.
  induction m as [|[k0 v0] m IH]; cbn; intros Hnd Hin.
  - by apply elem_of_nil in Hin.
  - apply NoDup_cons in Hnd as [Hk0 Hnd].
    apply elem_of_cons in Hin as [[= -> ->]|Hin].
    + by rewrite String.eqb_refl.
    + destruct (String.eqb_spec k0 k) as [->|]; [|auto].
      exfalso. apply Hk0. apply list_elem_of_fmap. by exists (k, v).
Qed.
End OrderedMapFacts.

Lemma precedes_snoc_inv {A} (l : list A) x a b :
  precedes (l ++ [x]) a b → precedes l a b ∨ (a ∈ l ∧ b = x).
Proof.
  intros (l1 & l2 & l3 & H).
  induction l3 as [|y l3' _] using rev_ind.
  - right.
    replace (l1 ++ a :: l2 ++ [b]) with ((l1 ++ a :: l2) ++ [b]) in H
      by (by rewrite <- app_assoc).
    apply app_inj_tail in H as [-> ->]. split; [|done]. set_solver.
  - left.
    replace (l1 ++ a :: l2 ++ b :: l3' ++ [y])
      with ((l1 ++ a :: l2 ++ b :: l3') ++ [y]) in H
      by (rewrite <- !app_assoc; cbn; by rewrite <- !app_assoc).
    apply app_inj_tail in H as [-> ->]. by exists l1, l2, l3'.
Qed.

(** What the counting loop has built after the tokens [ws]. *)
Lemma foldl_countWord_inv (ws : list string) :
  let m := foldl countWord [] ws in
  NoDup (map fst m) ∧
  (∀ w, mapGet m w = if bool_decide (w ∈ ws) then Some (occurrences w ws) else None) ∧
  (∀ a b, precedes (map fst m) a b → ∃ pre rest, ws = pre ++ a :: rest ∧ b ∉ pre).
Proof.
  induction ws as [|x ws IH] using rev_ind; cbn.
  - split; [constructor|]. split; [done|].
    intros a b (l1 & ? & ? & H). by destruct l1.
  - rewrite foldl_snoc. cbn in IH. destruct IH as (Hnd & Hget & Hord).
    set (m := foldl countWord [] ws) in *.
    assert (Hkeys : ∀ w, w ∈ map fst m ↔ w ∈ ws).
    { intros w. specialize (Hget w).
      destruct (bool_decide_reflect (w ∈ ws)) as [Hin|Hin].
      - split; [done|]. intros _.
        destruct (decide (w ∈ map fst m)) as [|Hn]; [done|].
        apply mapGet_None in Hn. congruence.
      - apply mapGet_None in Hget. tauto. }
    unfold countWord at 1 2 3. rewrite mapSet_keys. repeat split.
    + destruct (bool_decide_reflect (x ∈ map fst m)) as [Hin|Hin]; [done|].
      apply NoDup_app. split; [done|]. split.
      * intros y Hy ->%list_elem_of_singleton. done.
      * apply NoDup_singleton.
    + intros w. rewrite mapGet_mapSet, occurrences_snoc.
      destruct (String.eqb_spec x w) as [->|Hne].
      * rewrite bool_decide_eq_true_2 by set_solver.
        rewrite String.eqb_refl, Hget.
        destruct (bool_decide_reflect (w ∈ ws)); cbn; [done|].
        by rewrite occurrences_zero.
      * rewrite Hget. destruct (String.eqb_spec w x); [congruence|].
        destruct (bool_decide_reflect (w ∈ ws)) as [Hin|Hin].
        -- rewrite bool_decide_eq_true_2 by set_solver. f_equal. lia.
        -- rewrite bool_decide_eq_false_2; [done|].
           rewrite elem_of_app, list_elem_of_singleton. naive_solver.
    + intros a b Hab.
      assert (precedes (map fst m) a b ∨ (a ∈ ws ∧ b ∉ ws)) as [H|[Ha Hb]].
      { destruct (bool_decide_reflect (x ∈ map fst m)) as [Hin|Hin]; [by left|].
        apply precedes_snoc_inv in Hab as [?|[Ha ->]]; [by left|].
        right. rewrite <- !Hkeys. done. }
      * destruct (Hord a b H) as (pre & rest & -> & Hb).
        exists pre, (rest ++ [x]). by rewrite <- app_assoc.
      * apply list_elem_of_split in Ha as (pre & rest & ->).
        exists pre, (rest ++ [x]). rewrite <- app_assoc. split; [done|].
        set_solver.
Qed.
End KeywordFacts.

Section KeywordRanking.
Import Js RagUtils Spec.

Lemma lessFrequent_consistent l : consistent lessFrequent l.
Proof.
  unfold lessFrequent. split.
  - intros a b _ _ ?%Z.ltb_lt. apply Z.ltb_ge. lia.
  - intros a b c _ _ _ ?%Z.ltb_ge ?%Z.ltb_ge. apply Z.ltb_ge. lia.
Qed.

Lemma precedes_fmap {A B} (f : A → B) (l : list A) a b :
  precedes l a b → precedes (map f l) (f a) (f b).
Proof.
  intros (l1 & l2 & l3 & ->).
  exists (map f l1), (map f l2), (map f l3).
  by rewrite map_app, (map_cons f a), map_app.
Qed.

Lemma keepWord_spec w : keepWord w = true → (w ∉ stopWords) ∧ (2 < strlen w).
Proof.
  unfold keepWord. intros [?%Z.ltb_lt Hs%negb_true_iff]%andb_true_iff.
  by apply bool_decide_eq_false in Hs.
Qed.

Lemma words_keep text w : w ∈ words text → keepWord w = true.
Proof.
  unfold words. intros H%list_elem_of_In. by apply List.filter_In in H as [_ ?].
Qed.

Lemma wordCounts_keys text w :
  w ∈ map fst (wordCounts text) ↔ w ∈ words text.
Proof.
  destruct (foldl_countWord_inv (words text)) as (_ & Hget & _).
  specialize (Hget w). fold (wordCounts text) in Hget.
  destruct (bool_decide_reflect (w ∈ words text)) as [Hin|Hin].
  - split; [done|]. intros _.
    destruct (decide (w ∈ map fst (wordCounts text))) as [|Hn]; [done|].
    apply mapGet_None in Hn. congruence.
  - apply mapGet_None in Hget. tauto.
Qed.

Lemma wordCounts_count text w n :
  (w, n) ∈ wordCounts text → n = occurrences w (words text).
Proof.
  intros Hin.
  destruct (foldl_countWord_inv (words text)) as (Hnd & Hget & _).
  fold (wordCounts text) in Hnd, Hget.
  assert (Hw : w ∈ words text).
  { apply wordCounts_keys, list_elem_of_fmap. by exists (w, n). }
  apply mapGet_elem_of in Hin; [|done].
  rewrite Hget, bool_decide_eq_true_2 in Hin by done. congruence.
Qed.

(** The entries ranked by the sort, before the cut to ten. *)
Lemma ranked_order text i j wi ni wj nj :
  let ranked := sort lessFrequent (wordCounts text) in
  (i < j)%nat → ranked !! i = Some (wi, ni) → ranked !! j = Some (wj, nj) →
  nj ≤ ni ∧
  (ni = nj → ∃ pre rest, words text = pre ++ wi :: rest ∧ wj ∉ pre).
Proof.
  intros ranked Hij Hi Hj.
  destruct (foldl_countWord_inv (words text)) as (Hnd & _ & Hord).
  fold (wordCounts text) in Hnd, Hord.
  assert (Hperm : ranked ≡ₚ wordCounts text) by apply sort_perm.
  assert (Hndr : NoDup ranked).
  { rewrite Hperm. by apply NoDup_fmap_1 in Hnd. }
  pose proof (StronglySorted_lookup _ _ _ _ _ _
    (sort_sorted _ (wordCounts text) (lessFrequent_consistent _)) Hij Hi Hj) as Hs.
  unfold lessFrequent in Hs. cbn in Hs. apply Z.ltb_ge in Hs.
  split; [lia|]. intros ->.
  assert (Hne : (wi, nj) ≠ (wj, nj)).
  { intros Heq. rewrite <- Heq in Hj.
    pose proof (NoDup_lookup _ _ _ _ Hndr Hi Hj). lia. }
  assert (Hini : (wi, nj) ∈ wordCounts text).
  { rewrite <- Hperm. apply list_elem_of_lookup. eauto. }
  assert (Hinj : (wj, nj) ∈ wordCounts text).
  { rewrite <- Hperm. apply list_elem_of_lookup. eauto. }
  destruct (precedes_total _ _ _ Hini Hinj Hne) as [Hp|Hp].
  - apply (precedes_fmap fst) in Hp. by apply Hord in Hp.
  - exfalso. apply (sort_stable lessFrequent) in Hp.
    + apply (precedes_NoDup_asym _ _ _ Hndr Hp).
      apply precedes_lookup. eauto.
    + unfold lessFrequent. cbn. apply Z.ltb_ge. lia.
Qed.
End KeywordRanking.

(** ** Statements about the text utilities *)

Import Js RagUtils Spec.

(** C6.  The signature of a text has 26 entries; entry [i] is the
    double-precision quotient of the number of occurrences of the letter [i]
    in the lowercased text by the number of its letters, and 0 when the text
    has no letter.  The 26 counts add up to the number of letters, so that
    the exact quotients sum to 1, and the entries, which are these
    quotients rounded, sum to 1 up to the rounding: when the text has a
    letter, and fewer than [2 ^ 53] letters as every string of JavaScript
    has, the exact sum of the entries is within [2 ^ -52] of 1, and their
    sum in double precision from left to right, as
    [reduce((a, b) => a + b, 0)] computes it, is a number within [2 ^ -47]
    of 1.  A text without letters has the all-zero signature. *)
Theorem createSimpleEmbedding_spec (text : string) :
  let lower := toLowerCase text in
  let total := letterTotal lower in
  length (createSimpleEmbedding text) = 26%nat ∧
  (∀ i, (i < 26)%nat →
     createSimpleEmbedding text !! i
     = Some (if 0 <? total
             then (ofZ (letterCount i lower) / ofZ total)%float
             else 0%float)) ∧
  foldl Z.add 0 (map (λ i, letterCount i lower) (seq 0 26)) = total ∧
  (0 < total →
     QArith_base.Qeq
       (sumQ (map (λ i, exactQuotient (letterCount i lower) total) (seq 0 26)))
       (QArith_base.Qmake 1 1)) ∧
  (0 < total → total < 2 ^ 53 →
     let signature := createSimpleEmbedding text in
     QArith_base.Qle (QArith_base.Qminus (QArith_base.Qmake 1 1) epsilon)
       (sumQ (map valueOf signature)) ∧
     QArith_base.Qle (sumQ (map valueOf signature))
       (QArith_base.Qplus (QArith_base.Qmake 1 1) epsilon) ∧
     isFinite (sumFloat signature) = true ∧
     QArith_base.Qle (QArith_base.Qminus (QArith_base.Qmake 1 1) sumTolerance)
       (valueOf (sumFloat signature)) ∧
     QArith_base.Qle (valueOf (sumFloat signature))
       (QArith_base.Qplus (QArith_base.Qmake 1 1) sumTolerance)) ∧
  (total = 0 → createSimpleEmbedding text = replicate 26 0%float).
Proof.
  intros lower total.
  assert (Hzero : total = 0 →
    map (λ i, letterCount i lower) (seq 0 26) = replicate 26 0).
  { intros H0.
    assert (Hall : Forall (λ x, x = 0) (map (λ i, letterCount i lower) (seq 0 26))).
    { apply sum_zero_all_zero.
      - apply Forall_forall. intros z (k & -> & _)%list_elem_of_fmap.
        apply letterCount_nonneg.
      - by rewrite <- buckets_counts, buckets_sum. }
    apply list_eq_same_length with 26%nat; [done..|].
    intros i x y Hi Hx Hy. rewrite lookup_replicate_2 in Hy by done.
    rewrite Forall_forall in Hall.
    assert (x = 0); [|congruence].
    apply Hall, list_elem_of_lookup. eauto. }
  split; [apply createSimpleEmbedding_length|].
  unfold createSimpleEmbedding. fold lower.
  rewrite buckets_sum, buckets_counts. fold total.
  split; [|split; [|split; [|split]]].
  - intros i Hi. destruct (0 <? total) eqn:Ht.
    + rewrite list_lookup_fmap, list_lookup_fmap, lookup_seq_lt by done. done.
    + apply Z.ltb_ge in Ht.
      assert (total = 0) as H0 by (unfold total, letterTotal in *; lia).
      rewrite (Hzero H0), list_lookup_fmap, lookup_replicate_2 by done. done.
  - by rewrite <- buckets_counts, buckets_sum.
  - intros Ht.
    rewrite <- (map_map (λ i, letterCount i lower) (λ n, exactQuotient n total)).
    apply sumQ_quotients; [done|]. by rewrite <- buckets_counts, buckets_sum.
  - intros Ht Hbig. rewrite (proj2 (Z.ltb_lt 0 total) Ht).
    apply signature_sums; [done| | |done].
    + apply Forall_forall. intros z (k & -> & _)%list_elem_of_fmap.
      apply letterCount_nonneg.
    + by rewrite <- buckets_counts, buckets_sum.
  - intros H0. rewrite H0. cbn [Z.ltb Z.compare]. by rewrite (Hzero H0).
Qed.

Lemma createSimpleEmbedding_spec_witness :
  createSimpleEmbedding "Refund 2024" !! 3%nat
  = Some (if 0 <? letterTotal "refund 2024"
          then (ofZ (letterCount 3 "refund 2024") / ofZ (letterTotal "refund 2024"))%float
          else 0%float) ∧
  QArith_base.Qle (QArith_base.Qminus (QArith_base.Qmake 1 1) sumTolerance)
    (valueOf (sumFloat (createSimpleEmbedding "Refund 2024"))) ∧
  QArith_base.Qle (valueOf (sumFloat (createSimpleEmbedding "Refund 2024")))
    (QArith_base.Qplus (QArith_base.Qmake 1 1) sumTolerance).
Proof.
  destruct (createSimpleEmbedding_spec "Refund 2024") as (_ & Hentry & _ & _ & Hsum & _).
  split; [apply Hentry; lia|].
  destruct Hsum as (_ & _ & _ & Hlo & Hhi); [done..|].
  split; [exact Hlo|exact Hhi].
Defined.

(** The rounding shows: the ten letters of "abcdefghij" give ten entries
    0.1, and their sum in double precision is 0.9999999999999999, which is
    [1 - 2 ^ -53]. *)
Lemma createSimpleEmbedding_sum_not_one :
  0 < letterTotal (toLowerCase "abcdefghij") ∧
  sumFloat (createSimpleEmbedding "abcdefghij") ≠ 1%float.
Proof.
  split; [done|]. intros H.
  apply (f_equal (λ x, PrimFloat.eqb x 1)) in H. vm_compute in H. discriminate.
Qed.

(** The sum in double precision can be farther from 1 than [2 ^ -52], which
    is [Number.EPSILON]: the 19 letters of "aaabbbbbcccccdefghh" give
    0.9999999999999997, which is [1 - 3 * 2 ^ -53]. *)
Lemma createSimpleEmbedding_sum_beyond_epsilon :
  QArith_base.Qeq (valueOf (sumFloat (createSimpleEmbedding "aaabbbbbcccccdefghh")))
    (QArith_base.Qmake (2 ^ 53 - 3) (2 ^ 53)) ∧
  QArith_base.Qlt (valueOf (sumFloat (createSimpleEmbedding "aaabbbbbcccccdefghh")))
    (QArith_base.Qminus (QArith_base.Qmake 1 1) epsilon).
Proof. by vm_compute. Qed.

(** C7.  Keyword extraction returns at most 10 keywords; none is a stop word
    or has two characters or fewer; a keyword is never less frequent among the
    counted tokens than one returned after it, and of two equally frequent
    ones the first returned is the first met in the text; a token that is not
    returned is not more frequent than a returned one; and equal texts give
    equal lists. *)
Theorem extractKeywords_spec (text : string) :
  let kws := extractKeywords text in
  let freq w := occurrences w (words text) in
  (length kws ≤ 10)%nat ∧
  (∀ w, w ∈ kws → (w ∉ stopWords) ∧ (2 < strlen w)) ∧
  (∀ i j wi wj, (i < j)%nat → kws !! i = Some wi → kws !! j = Some wj →
     freq wj ≤ freq wi ∧
     (freq wi = freq wj → ∃ pre rest, words text = pre ++ wi :: rest ∧ wj ∉ pre)) ∧
  (∀ w r, w ∈ words text → w ∉ kws → r ∈ kws → freq w ≤ freq r) ∧
  (∀ text', text' = text → extractKeywords text' = kws).
Proof.
  intros kws freq. unfold kws, extractKeywords.
  rewrite slice0_take by lia. change (Z.to_nat 10) with 10%nat.
  set (ranked := sort lessFrequent (wordCounts text)).
  assert (Hperm : ranked ≡ₚ wordCounts text) by apply sort_perm.
  assert (Hlook : ∀ i w, map fst (take 10 ranked) !! i = Some w →
    (i < 10)%nat ∧ ranked !! i = Some (w, freq w)).
  { intros i w Hi. rewrite list_lookup_fmap in Hi.
    destruct (take 10 ranked !! i) as [[w' n]|] eqn:Ht; simplify_eq/=.
    apply lookup_take_Some in Ht as [Ht Hlt]. split; [done|].
    rewrite Ht. do 2 f_equal. apply wordCounts_count.
    rewrite <- Hperm. apply list_elem_of_lookup. eauto. }
  repeat split.
  - rewrite length_map, length_take. lia.
  - apply keepWord_spec, (words_keep text), wordCounts_keys.
    apply list_elem_of_fmap in H as ([w' n] & -> & Hin%elem_of_take).
    destruct Hin as (i & Hin & _).
    apply list_elem_of_fmap. exists (w', n). split; [done|].
    rewrite <- Hperm. apply list_elem_of_lookup. eauto.
  - apply keepWord_spec, (words_keep text), wordCounts_keys.
    apply list_elem_of_fmap in H as ([w' n] & -> & Hin%elem_of_take).
    destruct Hin as (i & Hin & _).
    apply list_elem_of_fmap. exists (w', n). split; [done|].
    rewrite <- Hperm. apply list_elem_of_lookup. eauto.
  - apply Hlook in H0 as [_ H0]. apply Hlook in H1 as [_ H1].
    by destruct (ranked_order text i j _ _ _ _ H H0 H1).
  - apply Hlook in H0 as [_ H0]. apply Hlook in H1 as [_ H1].
    by destruct (ranked_order text i j _ _ _ _ H H0 H1).
  - intros w r Hw Hnot Hr.
    apply list_elem_of_lookup in Hr as [q Hq]. apply Hlook in Hq as [Hq10 Hq].
    apply wordCounts_keys, list_elem_of_fmap in Hw as ([w' n] & -> & Hin).
    rewrite <- Hperm in Hin. apply list_elem_of_lookup in Hin as [p Hp].
    assert (10 ≤ p)%nat as Hp10.
    { destruct (Nat.le_gt_cases 10 p) as [|Hlt]; [done|]. exfalso. apply Hnot.
      apply list_elem_of_fmap. exists (w', n). split; [done|].
      apply list_elem_of_lookup. exists p. by rewrite lookup_take_lt. }
    assert (n = freq w') as ->.
    { apply wordCounts_count. rewrite <- Hperm. apply list_elem_of_lookup. eauto. }
    assert (q < p)%nat as Hqp by lia.
    by destruct (ranked_order text q p _ _ _ _ Hqp Hq Hp).
  - intros text' ->. by rewrite slice0_take by lia.
Qed.

Lemma extractKeywords_spec_witness :
  occurrences "dog" (words "The fox and the dog; the FOX!")
  ≤ occurrences "fox" (words "The fox and the dog; the FOX!").
Proof.
  apply (extractKeywords_spec "The fox and the dog; the FOX!") with 0%nat 1%nat;
    [lia|reflexivity|reflexivity].
Defined.

(** ** The service *)

Section ServiceFacts.
Import Js RagUtils RagService Spec.

Lemma bind_eval {A B} (m : M A) (f : A → M B) this :
  (m ≫= f) this
  = match m this with
    | (Normal x, this') => f x this'
    | (Throw e, this') => (Throw e, this')
    end.
Proof. done. Qed.

(** Runs the state-passing primitives of a method body. *)
Ltac run_M :=
  repeat (progress (rewrite ?bind_eval;
    cbn [getThis lift throw store allocate chunkMapSet setChunks setSystemPrompt
         setIsInitialized mret M_ret objects chunks isInitialized systemPrompt
         chunkMap])).

Lemma enhanceAndRegister_eval c this :
  enhanceAndRegister c this
  = (Normal (length (objects this)),
     {| objects := objects this ++ [enhance c];
        chunks := chunks this;
        isInitialized := isInitialized this;
        systemPrompt := systemPrompt this;
        chunkMap := <[id c := length (objects this)]> (chunkMap this) |}).
Proof. done. Qed.

Lemma mapM_enhanceAndRegister kcs this :
  mapM enhanceAndRegister kcs this
  = (Normal (seq (length (objects this)) (length kcs)),
     {| objects := objects this ++ map enhance kcs;
        chunks := chunks this;
        isInitialized := isInitialized this;
        systemPrompt := systemPrompt this;
        chunkMap := register (length (objects this)) kcs (chunkMap this) |}).
Proof.
  revert this. induction kcs as [|c kcs IH]; intros this.
  - cbn. rewrite app_nil_r. by destruct this.
  - cbn [mapM]. rewrite bind_eval, enhanceAndRegister_eval, bind_eval, IH. run_M.
    rewrite length_app, <- app_assoc. cbn [length app map].
    by replace (length (objects this) + 1)%nat with (S (length (objects this))) by lia.
Qed.

Lemma cosineSimilarity_same_length a b :
  length a = length b → cosineSimilarity a b = Normal (cosine a b).
Proof.
  intros H. unfold cosineSimilarity. by rewrite H, Nat.eqb_refl.
Qed.

Lemma foldC_relate c others acc :
  Forall (λ o, length (embedding o) = length (embedding c)) others →
  foldC (relate c) acc others = Normal (acc ++ related c others).
Proof.
  intros Hl. revert acc. induction Hl as [|o others Ho Hl IH]; intros acc.
  - cbn. by rewrite app_nil_r.
  - cbn [foldC]. unfold related in *. cbn [List.filter].
    unfold relate at 1. unfold inferredRelation at 1, similarityExceeds.
    rewrite cosineSimilarity_same_length by done.
    destruct (String.eqb (id c) (id o)); cbn [negb andb]; [apply IH|].
    destruct (_ || _); [|apply IH].
    rewrite IH. cbn. by rewrite <- app_assoc.
Qed.

Lemma inferredRelation_features c c' o o' :
  features c = features c' → features o = features o' →
  inferredRelation c o = inferredRelation c' o'.
Proof.
  unfold features, inferredRelation, keywordOverlap. intros [= -> -> -> ->] [= -> -> -> ->].
  done.
Qed.

Lemma related_features c c' l l' :
  features c = features c' → map features l = map features l' →
  related c l = related c' l'.
Proof.
  intros Hc. revert l'. unfold related.
  induction l as [|o l IH]; intros [|o' l'] Hl; try discriminate; [done|].
  cbn [map] in Hl.
  pose proof (f_equal (hd (features o)) Hl) as Ho.
  apply (f_equal (@tl _)) in Hl. cbn [hd tl] in Ho, Hl.
  cbn [List.filter]. rewrite (inferredRelation_features c c' o o') by done.
  destruct (inferredRelation c' o'); cbn [map]; [f_equal|]; auto.
  unfold features in Ho. congruence.
Qed.

Lemma infer_features all c : features (infer all c) = features c.
Proof. unfold infer. by destruct (hasRelatedChunks c). Qed.

Lemma map_deref_seq this :
  map (deref this) (seq 0 (length (objects this))) = objects this.
Proof.
  apply list_eq. intros i. rewrite list_lookup_fmap.
  destruct (objects this !! i) as [c|] eqn:Hi.
  - rewrite lookup_seq_lt by eauto using lookup_lt_Some. cbn.
    unfold deref. by erewrite list_lookup_total_correct.
  - apply lookup_ge_None in Hi. by rewrite lookup_seq_ge.
Qed.

(** The outer loop of the inference: the chunks [done] have been visited,
    the chunks [todo] are left to visit. *)
Lemma forM_inferOne all todo : ∀ done this,
  objects this = done ++ todo →
  chunks this = seq 0 (length (done ++ todo)) →
  map features (done ++ todo) = map features all →
  Forall (λ o, length (embedding o) = 26%nat) all →
  forM inferOne (seq (length done) (length todo)) this
  = (Normal (),
     {| objects := done ++ map (infer all) todo;
        chunks := chunks this;
        isInitialized := isInitialized this;
        systemPrompt := systemPrompt this;
        chunkMap := chunkMap this |}).
Proof.
  induction todo as [|c todo IH]; intros done this Hobj Hchunks Hfeat Hall.
  - cbn. rewrite <- Hobj. by destruct this.
  - cbn [length seq forM]. rewrite bind_eval. unfold inferOne at 1.
    rewrite bind_eval. cbn [getThis].
    assert (Hc : deref this (length done) = c).
    { unfold deref. rewrite Hobj. apply list_lookup_total_middle. done. }
    rewrite Hc.
    assert (Hlen : Forall (λ o, length (embedding o) = 26%nat) (done ++ c :: todo)).
    { rewrite Forall_forall in Hall |- *. intros o Ho.
      apply (list_elem_of_fmap_2 features) in Ho.
      change (features o ∈ map features (done ++ c :: todo)) in Ho.
      rewrite Hfeat in Ho.
      apply list_elem_of_fmap in Ho as (o' & Heq & Ho').
      unfold features in Heq. injection Heq as _ _ _ ->. auto. }
    destruct (hasRelatedChunks c) eqn:Hrel.
    + cbn [mret M_ret].
      replace (S (length done)) with (length (done ++ [c]))
        by (rewrite length_app; cbn; lia).
      rewrite IH.
      * cbn. unfold infer at 2. rewrite Hrel. by rewrite <- app_assoc.
      * by rewrite <- app_assoc.
      * by rewrite <- app_assoc.
      * by rewrite <- app_assoc.
      * done.
    + rewrite bind_eval. unfold lift.
      assert (Hothers : map (deref this) (chunks this) = done ++ c :: todo).
      { rewrite Hchunks, <- Hobj. apply map_deref_seq. }
      rewrite Hothers, foldC_relate; cycle 1.
      { eapply Forall_impl; [exact Hlen|]. cbn. intros o ->.
        rewrite Forall_forall in Hlen. symmetry. apply Hlen. set_solver. }
      cbn [app store].
      rewrite (related_features c c _ all) by done.
      set (c' := withRelatedChunks c (related c all)).
      assert (Hc' : infer all c = c') by (unfold infer; by rewrite Hrel).
      assert (Hins : <[length done := c']> (objects this) = (done ++ [c']) ++ todo).
      { rewrite Hobj, <- app_assoc. cbn.
        replace (length done) with (length done + 0)%nat at 1 by lia.
        by rewrite insert_app_r. }
      rewrite Hins.
      replace (S (length done)) with (length (done ++ [c']))
        by (rewrite length_app; cbn; lia).
      rewrite IH.
      * cbn. rewrite Hc'. by rewrite <- app_assoc.
      * done.
      * cbn [chunks]. rewrite Hchunks. f_equal. rewrite !length_app. cbn. lia.
      * rewrite <- Hfeat, <- app_assoc. cbn [app]. rewrite !map_app. cbn [map].
        by rewrite <- Hc', infer_features.
      * done.
Qed.

Lemma enhance_embedding_length kcs :
  Forall (λ o, length (embedding o) = 26%nat) (map enhance kcs).
Proof.
  apply Forall_forall. intros o (c & -> & _)%list_elem_of_fmap.
  apply createSimpleEmbedding_length.
Qed.

(** [initialize] on a new instance. *)
Lemma initialize_new kcs prompt :
  initialize kcs prompt newRAGService = (Normal (), ready kcs prompt).
Proof.
  unfold initialize. run_M. cbn [newRAGService isInitialized chunks length Nat.ltb Nat.leb andb].
  run_M. rewrite mapM_enhanceAndRegister. run_M.
  unfold inferChunkRelationships. run_M.
  cbn [app length].
  rewrite <- (length_map enhance kcs).
  rewrite (forM_inferOne (map enhance kcs) (map enhance kcs) []).
  - run_M. unfold ready. by rewrite length_map.
  - done.
  - cbn. by rewrite !length_map.
  - done.
  - apply enhance_embedding_length.
Qed.

Lemma initialize_initialized this kcs prompt :
  isInitialized this = true → initialize kcs prompt this = (Normal (), this).
Proof.
  intros Hthis. unfold initialize. rewrite bind_eval. cbn [getThis].
  by rewrite Hthis.
Qed.

Lemma getRelevantContext_state this query conversationHistory maxChunks :
  (getRelevantContext query conversationHistory maxChunks this).2 = this.
Proof.
  unfold getRelevantContext. rewrite bind_eval. cbn [getThis].
  destruct (isInitialized this); cbn [negb]; [|done].
  rewrite bind_eval. unfold lift.
  by destruct (boostedSimilarities this _).
Qed.

(** An instance is new until [initialize] has built its corpus, and is not
    changed afterwards. *)
Lemma reachable_inv this :
  reachable this →
  (isInitialized this = false ∧ this = newRAGService) ∨
  (isInitialized this = true ∧ ∃ kcs prompt, this = ready kcs prompt).
Proof.
  induction 1 as [|this kcs prompt _ IH|this q h m _ IH| | |]; try done.
  - by left.
  - right. destruct IH as [[_ ->]|[Hthis IH]].
    + rewrite initialize_new. split; [done|]. by exists kcs, prompt.
    + by rewrite initialize_initialized.
  - by rewrite getRelevantContext_state.
Qed.
End ServiceFacts.

Section QueryFacts.
Import Js RagUtils RagService Spec.

Lemma chunksToProcess_take this : chunksToProcess this = take 50 (chunks this).
Proof.
  unfold chunksToProcess. destruct (Nat.ltb_spec 50 (length (chunks this))).
  - by rewrite slice0_take.
  - by rewrite take_ge.
Qed.

Lemma mapC_similarity this queryEmbedding refs :
  Forall (λ r, length (embedding (deref this r)) = length queryEmbedding) refs →
  mapC (similarity this queryEmbedding) refs
  = Normal (map (λ r, (r, cosine queryEmbedding (embedding (deref this r)))) refs).
Proof.
  induction 1 as [|r refs Hr _ IH]; [done|].
  cbn [mapC map]. unfold similarity at 1.
  rewrite cosineSimilarity_same_length by done. by rewrite IH.
Qed.

Lemma corpus_ready kcs prompt :
  corpus (ready kcs prompt) = map (infer (map enhance kcs)) (map enhance kcs).
Proof.
  pose proof (map_deref_seq (ready kcs prompt)) as H.
  cbn [ready objects] in H. by rewrite !length_map in H.
Qed.

Lemma infer_embedding all c : embedding (infer all c) = embedding c.
Proof. unfold infer. by destruct (hasRelatedChunks c). Qed.

Lemma ready_embedding_length kcs prompt r :
  r ∈ chunks (ready kcs prompt) →
  length (embedding (deref (ready kcs prompt) r)) = 26%nat.
Proof.
  intros Hr.
  assert (Hin : deref (ready kcs prompt) r ∈ corpus (ready kcs prompt)).
  { unfold corpus. by apply list_elem_of_fmap_2. }
  rewrite corpus_ready in Hin.
  apply list_elem_of_fmap in Hin as (c & -> & (a & -> & _)%list_elem_of_fmap).
  rewrite infer_embedding. apply createSimpleEmbedding_length.
Qed.

(** The scores of a service that [initialize] has made ready. *)
Lemma boostedSimilarities_ready kcs prompt combinedQuery :
  let this := ready kcs prompt in
  boostedSimilarities this combinedQuery
  = Normal (map (λ r, boost this combinedQuery (extractKeywords combinedQuery)
                        (r, cosine (createSimpleEmbedding combinedQuery)
                                   (embedding (deref this r))))
                (take 50 (chunks this))).
Proof.
  intros this. unfold boostedSimilarities.
  rewrite chunksToProcess_take, mapC_similarity.
  - by rewrite map_map.
  - apply Forall_forall. intros r Hr%elem_of_take.
    destruct Hr as (i & Hi & _).
    rewrite createSimpleEmbedding_length.
    apply ready_embedding_length, list_elem_of_lookup. eauto.
Qed.

Lemma getRelevantContext_ready kcs prompt query conversationHistory maxChunks similarities :
  boostedSimilarities (ready kcs prompt) (query +:+ " " +:+ conversationHistory)
  = Normal similarities →
  getRelevantContext query conversationHistory maxChunks (ready kcs prompt)
  = (Normal (assemble (ready kcs prompt) maxChunks similarities), ready kcs prompt).
Proof.
  intros Hsims. unfold getRelevantContext. rewrite bind_eval.
  cbn [getThis ready isInitialized negb]. rewrite bind_eval. unfold lift.
  by rewrite Hsims.
Qed.
End QueryFacts.

Section ExpansionFacts.
Import Js RagUtils RagService Spec.

(** What a [Set] filled by [add] holds: every element once, in the order in
    which the elements were first added. *)
Lemma foldl_setAdd_inv (l : list string) :
  let s := foldl setAdd [] l in
  NoDup s ∧
  (∀ k, k ∈ s ↔ k ∈ l) ∧
  (∀ a b, precedes s a b → ∃ pre rest, l = pre ++ a :: rest ∧ b ∉ pre).
Proof.
  induction l as [|x l IH] using rev_ind; cbn.
  - split; [constructor|]. split; [done|].
    intros a b (l1 & ? & ? & H). by destruct l1.
  - rewrite foldl_snoc. cbn in IH. destruct IH as (Hnd & Hin & Hord).
    set (s := foldl setAdd [] l) in *. unfold setAdd at 1 2 3.
    destruct (arrayIncludes s x) eqn:Hx.
    + apply arrayIncludes_spec in Hx. repeat split; [done|..].
      * intros Hk. apply elem_of_app. left. by apply Hin.
      * intros [Hk| ->%list_elem_of_singleton]%elem_of_app; [by apply Hin|done].
      * intros a b Hab. destruct (Hord a b Hab) as (pre & rest & -> & Hb).
        exists pre, (rest ++ [x]). by rewrite <- app_assoc.
    + apply arrayIncludes_false in Hx. repeat split.
      * apply NoDup_app. split; [done|]. split; [|apply NoDup_singleton].
        intros y Hy ->%list_elem_of_singleton. done.
      * rewrite !elem_of_app, Hin. tauto.
      * rewrite !elem_of_app, Hin. tauto.
      * intros a b Hab.
        apply precedes_snoc_inv in Hab as [Hab|[Ha ->]].
        -- destruct (Hord a b Hab) as (pre & rest & -> & Hb).
           exists pre, (rest ++ [x]). by rewrite <- app_assoc.
        -- apply Hin, list_elem_of_split in Ha as (pre & rest & ->).
           exists pre, (rest ++ [x]). rewrite <- app_assoc. split; [done|].
           intros Hpre. apply Hx, Hin, elem_of_app. by left.
Qed.

Lemma collectRelated_flat top ids c :
  collectRelated top ids c
  = foldl setAdd ids
      (List.filter (λ k, negb (arrayIncludes top k)) (default [] (relatedChunks c))).
Proof.
  unfold collectRelated. destruct (relatedChunks c) as [related|]; [|done].
  change (default [] (Some related)) with related.
  revert ids. induction related as [|k related IH]; intros ids; [done|].
  cbn [foldl List.filter]. rewrite IH. by destruct (negb (arrayIncludes top k)).
Qed.

Lemma foldl_collectRelated this top primary ids :
  foldl (λ ids r, collectRelated top ids (deref this r)) ids primary
  = foldl setAdd ids
      (List.filter (λ k, negb (arrayIncludes top k)) (referencedIds this primary)).
Proof.
  unfold referencedIds. revert ids.
  induction primary as [|r primary IH]; intros ids; [done|].
  cbn [foldl map]. rewrite concat_cons, List.filter_app, foldl_app, IH.
  by rewrite collectRelated_flat.
Qed.

Lemma relatedChunkIdsOf_flat this primary :
  relatedChunkIdsOf this primary
  = foldl setAdd []
      (List.filter
         (λ k, negb (arrayIncludes (map (λ r, id (deref this r)) primary) k))
         (referencedIds this primary)).
Proof. apply foldl_collectRelated. Qed.

Lemma register_lookup kcs : ∀ base m k r,
  register base kcs m !! k = Some r →
  m !! k = Some r ∨ ∃ c, kcs !! (r - base)%nat = Some c ∧ (base ≤ r)%nat ∧ id c = k.
Proof.
  induction kcs as [|c kcs IH]; intros base m k r Hr; [by left|].
  cbn [register] in Hr. apply IH in Hr as [Hr|(c' & Hc' & Hle & Hid)].
  - destruct (decide (id c = k)) as [<-|Hne].
    + rewrite lookup_insert_eq in Hr. injection Hr as <-.
      right. exists c. by rewrite Nat.sub_diag.
    + rewrite lookup_insert_ne in Hr by done. by left.
  - right. exists c'. split; [|split; [lia|done]].
    replace (r - base)%nat with (S (r - S base)) by lia. done.
Qed.

(** The lookup map of a ready service resolves an identifier to a chunk that
    has it. *)
Lemma ready_chunkMap kcs prompt k r :
  chunkMap (ready kcs prompt) !! k = Some r → id (deref (ready kcs prompt) r) = k.
Proof.
  cbn [ready chunkMap]. intros [Hr|(c & Hc & _ & <-)]%register_lookup.
  - by rewrite lookup_empty in Hr.
  - rewrite Nat.sub_0_r in Hc. unfold deref. cbn [ready objects].
    erewrite list_lookup_total_correct.
    + apply (f_equal fst (f_equal fst (f_equal fst
        (infer_features (map enhance kcs) (enhance c))))).
    + change (map (infer (map enhance kcs)) (map enhance kcs))
        with (infer (map enhance kcs) <$> (enhance <$> kcs)).
      by rewrite !list_lookup_fmap, Hc.
Qed.

Lemma formatChunk_section top c :
  formatChunk top c = section (negb (arrayIncludes top (id c))) c.
Proof. done. Qed.

Lemma take_min_length {A} (l : list A) n : take (Nat.min (length l) n) l = take n l.
Proof.
  destruct (Nat.le_gt_cases n (length l)).
  - by rewrite Nat.min_r.
  - rewrite Nat.min_l by lia. rewrite !take_ge; [done|lia..].
Qed.
End ExpansionFacts.

(** ** Statements about the service *)

Import RagService Examples.

(** C2.  On an initialized instance whose corpus has [n] chunks, the
    candidates that [getRelevantContext] scores are the first [min n 50]
    chunks of the corpus, in the order of the corpus, and the score of a
    candidate is the cosine similarity of the signature of the combined query
    and the signature of the chunk, plus 0.15 times the number of curated
    keywords of the chunk that the combined query contains when both are
    lowercased, plus 0.05 times the number of auto-keywords of the chunk that
    are among the keywords extracted from the combined query; these scores are
    the ones the result is assembled from. *)
Theorem candidate_scores (this : RAGService) (query conversationHistory : string)
    (maxChunks : Z) :
  reachable this → isInitialized this = true →
  let combinedQuery := query +:+ " " +:+ conversationHistory in
  ∃ similarities,
    boostedSimilarities this combinedQuery = Normal similarities ∧
    (getRelevantContext query conversationHistory maxChunks this).1
    = Normal (assemble this maxChunks similarities) ∧
    map (λ item : scored, deref this item.1) similarities
    = take (Nat.min (length (corpus this)) 50) (corpus this) ∧
    ∀ item, item ∈ similarities →
      let c := deref this item.1 in
      let manual := List.filter
        (λ keyword, includes (toLowerCase combinedQuery) (toLowerCase keyword))
        (keywords c) in
      let auto := List.filter
        (λ keyword, arrayIncludes (extractKeywords combinedQuery) keyword)
        (autoKeywords c) in
      ∃ base,
        cosineSimilarity (createSimpleEmbedding combinedQuery) (embedding c) = Normal base ∧
        item.2 = (base + (ofZ (Z.of_nat (length manual)) * 0.15
                          + ofZ (Z.of_nat (length auto)) * 0.05))%float.
Proof.
  intros Hreach Hthis combinedQuery.
  destruct (reachable_inv this Hreach) as [[? _]|[_ (kcs & prompt & ->)]];
    [congruence|].
  eexists. split; [apply boostedSimilarities_ready|]. split; [|split].
  - by rewrite (getRelevantContext_ready _ _ _ _ _ _
                  (boostedSimilarities_ready kcs prompt combinedQuery)).
  - rewrite map_map. cbn [boost fst].
    assert (Hlen : length (corpus (ready kcs prompt)) = length kcs)
      by (by rewrite corpus_ready, !length_map).
    rewrite Hlen. unfold corpus.
    rewrite <- (firstn_map (deref (ready kcs prompt))).
    change firstn with (@take EnhancedKnowledgeChunk).
    rewrite <- (take_take _ (length kcs) 50).
    symmetry. apply take_ge.
    rewrite length_take, length_map. cbn [ready chunks]. rewrite length_seq. lia.
  - intros item (r & -> & Hr)%list_elem_of_fmap. cbn [boost fst snd].
    eexists. split; [|reflexivity].
    apply cosineSimilarity_same_length.
    rewrite createSimpleEmbedding_length. symmetry.
    apply ready_embedding_length. apply elem_of_take in Hr as (i & Hi & _).
    apply list_elem_of_lookup. eauto.
Qed.

Lemma candidate_scores_witness :
  ∃ similarities,
    boostedSimilarities (initialize [scenarioX; scenarioY] "" newRAGService).2
      "How do I get a refund on my invoice? " = Normal similarities ∧
    map (λ item : scored, deref (initialize [scenarioX; scenarioY] "" newRAGService).2 item.1)
      similarities
    = take (Nat.min (length (corpus (initialize [scenarioX; scenarioY] "" newRAGService).2)) 50)
        (corpus (initialize [scenarioX; scenarioY] "" newRAGService).2).
Proof.
  destruct (candidate_scores (initialize [scenarioX; scenarioY] "" newRAGService).2
              "How do I get a refund on my invoice?" "" 1)
    as (similarities & Hs & _ & Hpool & _).
  - apply reachable_initialize, reachable_new.
  - vm_compute. reflexivity.
  - exists similarities. split; [exact Hs|exact Hpool].
Defined.

(** C3, as the code has it.  After initialization the corpus has the chunks
    of the knowledge base, in their order, each with its signature and its
    auto-keywords.  A chunk [a] with an empty or absent curated related-set
    gets the identifiers of the chunks [b] of the corpus, in corpus order,
    whose identifier differs from the one of [a] and for which at least 2
    entries of the list of the curated keywords followed by the auto-keywords
    of [a] (an entry that is in both parts counts twice) occur among the
    curated or the auto-keywords of [b], or whose signature has a cosine
    similarity above 0.6 with the one of [a]; a chunk with a non-empty curated
    related-set keeps it. *)
Theorem inferred_relations (kcs : list KnowledgeChunk) (prompt : string) :
  let this := (initialize kcs prompt newRAGService).2 in
  length (corpus this) = length kcs ∧
  ∀ i a, kcs !! i = Some a →
    ∃ a' : EnhancedKnowledgeChunk,
      corpus this !! i = Some a' ∧
      id a' = id a ∧ title a' = title a ∧ content a' = content a ∧
      keywords a' = keywords a ∧
      embedding a' = embedding (enhance a) ∧
      autoKeywords a' = autoKeywords (enhance a) ∧
      relatedChunks a'
      = if hasRelatedChunks a then relatedChunks a
        else Some (map (λ b : EnhancedKnowledgeChunk, id b)
                     (List.filter (inferredRelation (enhance a)) (map enhance kcs))).
Proof.
  intros this. unfold this. rewrite initialize_new. cbn [snd].
  rewrite corpus_ready. split; [by rewrite !length_map|].
  intros i a Hi. exists (infer (map enhance kcs) (enhance a)). split.
  - change (map (infer (map enhance kcs)) (map enhance kcs))
      with (infer (map enhance kcs) <$> (enhance <$> kcs)).
    by rewrite !list_lookup_fmap, Hi.
  - unfold infer. change (hasRelatedChunks (enhance a)) with (hasRelatedChunks a).
    by destruct (hasRelatedChunks a).
Qed.

Lemma inferred_relations_witness :
  ∃ a' : EnhancedKnowledgeChunk,
    corpus (initialize [billing; support] "" newRAGService).2 !! 0%nat = Some a' ∧
    relatedChunks a' = Some ["support"].
Proof.
  destruct (inferred_relations [billing; support] "") as [_ H].
  destruct (H 0%nat billing eq_refl) as (a' & Ha & _ & _ & _ & _ & _ & _ & Hr).
  exists a'. split; [exact Ha|]. rewrite Hr. vm_compute. reflexivity.
Defined.

(** C3, as the spec words it, fails: the chunk [billing] has the keyword
    "billing" both as a curated and as an extracted keyword and shares just
    this keyword with the chunk [support], whose signature is orthogonal to
    its own.  The intersection of the two keyword sets has one element and the
    similarity is 0, but the inference relates [billing] to [support]. *)
Lemma inferred_relations_not_by_sets :
  hasRelatedChunks billing = false ∧
  setOverlap (enhance billing) (enhance support) = 1 ∧
  cosineSimilarity (embedding (enhance billing)) (embedding (enhance support))
  = Normal 0%float ∧
  map (λ b : EnhancedKnowledgeChunk, id b)
    (List.filter (relatedBySets (enhance billing)) (map enhance [billing; support]))
  = [] ∧
  (λ a : EnhancedKnowledgeChunk, relatedChunks a)
    <$> corpus (initialize [billing; support] "" newRAGService).2 !! 0%nat
  = Some (Some ["support"]).
Proof. vm_compute. repeat split. Qed.

(** C4 fails on the code: the similarity of the signature of a text without
    letters, which is the zero vector, and any signature is 0/0, a NaN, and
    not the score 0. *)
Lemma cosineSimilarity_zero_norm :
  createSimpleEmbedding "" = replicate 26 0%float ∧
  cosineSimilarity (createSimpleEmbedding "") (createSimpleEmbedding "refund")
  = Normal nan ∧
  cosineSimilarity (createSimpleEmbedding "") (createSimpleEmbedding "")
  = Normal nan ∧
  Normal nan ≠ Normal 0%float.
Proof.
  split; [vm_compute; reflexivity|].
  split; [vm_compute; reflexivity|].
  split; [vm_compute; reflexivity|].
  intros H.
  apply (f_equal (λ c, match c with Normal s => is_nan s | Throw _ => false end)) in H.
  vm_compute in H. discriminate.
Qed.

(** C5.  On an instance that is not initialized [getRelevantContext] throws
    the error "RAG Service not initialized", whatever its arguments;
    [initialize] does not throw and leaves the instance initialized; and on
    an initialized instance [getRelevantContext] returns a text for every
    query, history and [maxChunks], the empty text when the corpus is
    empty. *)
Theorem getRelevantContext_errors (this : RAGService)
    (query conversationHistory : string) (maxChunks : Z) :
  (isInitialized this = false →
     (getRelevantContext query conversationHistory maxChunks this).1
     = Throw (Error "RAG Service not initialized")) ∧
  (reachable this →
     (∀ kcs prompt,
        (initialize kcs prompt this).1 = Normal () ∧
        isInitialized (initialize kcs prompt this).2 = true) ∧
     (isInitialized this = true →
        ∃ context,
          (getRelevantContext query conversationHistory maxChunks this).1
          = Normal context ∧
          (corpus this = [] → context = ""))).
Proof.
  split; [|intros Hreach; split].
  - intros Hthis. unfold getRelevantContext. rewrite bind_eval.
    cbn [getThis]. by rewrite Hthis.
  - intros kcs prompt.
    destruct (reachable_inv this Hreach) as [[_ ->]|[Hthis _]].
    + by rewrite initialize_new.
    + by rewrite initialize_initialized.
  - intros Hthis.
    destruct (reachable_inv this Hreach) as [[? _]|[_ (kcs & prompt & ->)]];
      [congruence|].
    rewrite (getRelevantContext_ready _ _ _ _ _ _
               (boostedSimilarities_ready kcs prompt _)).
    eexists. split; [reflexivity|]. intros Hempty.
    apply (f_equal length) in Hempty.
    rewrite corpus_ready, !length_map in Hempty.
    destruct kcs; [|discriminate]. destruct maxChunks; reflexivity.
Qed.

Lemma getRelevantContext_errors_witness :
  (getRelevantContext "refund" "" 3 newRAGService).1
  = Throw (Error "RAG Service not initialized") ∧
  ∃ context,
    (getRelevantContext "" "" 3 (initialize [] "" newRAGService).2).1
    = Normal context ∧
    (corpus (initialize [] "" newRAGService).2 = [] → context = "").
Proof.
  split.
  - apply (getRelevantContext_errors newRAGService "refund" "" 3). reflexivity.
  - apply (getRelevantContext_errors (initialize [] "" newRAGService).2 "" "" 3).
    + apply reachable_initialize, reachable_new.
    + reflexivity.
Defined.

(** C8.  [getRelevantContext] leaves the instance as it was: the chunk
    objects, the array of the corpus, the lookup map, the system prompt and
    the flag are the same after the call, whether it returns or throws. *)
Theorem getRelevantContext_frame (this : RAGService)
    (query conversationHistory : string) (maxChunks : Z) :
  (getRelevantContext query conversationHistory maxChunks this).2 = this.
Proof.
  unfold getRelevantContext. rewrite bind_eval. cbn [getThis].
  destruct (isInitialized this) eqn:Hthis; cbn [negb].
  - rewrite bind_eval. unfold lift.
    destruct (boostedSimilarities this _) as [similarities|e]; reflexivity.
  - reflexivity.
Qed.

(** C9.  On an initialized instance [initialize] returns at once, whatever
    chunks and prompt it is given: the instance is unchanged. *)
Theorem initialize_ready_noop (this : RAGService) (kcs : list KnowledgeChunk)
    (prompt : string) :
  isInitialized this = true →
  initialize kcs prompt this = (Normal (), this).
Proof.
  intros Hthis. unfold initialize. rewrite bind_eval. cbn [getThis].
  rewrite Hthis. reflexivity.
Qed.

Lemma initialize_ready_noop_witness :
  initialize [billing] "another prompt" (initialize [scenarioX; scenarioY] "prompt" newRAGService).2
  = (Normal (), (initialize [scenarioX; scenarioY] "prompt" newRAGService).2).
Proof.
  apply (initialize_ready_noop (initialize [scenarioX; scenarioY] "prompt" newRAGService).2).
  vm_compute. reflexivity.
Defined.

(** C10.  As long as an instance is not initialized, [getSystemPrompt]
    returns the empty string and [getChunkIds] the empty array; neither
    throws nor changes the instance, while [getRelevantContext] throws. *)
Theorem uninitialized_reads (this : RAGService) :
  reachable this → isInitialized this = false →
  getSystemPrompt this = (Normal "", this) ∧
  getChunkIds this = (Normal [], this) ∧
  ∀ query conversationHistory maxChunks,
    getRelevantContext query conversationHistory maxChunks this
    = (Throw (Error "RAG Service not initialized"), this).
Proof.
  intros Hreach Hthis.
  destruct (reachable_inv this Hreach) as [[_ ->]|[? _]]; [|congruence].
  split; [reflexivity|]. split; [reflexivity|].
  intros query conversationHistory maxChunks. reflexivity.
Qed.

Lemma uninitialized_reads_witness :
  getSystemPrompt newRAGService = (Normal "", newRAGService) ∧
  getChunkIds newRAGService = (Normal [], newRAGService).
Proof.
  destruct (uninitialized_reads newRAGService) as (Hprompt & Hids & _).
  - apply reachable_new.
  - reflexivity.
  - split; [exact Hprompt|exact Hids].
Defined.

(** C1 fails on the code when a score is a NaN.  The chunk [year] has no
    letter and its score is a NaN, for which the comparator answers NaN.  It
    stands between [login] and [invoices], so that every comparison of
    neighbours is undecided and a stable sort that starts from the
    neighbours, as the one of the model and the one of Node.js, leaves the
    array as it is: [login] stays ahead of [invoices], whose score is higher.
    With [maxChunks] 1 the primary result is [login], and [invoices] comes
    only as related information.  Lemma [getRelevantContext_ranked] below
    gives the ranking when the comparator is consistent. *)
Lemma getRelevantContext_nan_ranking :
  let this := (initialize [login; year; invoices] "" newRAGService).2 in
  (∃ s0 s1 s2,
     boostedSimilarities this "refund invoice " = Normal [(0, s0); (1, s1); (2, s2)]%nat ∧
     is_nan s1 = true ∧ (s0 <? s2)%float = true) ∧
  (getRelevantContext "refund invoice" "" 1 this).1
  = Normal ("## Login" +:+ newline +:+ newline +:+ "password reset account"
            +:+ separator
            +:+ "## Billing (Related Information)" +:+ newline +:+ newline
            +:+ "invoice payment refund").
Proof.
  split.
  - eexists _, _, _. split; [vm_compute; reflexivity|]. split; vm_compute; reflexivity.
  - vm_compute. reflexivity.
Qed.

(** The ranking and the expansion when the comparator is consistent on the
    scores, as it is when none of them is a NaN.  For [maxChunks >= 1] the
    text that [getRelevantContext] returns joins, with the separator, the
    sections of the primary results and then the sections of the secondary
    results, marked as related information.  The primary results are the
    first [maxChunks] candidates of a ranking of the boosted candidates in
    which no candidate stands before one of higher score and which keeps the
    order of the corpus between candidates that the comparator does not
    reorder.  The secondary results are the first 2 chunks that the lookup
    map resolves among the identifiers that primary results refer to and
    that are not identifiers of primary results, each taken once, in the
    order in which they are first referred to. *)
Theorem getRelevantContext_ranked (this : RAGService)
    (query conversationHistory : string) (maxChunks : Z)
    (similarities : list scored) :
  reachable this → isInitialized this = true →
  1 ≤ maxChunks →
  boostedSimilarities this (query +:+ " " +:+ conversationHistory) = Normal similarities →
  consistent lowerScore similarities →
  ∃ (ranked : list scored) (relatedIds : list string),
    let primary := map fst (take (Z.to_nat maxChunks) ranked) in
    let primaryIds := map (λ r, id (deref this r)) primary in
    let candidates :=
      List.filter (λ k, negb (arrayIncludes primaryIds k)) (referencedIds this primary) in
    let secondary := take 2 (omap (λ k, chunkMap this !! k) relatedIds) in
    ranked ≡ₚ similarities ∧
    (∀ i j a b, (i < j)%nat → ranked !! i = Some a → ranked !! j = Some b →
       lowerScore a b = false) ∧
    (∀ a b, precedes similarities a b → lowerScore a b = false → precedes ranked a b) ∧
    NoDup relatedIds ∧
    (∀ k, k ∈ relatedIds ↔ k ∈ candidates) ∧
    (∀ a b, precedes relatedIds a b →
       ∃ pre rest, candidates = pre ++ a :: rest ∧ b ∉ pre) ∧
    (length secondary ≤ 2)%nat ∧
    (getRelevantContext query conversationHistory maxChunks this).1
    = Normal (join separator
        (map (λ r, section false (deref this r)) primary
         ++ map (λ r, section true (deref this r)) secondary)).
Proof.
  intros Hreach Hthis Hmax Hsims Hcons.
  destruct (reachable_inv this Hreach) as [[? _]|[_ (kcs & prompt & Hready)]];
    [congruence|].
  exists (sort lowerScore similarities).
  exists (relatedChunkIdsOf this
    (map fst (take (Z.to_nat maxChunks) (sort lowerScore similarities)))).
  cbv zeta.
  set (primary := map fst (take (Z.to_nat maxChunks) (sort lowerScore similarities))).
  set (primaryIds := map (λ r, id (deref this r)) primary).
  set (candidates := List.filter _ (referencedIds this primary)).
  destruct (foldl_setAdd_inv candidates) as (Hnd & Hin & Hord).
  assert (Hids : relatedChunkIdsOf this primary = foldl setAdd [] candidates)
    by apply relatedChunkIdsOf_flat.
  rewrite Hids in *.
  split; [apply sort_perm|].
  split.
  { intros i j a b Hij Hi Hj.
    exact (StronglySorted_lookup (λ a b, lowerScore a b = false) _ i j a b
             (sort_sorted lowerScore similarities Hcons) Hij Hi Hj). }
  split; [apply sort_stable|].
  do 3 (split; [done|]).
  split; [rewrite length_take; lia|].
  assert (Hrun : (getRelevantContext query conversationHistory maxChunks this).1
                 = Normal (assemble this maxChunks similarities)).
  { revert Hsims. rewrite Hready. intros Hsims.
    by rewrite (getRelevantContext_ready _ _ _ _ _ _ Hsims). }
  rewrite Hrun. unfold assemble, topChunksOf, relatedChunksOf.
  rewrite slice0_take by lia. fold primary. fold primaryIds.
  rewrite Hids, take_min_length.
  do 2 f_equal. rewrite map_app. f_equal.
  - apply map_ext_in. intros r Hr. rewrite formatChunk_section.
    replace (arrayIncludes primaryIds (id (deref this r))) with true; [done|].
    symmetry. apply arrayIncludes_spec.
    apply list_elem_of_In in Hr. unfold primaryIds.
    by apply (list_elem_of_fmap_2 (λ r, id (deref this r))).
  - apply map_ext_in. intros r Hr%list_elem_of_In. rewrite formatChunk_section.
    apply subseteq_take in Hr.
    apply list_elem_of_omap in Hr as (k & Hk & Hr).
    rewrite Hready in Hr. apply ready_chunkMap in Hr. rewrite <- Hready in Hr.
    rewrite Hr.
    apply Hin, list_elem_of_In, List.filter_In in Hk as [_ Hk]. by rewrite Hk.
Qed.

Lemma getRelevantContext_ranked_witness :
  ∃ (ranked : list scored) (relatedIds : list string),
    (getRelevantContext "How do I get a refund on my invoice?" "" 1
       (initialize [scenarioX; scenarioY] "" newRAGService).2).1
    = Normal (join separator
        (map (λ r, section false (deref (initialize [scenarioX; scenarioY] "" newRAGService).2 r))
           (map fst (take 1 ranked))
         ++ map (λ r, section true (deref (initialize [scenarioX; scenarioY] "" newRAGService).2 r))
              (take 2 (omap (λ k, chunkMap (initialize [scenarioX; scenarioY] "" newRAGService).2 !! k)
                         relatedIds)))).
Proof.
  destruct (getRelevantContext_ranked (initialize [scenarioX; scenarioY] "" newRAGService).2
              "How do I get a refund on my invoice?" "" 1
              (map (boost (ready [scenarioX; scenarioY] "") "How do I get a refund on my invoice? "
                      (extractKeywords "How do I get a refund on my invoice? "))
                 (map (λ r, (r, cosine
                                  (createSimpleEmbedding
                                     "How do I get a refund on my invoice? ")
                                  (embedding (deref (ready [scenarioX; scenarioY] "") r))))
                    [0; 1]%nat)))
    as (ranked & relatedIds & _ & _ & _ & _ & _ & _ & _ & Hresult).
  - apply reachable_initialize, reachable_new.
  - vm_compute. reflexivity.
  - lia.
  - vm_compute. reflexivity.
  - apply consistentb_spec. vm_compute. reflexivity.
  - exists ranked, relatedIds. exact Hresult.
Defined.

(** The end-to-end scenario of the specification: the chunk "x" is the
    primary result, and the chunk "y" follows as related information. *)
Lemma getRelevantContext_scenario :
  (getRelevantContext "How do I get a refund on my invoice?" "" 1
     (initialize [scenarioX; scenarioY] "" newRAGService).2).1
  = Normal (section false (enhance scenarioX) +:+ separator
            +:+ section true (enhance scenarioY)).
Proof. vm_compute. reflexivity. Qed.

(** ** Further properties of the text utilities *)

Section TextFacts.
Import Js RagUtils RagService Spec Props.

Lemma forallb_ascii (P : ascii → bool) :
  forallb P (map ascii_of_nat (seq 0 256)) = true → ∀ c, P c = true.
Proof.
  intros H c. rewrite forallb_forall in H. apply H.
  rewrite <- (ascii_nat_embedding c). apply in_map, in_seq.
  pose proof (nat_ascii_bounded c). lia.
Qed.

Lemma filter_length_perm {A} (f : A → bool) (l l' : list A) :
  l ≡ₚ l' → length (List.filter f l) = length (List.filter f l').
Proof.
  induction 1 as [|x l l' _ IH|x y l|l l' l'' _ IH1 _ IH2]; cbn.
  - done.
  - destruct (f x); cbn; congruence.
  - destruct (f x), (f y); cbn; done.
  - congruence.
Qed.

Lemma filter_letter_isLetter (i : nat) (cs : list ascii) :
  (i < 26)%nat →
  List.filter (Ascii.eqb (letter i)) (List.filter isLetter cs)
  = List.filter (Ascii.eqb (letter i)) cs.
Proof.
  intros Hi. induction cs as [|c cs IH]; [done|]. cbn.
  destruct (isLetter c) eqn:Hc; cbn; rewrite IH; [done|].
  rewrite letter_eqb by done.
  destruct (charCode c - 97 =? Z.of_nat i) eqn:E; [|done].
  apply Z.eqb_eq in E. unfold isLetter in Hc. lia.
Qed.

Lemma letterCount_letters (i : nat) (text : string) :
  (i < 26)%nat →
  letterCount i (toLowerCase text)
  = Z.of_nat (length (List.filter (Ascii.eqb (letter i)) (letters text))).
Proof.
  intros Hi. unfold letterCount, letters. by rewrite filter_letter_isLetter.
Qed.

Lemma units_rev_app (s1 s2 : string) :
  units (String.rev_app s1 s2) = rev (units s1) ++ units s2.
Proof.
  revert s2. induction s1 as [|c s1 IH]; intros s2; cbn; [done|].
  rewrite IH. cbn. by rewrite <- app_assoc.
Qed.

Lemma splitGo_chars (s : string) : ∀ cur inRun piece c,
  piece ∈ splitGo cur inRun s → c ∈ units piece →
  c ∈ units cur ∨ (c ∈ units s ∧ isWhiteSpace c = false).
Proof.
  induction s as [|a s IH]; intros cur inRun piece c Hp Hc; cbn in Hp.
  - apply list_elem_of_singleton in Hp. subst piece.
    unfold String.rev in Hc. rewrite units_rev_app, app_nil_r in Hc.
    left. by apply list_elem_of_In, in_rev, list_elem_of_In.
  - destruct (isWhiteSpace a) eqn:Ha.
    + assert (Hrest : ∀ cur' inRun', piece ∈ splitGo cur' inRun' s →
                c ∈ units cur' ∨ (c ∈ units (String a s) ∧ isWhiteSpace c = false)).
      { intros cur' inRun' Hp'.
        destruct (IH _ _ _ _ Hp' Hc) as [?|[? ?]]; [by left|right].
        split; [|done]. cbn. by right. }
      destruct inRun.
      * by apply (Hrest cur true).
      * apply elem_of_cons in Hp as [->|Hp].
        -- unfold String.rev in Hc. rewrite units_rev_app, app_nil_r in Hc.
           left. by apply list_elem_of_In, in_rev, list_elem_of_In.
        -- destruct (Hrest EmptyString true Hp) as [Hnil|?]; [|by right].
           cbn in Hnil. by apply elem_of_nil in Hnil.
    + destruct (IH _ _ _ _ Hp Hc) as [Hcur|[? ?]].
      * cbn in Hcur. apply elem_of_cons in Hcur as [->|?]; [|by left].
        right. split; [cbn; by left|done].
      * right. split; [cbn; by right|done].
Qed.

Lemma stripPunctuation_chars (s : string) (c : ascii) :
  c ∈ units (stripPunctuation s) →
  c ∈ units s ∧ isWordChar c || isWhiteSpace c = true.
Proof.
  induction s as [|a s IH]; cbn; [by intros ?%elem_of_nil|].
  destruct (isWordChar a || isWhiteSpace a) eqn:Ha; cbn.
  - intros [->|Hc]%elem_of_cons; [split; [by left|done]|].
    destruct (IH Hc). split; [by right|done].
  - intros Hc. destruct (IH Hc). split; [by right|done].
Qed.

Lemma toLowerCase_chars (s : string) (c : ascii) :
  c ∈ units (toLowerCase s) → ∃ c0, c0 ∈ units s ∧ c = toLowerCaseUnit c0.
Proof.
  induction s as [|a s IH]; cbn; [by intros ?%elem_of_nil|].
  intros [->|Hc]%elem_of_cons.
  - exists a. split; [by left|done].
  - destruct (IH Hc) as (c0 & ? & ?). exists c0. split; [by right|done].
Qed.

Lemma lowered_word_char (c0 : ascii) :
  isWhiteSpace (toLowerCaseUnit c0) = false →
  isWordChar (toLowerCaseUnit c0) || isWhiteSpace (toLowerCaseUnit c0) = true →
  isKeywordChar (toLowerCaseUnit c0) = true.
Proof.
  intros H1 H2.
  pose proof (forallb_ascii
    (λ c0, implb (negb (isWhiteSpace (toLowerCaseUnit c0))
                  && (isWordChar (toLowerCaseUnit c0)
                      || isWhiteSpace (toLowerCaseUnit c0)))
                 (isKeywordChar (toLowerCaseUnit c0)))) as Hall.
  specialize (Hall ltac:(vm_compute; reflexivity) c0). cbv beta in Hall.
  rewrite H2, H1 in Hall. exact Hall.
Qed.

Lemma words_chars (text w : string) (c : ascii) :
  w ∈ words text → c ∈ units w → isKeywordChar c = true.
Proof.
  unfold words. intros Hw Hc.
  apply list_elem_of_In, List.filter_In in Hw as [Hw%list_elem_of_In _].
  destruct (splitGo_chars _ _ _ _ _ Hw Hc) as [Hnil|[Hs Hspace]].
  { cbn in Hnil. by apply elem_of_nil in Hnil. }
  apply stripPunctuation_chars in Hs as [Hs Hclass].
  apply toLowerCase_chars in Hs as (c0 & _ & ->).
  by apply lowered_word_char.
Qed.

Lemma wordCounts_NoDup text : NoDup (map fst (wordCounts text)).
Proof. apply (foldl_countWord_inv (words text)). Qed.

Lemma extractKeywords_take text :
  extractKeywords text = take 10 (fst <$> sort lessFrequent (wordCounts text)).
Proof.
  unfold extractKeywords. rewrite slice0_take by lia.
  change (map fst ?l) with (fst <$> l). by rewrite fmap_take.
Qed.

Lemma ranked_keys text w :
  w ∈ fst <$> sort lessFrequent (wordCounts text) ↔ w ∈ words text.
Proof.
  rewrite (sort_perm lessFrequent (wordCounts text)). apply wordCounts_keys.
Qed.

Lemma float_mul_comm (x y : float) : (x * y)%float = (y * x)%float.
Proof.
  apply FloatAxioms.Prim2SF_inj. rewrite !FloatAxioms.mul_spec.
  destruct (FloatOps.Prim2SF x) as [sx|sx| |sx mx ex], (FloatOps.Prim2SF y) as [sy|sy| |sy my ey]; cbn;
    rewrite ?(xorb_comm sx sy), ?(Pos.mul_comm mx my), ?(Z.add_comm ex ey); reflexivity.
Qed.

Lemma foldl_cosineStep_swap (a b : list float) (l : list nat) : ∀ d x y,
  foldl (cosineStep b a) (d, y, x) l
  = (let '(d', x', y') := foldl (cosineStep a b) (d, x, y) l in (d', y', x')).
Proof.
  induction l as [|i l IH]; intros d x y; [done|].
  cbn [foldl cosineStep]. rewrite (float_mul_comm (at_ b i) (at_ a i)). apply IH.
Qed.

Lemma cosine_sym (a b : list float) : length a = length b → cosine a b = cosine b a.
Proof.
  intros Hlen. unfold cosine. rewrite <- Hlen.
  rewrite (foldl_cosineStep_swap a b).
  destruct (foldl (cosineStep a b) _ _) as [[d x] y].
  by rewrite (float_mul_comm (sqrt x) (sqrt y)).
Qed.

End TextFacts.

(** ** Further statements about the text utilities *)

Section TextStatements.
Import Js RagUtils RagService Spec Props.

(** X1.  [extractKeywords] returns each keyword once, every keyword is one
    of the counted tokens of the text, and while fewer than 10 keywords are
    returned every counted token of the text is among them. *)
Theorem extractKeywords_distinct (text : string) :
  let kws := extractKeywords text in
  NoDup kws ∧
  (∀ w, w ∈ kws → w ∈ words text) ∧
  ((length kws < 10)%nat → ∀ w, w ∈ words text → w ∈ kws).
Proof.
  cbv zeta. rewrite extractKeywords_take.
  assert (Hnd : NoDup (fst <$> sort lessFrequent (wordCounts text))).
  { rewrite (sort_perm lessFrequent (wordCounts text)). apply wordCounts_NoDup. }
  split; [|split].
  - eapply sublist_NoDup; [exact Hnd|apply sublist_take].
  - intros w Hw%subseteq_take. by apply ranked_keys.
  - rewrite length_take. intros Hlen w Hw.
    rewrite take_ge by lia. by apply ranked_keys.
Qed.

Lemma extractKeywords_distinct_witness :
  (length (extractKeywords "The fox and the dog; the FOX!") < 10)%nat ∧
  "dog" ∈ extractKeywords "The fox and the dog; the FOX!".
Proof.
  split; [vm_compute; lia|].
  apply (extractKeywords_distinct "The fox and the dog; the FOX!").
  - vm_compute. lia.
  - vm_compute. apply list_elem_of_further, list_elem_of_here.
Defined.

(** X2.  A keyword that [extractKeywords] returns is made of digits,
    lowercase ASCII letters and underscores only. *)
Theorem extractKeywords_alphabet (text w : string) (c : ascii) :
  w ∈ extractKeywords text → c ∈ units w → isKeywordChar c = true.
Proof.
  rewrite extractKeywords_take. intros Hw%subseteq_take Hc.
  apply ranked_keys in Hw. by apply (words_chars text w).
Qed.

Lemma extractKeywords_alphabet_witness :
  isKeywordChar "r" = true.
Proof.
  apply (extractKeywords_alphabet "Cafes: REFUND_2024 refund-policy!" "refund_2024" "r").
  - vm_compute. apply list_elem_of_further, list_elem_of_here.
  - vm_compute. apply list_elem_of_here.
Defined.

(** X3.  The signature of a text depends only on the letters a-z of its
    lowercased form and on how often each occurs: two texts with the same
    letters, in any order and with anything else between them, have the
    same signature. *)
Theorem createSimpleEmbedding_letters (text1 text2 : string) :
  letters text1 ≡ₚ letters text2 →
  createSimpleEmbedding text1 = createSimpleEmbedding text2.
Proof.
  intros Hperm. unfold createSimpleEmbedding. rewrite !buckets_counts.
  assert (Hcounts : map (λ i, letterCount i (toLowerCase text1)) (seq 0 26)
                    = map (λ i, letterCount i (toLowerCase text2)) (seq 0 26)).
  { apply map_ext_in. intros i Hi%in_seq.
    rewrite !letterCount_letters by lia. f_equal. by apply filter_length_perm. }
  by rewrite Hcounts.
Qed.

Lemma createSimpleEmbedding_letters_witness :
  createSimpleEmbedding "Ab, c!" = createSimpleEmbedding "2 CAB".
Proof.
  apply createSimpleEmbedding_letters.
  change (["a"; "b"; "c"]%char ≡ₚ ["c"; "a"; "b"]%char).
  symmetry. apply (Permutation_cons_append ["a"; "b"]%char "c"%char).
Defined.

(** X4.  [cosineSimilarity] is symmetric: exchanging the two vectors gives
    the same result, be it a number, a NaN or the exception. *)
Theorem cosineSimilarity_sym (vecA vecB : list float) :
  cosineSimilarity vecA vecB = cosineSimilarity vecB vecA.
Proof.
  unfold cosineSimilarity. rewrite (Nat.eqb_sym (length vecB)).
  destruct (length vecA =? length vecB)%nat eqn:E; cbn; [|done].
  apply Nat.eqb_eq in E. by rewrite cosine_sym.
Qed.

End TextStatements.

(** ** Further properties of the service *)

Section ServiceShapeFacts.
Import Js RagUtils RagService Spec Props.

Lemma infer_id all c : id (infer all c) = id c.
Proof. exact (f_equal fst (f_equal fst (f_equal fst (infer_features all c)))). Qed.

Lemma ready_deref kcs prompt i c :
  kcs !! i = Some c →
  deref (ready kcs prompt) i = infer (map enhance kcs) (enhance c).
Proof.
  intros Hc. unfold deref. cbn [ready objects].
  apply list_lookup_total_correct.
  change (map (infer (map enhance kcs)) (map enhance kcs))
    with (infer (map enhance kcs) <$> (enhance <$> kcs)).
  by rewrite !list_lookup_fmap, Hc.
Qed.

Lemma ready_chunk_ids kcs prompt :
  map (λ r, id (deref (ready kcs prompt) r)) (chunks (ready kcs prompt)) = map id kcs.
Proof.
  cbn [ready chunks]. apply list_eq. intros i.
  change ((((λ r, id (deref (ready kcs prompt) r)) <$> seq 0 (length kcs)) !! i)
          = (id <$> kcs) !! i).
  rewrite !list_lookup_fmap.
  destruct (kcs !! i) as [c|] eqn:Hc.
  - rewrite lookup_seq_lt by (by eapply lookup_lt_Some). cbn -[deref ready].
    by rewrite (ready_deref kcs prompt i c Hc), infer_id.
  - rewrite lookup_seq_ge by (by apply lookup_ge_None). done.
Qed.

(** The entry of an identifier in the lookup map is the last chunk of the
    knowledge base that has it. *)
Lemma register_last kcs : ∀ base m k,
  (k ∉ map id kcs → register base kcs m !! k = m !! k) ∧
  (k ∈ map id kcs →
     ∃ i c, register base kcs m !! k = Some (base + i)%nat ∧
            kcs !! i = Some c ∧ id c = k ∧
            ∀ j c', kcs !! j = Some c' → id c' = k → (j ≤ i)%nat).
Proof.
  induction kcs as [|c kcs IH]; intros base m k.
  { split; [done|]. cbn. by intros ?%elem_of_nil. }
  cbn [register].
  destruct (IH (S base) (<[id c := base]> m) k) as [IHout IHin].
  destruct (decide (k ∈ map id kcs)) as [Hin|Hout].
  - split; [intros Hk; exfalso; apply Hk; cbn; apply elem_of_cons; by right|]. intros _.
    destruct (IHin Hin) as (i & c' & Hreg & Hi & Hid & Hlast).
    exists (S i), c'. split; [rewrite Hreg; f_equal; lia|].
    split; [done|]. split; [done|].
    intros [|j] c'' Hj Hid''; [lia|]. apply le_n_S. by eapply Hlast.
  - rewrite (IHout Hout). split.
    + intros Hk. apply lookup_insert_ne. intros Heq. apply Hk. cbn.
      apply elem_of_cons. by left.
    + cbn. intros [->|?]%elem_of_cons; [|done].
      exists 0%nat, c. rewrite lookup_insert_eq, Nat.add_0_r.
      do 3 (split; [done|]).
      intros [|j] c' Hj Hid'; [lia|]. exfalso. apply Hout. rewrite <- Hid'.
      change (id c' ∈ id <$> kcs). apply list_elem_of_fmap_2.
      by eapply list_elem_of_lookup_2.
Qed.

Lemma ready_chunkMap_None kcs prompt k :
  chunkMap (ready kcs prompt) !! k = None ↔ k ∉ map id kcs.
Proof.
  cbn [ready chunkMap]. destruct (register_last kcs 0 ∅ k) as [Hout Hin]. split.
  - intros Hnone Hk. destruct (Hin Hk) as (i & c & Hreg & _). congruence.
  - intros Hk. by rewrite (Hout Hk).
Qed.

Lemma ready_chunkMap_last kcs prompt k r :
  chunkMap (ready kcs prompt) !! k = Some r →
  (∃ c, kcs !! r = Some c ∧ id c = k) ∧
  ∀ j c, kcs !! j = Some c → id c = k → (j ≤ r)%nat.
Proof.
  cbn [ready chunkMap]. intros Hr.
  destruct (register_last kcs 0 ∅ k) as [Hout Hin].
  destruct (decide (k ∈ map id kcs)) as [Hk|Hk].
  - destruct (Hin Hk) as (i & c & Hreg & Hi & Hid & Hlast).
    rewrite Hreg in Hr. injection Hr as <-. split; [by exists c|done].
  - rewrite (Hout Hk) in Hr. done.
Qed.

Lemma ready_chunkMap_chunks kcs prompt k r :
  chunkMap (ready kcs prompt) !! k = Some r → r ∈ chunks (ready kcs prompt).
Proof.
  intros [(c & Hc & _) _]%ready_chunkMap_last. cbn [ready chunks].
  apply elem_of_seq. apply lookup_lt_Some in Hc. lia.
Qed.

Lemma related_elem (c : EnhancedKnowledgeChunk) (all : list EnhancedKnowledgeChunk) k :
  k ∈ related c all → k ≠ id c ∧ ∃ o : EnhancedKnowledgeChunk, o ∈ all ∧ id o = k.
Proof.
  unfold related. change (map ?f ?l) with (f <$> l).
  intros (o & -> & Ho)%list_elem_of_fmap.
  apply list_elem_of_In, List.filter_In in Ho as [Ho%list_elem_of_In Hrel].
  split; [|by exists o].
  unfold inferredRelation in Hrel. apply andb_true_iff in Hrel as [Hne _].
  intros Heq. rewrite Heq, String.eqb_refl in Hne. done.
Qed.

Lemma slice0_length {A} (stop : Z) (l : list A) :
  length (slice0 stop l)
  = Z.to_nat (if stop <? 0 then Z.max (Z.of_nat (length l) + stop) 0
              else Z.min stop (Z.of_nat (length l))).
Proof. unfold slice0. rewrite length_take. destruct (Z.ltb_spec stop 0); lia. Qed.

Lemma omap_NoDup {A B} (f : A → option B) (l : list A) :
  (∀ x y z, x ∈ l → y ∈ l → f x = Some z → f y = Some z → x = y) →
  NoDup l → NoDup (omap f l).
Proof.
  induction l as [|x l IH]; intros Hinj Hnd; cbn; [constructor|].
  apply NoDup_cons in Hnd as [Hx Hnd].
  assert (Hrest : NoDup (omap f l)).
  { apply IH; [|done]. intros a b z Ha Hb. apply Hinj; by right. }
  destruct (f x) as [z|] eqn:Hfx; [|done].
  apply NoDup_cons. split; [|done].
  intros (y & Hy & Hfy)%list_elem_of_omap. apply Hx.
  rewrite (Hinj x y z); [done|by left|by right|done|done].
Qed.

Lemma top_NoDup (stop : Z) (ranked similarities : list scored) :
  ranked ≡ₚ similarities → NoDup (fst <$> similarities) →
  NoDup (map fst (slice0 stop ranked)).
Proof.
  intros Hperm Hnd. unfold slice0.
  change (map fst ?l) with (fst <$> l). rewrite fmap_take.
  eapply sublist_NoDup; [|apply sublist_take]. by rewrite Hperm.
Qed.

Lemma top_subseteq (stop : Z) (ranked similarities : list scored) :
  ranked ≡ₚ similarities → map fst (slice0 stop ranked) ⊆ fst <$> similarities.
Proof.
  intros Hperm. unfold slice0.
  change (map fst ?l) with (fst <$> l). rewrite fmap_take.
  intros r Hr%subseteq_take. by rewrite Hperm in Hr.
Qed.

Lemma top_length (stop : Z) (ranked similarities : list scored) :
  ranked ≡ₚ similarities →
  length (map fst (slice0 stop ranked))
  = Z.to_nat (if stop <? 0
              then Z.max (Z.of_nat (length similarities) + stop) 0
              else Z.min stop (Z.of_nat (length similarities))).
Proof.
  intros Hperm. rewrite length_map, slice0_length.
  apply Permutation_length in Hperm. unfold scored in *. by rewrite Hperm.
Qed.

Lemma relatedChunkIdsOf_spec this primary k :
  k ∈ relatedChunkIdsOf this primary ↔
  (k ∉ map (λ r, id (deref this r)) primary) ∧
  (∃ p, p ∈ primary ∧ k ∈ default [] (relatedChunks (deref this p))).
Proof.
  rewrite relatedChunkIdsOf_flat.
  destruct (foldl_setAdd_inv
    (List.filter (λ k, negb (arrayIncludes (map (λ r, id (deref this r)) primary) k))
       (referencedIds this primary))) as (_ & Hin & _).
  rewrite Hin, list_elem_of_In, List.filter_In, negb_true_iff, arrayIncludes_false.
  unfold referencedIds. rewrite in_concat. split.
  - intros [(l & Hl & Hk) Hnot]. split; [done|].
    apply in_map_iff in Hl as (p & <- & Hp).
    exists p. by rewrite !list_elem_of_In.
  - intros [Hnot (p & Hp & Hk)]. split; [|done].
    exists (default [] (relatedChunks (deref this p))).
    split; [|by apply list_elem_of_In].
    apply (in_map (λ r, default [] (relatedChunks (deref this r)))).
    by apply list_elem_of_In.
Qed.

Lemma relatedChunkIdsOf_NoDup this primary : NoDup (relatedChunkIdsOf this primary).
Proof. rewrite relatedChunkIdsOf_flat. apply foldl_setAdd_inv. Qed.

End ServiceShapeFacts.

(** ** Further statements about the service *)

Section ServiceStatements.
Import Js RagUtils RagService Spec Props.

(** X5.  What [initialize] stores of a knowledge base can be read back: a
    new instance is not ready; after [initialize] it is ready, its prompt is
    the one given and [getChunkIds] lists the identifiers of the knowledge
    base in its order; none of the three reads changes the instance. *)
Theorem initialize_read_back (kcs : list KnowledgeChunk) (prompt : string) :
  let this := (initialize kcs prompt newRAGService).2 in
  isReady newRAGService = (Normal false, newRAGService) ∧
  isReady this = (Normal true, this) ∧
  getSystemPrompt this = (Normal prompt, this) ∧
  getChunkIds this = (Normal (map id kcs), this).
Proof.
  cbv zeta. rewrite initialize_new. cbn [snd].
  split; [done|]. split; [done|]. split; [done|].
  unfold getChunkIds. rewrite bind_eval. cbn [getThis mret M_ret].
  by rewrite ready_chunk_ids.
Qed.

(** X6.  After [initialize] the lookup map resolves exactly the identifiers
    of the knowledge base.  The chunk it resolves an identifier to is a chunk
    of the corpus with that identifier: the last one of the knowledge base,
    when several chunks share it. *)
Theorem chunkMap_resolves (kcs : list KnowledgeChunk) (prompt : string) (k : string) :
  let this := (initialize kcs prompt newRAGService).2 in
  (chunkMap this !! k = None ↔ k ∉ map id kcs) ∧
  ∀ r, chunkMap this !! k = Some r →
    r ∈ chunks this ∧ id (deref this r) = k ∧
    (∃ c, kcs !! r = Some c ∧ id c = k) ∧
    ∀ j c, kcs !! j = Some c → id c = k → (j ≤ r)%nat.
Proof.
  cbv zeta. rewrite initialize_new. cbn [snd].
  split; [apply ready_chunkMap_None|]. intros r Hr.
  split; [by eapply ready_chunkMap_chunks|].
  split; [by apply ready_chunkMap|].
  by apply (ready_chunkMap_last kcs prompt).
Qed.

Lemma chunkMap_resolves_witness :
  id (deref (initialize [Examples.billing; Examples.support; Examples.billing] ""
               newRAGService).2 2) = "billing".
Proof.
  apply (chunkMap_resolves [Examples.billing; Examples.support; Examples.billing] ""
           "billing").
  vm_compute. reflexivity.
Defined.

(** X7.  The relations that [initialize] infers for a chunk without given
    ones never name the chunk itself, and every identifier among them is the
    identifier of a chunk of the knowledge base, which the lookup map
    resolves. *)
Theorem inferred_relations_resolve (kcs : list KnowledgeChunk) (prompt : string)
    (i : nat) (a : KnowledgeChunk) :
  let this := (initialize kcs prompt newRAGService).2 in
  kcs !! i = Some a → hasRelatedChunks a = false →
  ∃ (a' : EnhancedKnowledgeChunk) (l : list string),
    corpus this !! i = Some a' ∧ relatedChunks a' = Some l ∧
    (id a ∉ l) ∧
    ∀ k, k ∈ l →
      k ∈ map id kcs ∧ ∃ r, chunkMap this !! k = Some r ∧ id (deref this r) = k.
Proof.
  cbv zeta. rewrite initialize_new. cbn [snd]. intros Ha Hrel.
  exists (infer (map enhance kcs) (enhance a)), (related (enhance a) (map enhance kcs)).
  split.
  { rewrite corpus_ready.
    change (map (infer (map enhance kcs)) (map enhance kcs))
      with (infer (map enhance kcs) <$> (enhance <$> kcs)).
    by rewrite !list_lookup_fmap, Ha. }
  split.
  { unfold infer. change (hasRelatedChunks (enhance a)) with (hasRelatedChunks a).
    by rewrite Hrel. }
  split.
  { intros [Hne _]%related_elem. by apply Hne. }
  intros k (_ & o & Ho & <-)%related_elem.
  change (o ∈ enhance <$> kcs) in Ho.
  apply list_elem_of_fmap in Ho as (b & -> & Hb).
  assert (Hk : id (enhance b) ∈ map id kcs).
  { change (id b ∈ id <$> kcs). by apply list_elem_of_fmap_2. }
  split; [done|].
  destruct (chunkMap (ready kcs prompt) !! id (enhance b)) as [r|] eqn:Hr.
  - exists r. split; [done|]. by apply ready_chunkMap.
  - by apply ready_chunkMap_None in Hr.
Qed.

Lemma inferred_relations_resolve_witness :
  ∃ (a' : EnhancedKnowledgeChunk) (l : list string),
    corpus (initialize [Examples.billing; Examples.support] "" newRAGService).2 !! 0%nat
    = Some a' ∧
    relatedChunks a' = Some l ∧ ("billing" ∉ l).
Proof.
  destruct (inferred_relations_resolve [Examples.billing; Examples.support] "" 0
              Examples.billing eq_refl eq_refl) as (a' & l & Ha' & Hl & Hself & _).
  exists a', l. split; [exact Ha'|]. split; [exact Hl|exact Hself].
Defined.

(** X8.  The shape of every result of [getRelevantContext] on a ready
    instance, in whatever order the sort leaves the candidates.  The result
    is the text that the code assembles from the candidates in the order
    that the sort leaves them in; this order is the one of [sort] when the
    comparator is consistent on the scores, and the choice of the engine
    when it is not, as with a score that is a NaN.  For every order of the
    candidates, the text assembled from it joins the sections of primary
    chunks and then the sections of secondary chunks, marked as related
    information, and renders no chunk twice.  The primary chunks are among
    the first 50 chunks of the corpus, and their number is what
    [slice(0, maxChunks)] keeps of the candidates, so that a negative
    [maxChunks] drops that many candidates from the end of the ranking.
    There are at most 2 secondary chunks; each is a chunk of the corpus
    whose identifier a primary chunk refers to and no primary chunk has. *)
Theorem getRelevantContext_shape (this : RAGService)
    (query conversationHistory : string) (maxChunks : Z) :
  reachable this → isInitialized this = true →
  ∃ similarities : list scored,
    boostedSimilarities this (query +:+ " " +:+ conversationHistory)
    = Normal similarities ∧
    (consistent lowerScore similarities →
     (getRelevantContext query conversationHistory maxChunks this).1
     = Normal (assembleRanked this maxChunks (sort lowerScore similarities))) ∧
    ∀ ranked : list scored, ranked ≡ₚ similarities →
      ∃ primary secondary : list ref,
        assembleRanked this maxChunks ranked
        = join separator
            (map (λ r, section false (deref this r)) primary
             ++ map (λ r, section true (deref this r)) secondary) ∧
        NoDup (primary ++ secondary) ∧
        primary ⊆ take 50 (chunks this) ∧
        secondary ⊆ chunks this ∧
        length primary
        = Z.to_nat (let candidates := Z.of_nat (Nat.min 50 (length (chunks this))) in
                    if maxChunks <? 0 then Z.max (candidates + maxChunks) 0
                    else Z.min maxChunks candidates) ∧
        (length secondary ≤ 2)%nat ∧
        ∀ r, r ∈ secondary →
          (∃ p, p ∈ primary ∧
                id (deref this r) ∈ default [] (relatedChunks (deref this p))) ∧
          (∀ p, p ∈ primary → id (deref this p) ≠ id (deref this r)).
Proof.
  intros Hreach Hthis.
  destruct (reachable_inv this Hreach) as [[? _]|[_ (kcs & prompt & ->)]];
    [congruence|].
  set (this := ready kcs prompt).
  set (combinedQuery := query +:+ " " +:+ conversationHistory).
  pose proof (boostedSimilarities_ready kcs prompt combinedQuery) as Hsims.
  cbv zeta in Hsims. fold this in Hsims.
  set (similarities := map _ (take 50 (chunks this))) in Hsims.
  assert (Hfst : fst <$> similarities = take 50 (chunks this)).
  { unfold similarities. change (map ?f ?l) with (f <$> l).
    rewrite <- list_fmap_compose. apply list_fmap_id. }
  exists similarities. split; [done|]. split.
  { intros _. unfold this. by rewrite (getRelevantContext_ready _ _ _ _ _ _ Hsims). }
  intros ranked Hperm.
  set (primary := map fst (slice0 maxChunks ranked)).
  set (primaryIds := map (λ r, id (deref this r)) primary).
  set (secondary := take 2 (relatedChunksOf this primary)).
  assert (Hsec : ∀ r, r ∈ secondary →
            ∃ k, k ∈ relatedChunkIdsOf this primary ∧ chunkMap this !! k = Some r).
  { intros r Hr%subseteq_take. by apply list_elem_of_omap in Hr. }
  assert (HinP : ∀ p, p ∈ primary → id (deref this p) ∈ primaryIds).
  { intros p Hp. by apply (list_elem_of_fmap_2 (λ r, id (deref this r))). }
  exists primary, secondary.
  split.
  { unfold assembleRanked. fold primary. fold primaryIds.
    rewrite take_min_length. fold secondary.
    f_equal. rewrite map_app. f_equal.
    - apply map_ext_in. intros r Hr%list_elem_of_In. rewrite formatChunk_section.
      replace (arrayIncludes primaryIds (id (deref this r))) with true; [done|].
      symmetry. by apply arrayIncludes_spec, HinP.
    - apply map_ext_in. intros r Hr%list_elem_of_In. rewrite formatChunk_section.
      destruct (Hsec r Hr) as (k & Hk & Hkr).
      apply ready_chunkMap in Hkr. fold this in Hkr. rewrite Hkr.
      apply relatedChunkIdsOf_spec in Hk as [Hk _].
      apply arrayIncludes_false in Hk. fold primaryIds in Hk. by rewrite Hk. }
  split.
  { apply NoDup_app. split; [|split].
    - apply (top_NoDup maxChunks ranked similarities Hperm). rewrite Hfst.
      eapply sublist_NoDup; [apply NoDup_seq|apply sublist_take].
    - intros r Hp Hs. destruct (Hsec r Hs) as (k & Hk & Hkr).
      apply ready_chunkMap in Hkr. fold this in Hkr.
      apply relatedChunkIdsOf_spec in Hk as [Hk _]. apply Hk.
      rewrite <- Hkr. by apply HinP.
    - eapply sublist_NoDup; [|apply sublist_take].
      apply omap_NoDup; [|apply relatedChunkIdsOf_NoDup].
      intros k1 k2 r _ _ H1%ready_chunkMap H2%ready_chunkMap. congruence. }
  split.
  { rewrite <- Hfst. by apply top_subseteq. }
  split.
  { intros r Hr. destruct (Hsec r Hr) as (k & _ & Hkr).
    by eapply ready_chunkMap_chunks. }
  split.
  { unfold primary. rewrite (top_length maxChunks ranked similarities Hperm).
    replace (length similarities) with (Nat.min 50 (length (chunks this))); [done|].
    unfold similarities. by rewrite length_map, length_take. }
  split.
  { unfold secondary. rewrite length_take. lia. }
  intros r Hr. destruct (Hsec r Hr) as (k & Hk & Hkr).
  apply ready_chunkMap in Hkr. fold this in Hkr. rewrite Hkr.
  apply relatedChunkIdsOf_spec in Hk as [Hk Hp]. split; [done|].
  intros p Hin Heq. apply Hk. rewrite <- Heq. by apply HinP.
Qed.

Lemma getRelevantContext_shape_witness :
  ∃ similarities : list scored,
    boostedSimilarities
      (initialize [Examples.login; Examples.year; Examples.invoices] "" newRAGService).2
      ("refund invoice" +:+ " " +:+ "") = Normal similarities ∧
    ∃ primary secondary : list ref,
      assembleRanked
        (initialize [Examples.login; Examples.year; Examples.invoices] "" newRAGService).2
        (-1) (rev similarities)
      = join separator
          (map (λ r, section false
                       (deref (initialize [Examples.login; Examples.year; Examples.invoices]
                                 "" newRAGService).2 r)) primary
           ++ map (λ r, section true
                          (deref (initialize [Examples.login; Examples.year; Examples.invoices]
                                    "" newRAGService).2 r)) secondary) ∧
      length primary = 2%nat.
Proof.
  destruct (getRelevantContext_shape
              (initialize [Examples.login; Examples.year; Examples.invoices] "" newRAGService).2
              "refund invoice" "" (-1))
    as (similarities & Hsims & _ & Hshape).
  - apply reachable_initialize, reachable_new.
  - vm_compute. reflexivity.
  - exists similarities. split; [exact Hsims|].
    destruct (Hshape (rev similarities) (Permutation_sym (Permutation_rev similarities)))
      as (primary & secondary & Hresult & _ & _ & _ & Hlen & _).
    exists primary, secondary. split; [exact Hresult|exact Hlen].
Defined.

End ServiceStatements.

(** ** The search over plain chunks *)

Section SearchFacts.
Import Js RagUtils RagService RagSearch Spec Props.

Lemma mapC_cosineSimilarity (q : list float) (l : list (list float)) :
  Forall (λ e, length e = length q) l →
  mapC (cosineSimilarity q) l = Normal (map (cosine q) l).
Proof.
  induction 1 as [|e l He _ IH]; [done|].
  cbn [mapC map]. by rewrite cosineSimilarity_same_length, IH.
Qed.

Lemma mapC_cosineSimilarity_throw (q e : list float) (l : list (list float)) :
  e ∈ l → length e ≠ length q →
  mapC (cosineSimilarity q) l = Throw (Error "Vectors must have the same length").
Proof.
  intros Hin Hne. induction l as [|e' l IH]; [by apply elem_of_nil in Hin|].
  cbn [mapC]. unfold cosineSimilarity at 1.
  destruct (length q =? length e')%nat eqn:E; cbn [negb]; [|done].
  apply elem_of_cons in Hin as [->|Hin].
  - apply Nat.eqb_eq in E. congruence.
  - by rewrite (IH Hin).
Qed.

End SearchFacts.

Section SearchStatements.
Import Js RagUtils RagService RagSearch Spec Props.

(** X9.  With embeddings of 26 entries [findRelevantChunks] returns what
    the code makes of the items in the order that the sort leaves them in;
    this order is the one of [sort] when the comparator is consistent on the
    similarities, and the choice of the engine when it is not, as with a
    similarity that is a NaN.  For every order of the items, what the code
    makes of it holds the entries of [chunks] at distinct indices of
    [embeddings], as many as [slice(0, topK)] keeps of them.  When there are
    at least as many chunks as embeddings every entry of the result is a
    chunk; when there are fewer and [topK] reaches the number of the
    embeddings, the result holds an [undefined]. *)
Theorem findRelevantChunks_results (query : string) (chunks : list string)
    (embeddings : list (list float)) (topK : Z) :
  (∀ e, e ∈ embeddings → length e = 26%nat) →
  let items :=
    imap (λ index e, (index, cosine (createSimpleEmbedding query) e)) embeddings in
  (consistent lowerScore items →
   findRelevantChunks query chunks embeddings topK
   = Normal (chunksOfRanked chunks topK (sort lowerScore items))) ∧
  ∀ ranked : list scored, ranked ≡ₚ items →
    ∃ indices : list nat,
      chunksOfRanked chunks topK ranked = map (λ index, chunks !! index) indices ∧
      NoDup indices ∧
      (∀ index, index ∈ indices → (index < length embeddings)%nat) ∧
      length indices
      = Z.to_nat (if topK <? 0 then Z.max (Z.of_nat (length embeddings) + topK) 0
                  else Z.min topK (Z.of_nat (length embeddings))) ∧
      ((length embeddings ≤ length chunks)%nat →
         ∀ index, index ∈ indices → ∃ c, chunks !! index = Some c ∧ c ∈ chunks) ∧
      ((length chunks < length embeddings)%nat → Z.of_nat (length embeddings) ≤ topK →
         None ∈ map (λ index, chunks !! index) indices).
Proof.
  intros Hlen items.
  assert (Hfst : fst <$> items = seq 0 (length embeddings)).
  { unfold items. apply list_eq. intros i.
    rewrite list_lookup_fmap, list_lookup_imap.
    destruct (embeddings !! i) as [e|] eqn:He; cbn.
    - by rewrite lookup_seq_lt by (by eapply lookup_lt_Some).
    - by rewrite lookup_seq_ge by (by apply lookup_ge_None). }
  assert (Hitems : length items = length embeddings).
  { by rewrite <- (length_fmap fst), Hfst, length_seq. }
  split.
  { intros _. unfold findRelevantChunks, chunksOfRanked.
    rewrite mapC_cosineSimilarity.
    2:{ apply Forall_forall. intros e He.
        by rewrite createSimpleEmbedding_length, (Hlen e He). }
    change (map (cosine (createSimpleEmbedding query)) embeddings)
      with (cosine (createSimpleEmbedding query) <$> embeddings).
    by rewrite imap_fmap. }
  intros ranked Hperm.
  exists (map fst (slice0 topK ranked)).
  split; [done|].
  split.
  { apply (top_NoDup topK ranked items Hperm). rewrite Hfst. apply NoDup_seq. }
  assert (Hbound : ∀ index, index ∈ map fst (slice0 topK ranked) →
            (index < length embeddings)%nat).
  { intros index Hi. apply (top_subseteq topK ranked items Hperm) in Hi.
    rewrite Hfst in Hi. apply elem_of_seq in Hi. lia. }
  split; [done|].
  split.
  { rewrite (top_length topK ranked items Hperm). unfold scored. by rewrite Hitems. }
  split.
  { intros Hle index Hi%Hbound.
    destruct (lookup_lt_is_Some_2 chunks index ltac:(lia)) as [c Hc].
    exists c. split; [done|]. by eapply list_elem_of_lookup_2. }
  intros Hlt Hk.
  apply (list_elem_of_fmap_2' _ _ (length chunks)).
  - unfold slice0.
    destruct (Z.ltb_spec topK 0); [lia|].
    rewrite take_ge.
    2:{ pose proof (Permutation_length Hperm) as Hlength.
        unfold scored in *. lia. }
    change (length chunks ∈ fst <$> ranked).
    rewrite Hperm, Hfst. apply elem_of_seq. lia.
  - symmetry. by apply lookup_ge_None.
Qed.

Lemma findRelevantChunks_results_witness :
  ∃ indices : list nat,
    chunksOfRanked ["refund policy"; "login help"] 1
      (rev (imap (λ index e, (index, cosine (createSimpleEmbedding "refund") e))
              [createSimpleEmbedding "refund policy"; createSimpleEmbedding "login help"]))
    = map (λ index, ["refund policy"; "login help"] !! index) indices ∧
    length indices = 1%nat.
Proof.
  destruct (findRelevantChunks_results "refund" ["refund policy"; "login help"]
              [createSimpleEmbedding "refund policy"; createSimpleEmbedding "login help"] 1)
    as [_ Hany].
  - intros e He. apply elem_of_cons in He as [->|He]; [vm_compute; reflexivity|].
    apply list_elem_of_singleton in He as ->. vm_compute. reflexivity.
  - destruct (Hany _ (Permutation_sym (Permutation_rev _)))
      as (indices & Hresult & _ & _ & Hlen & _).
    exists indices. split; [exact Hresult|exact Hlen].
Defined.

(** X10.  [findRelevantChunks] throws the error of [cosineSimilarity] as
    soon as one of the embeddings does not have 26 entries, whatever the
    query, the chunks and [topK] are. *)
Theorem findRelevantChunks_throws (query : string) (chunks : list string)
    (embeddings : list (list float)) (topK : Z) (e : list float) :
  e ∈ embeddings → length e ≠ 26%nat →
  findRelevantChunks query chunks embeddings topK
  = Throw (Error "Vectors must have the same length").
Proof.
  intros He Hne. unfold findRelevantChunks.
  rewrite (mapC_cosineSimilarity_throw _ e); [done|done|].
  by rewrite createSimpleEmbedding_length.
Qed.

Lemma findRelevantChunks_throws_witness :
  findRelevantChunks "refund" ["refund policy"] [[1%float; 0%float]] 0
  = Throw (Error "Vectors must have the same length").
Proof.
  apply (findRelevantChunks_throws _ _ _ _ [1%float; 0%float]).
  - apply list_elem_of_here.
  - cbn. lia.
Defined.

End SearchStatements.

(** ** The chat route *)

Section RouteFacts.
Import Js JsText RagUtils RagService Spec Props.

Lemma isWhiteSpace_lower (c : ascii) :
  isWhiteSpace (toLowerCaseUnit c) = isWhiteSpace c.
Proof.
  pose proof (forallb_ascii
    (λ c, Bool.eqb (isWhiteSpace (toLowerCaseUnit c)) (isWhiteSpace c))) as H.
  specialize (H ltac:(vm_compute; reflexivity) c). by apply Bool.eqb_prop in H.
Qed.

Lemma trimStart_lower (s : string) :
  trimStart (toLowerCase s) = toLowerCase (trimStart s).
Proof.
  induction s as [|c s IH]; cbn [toLowerCase trimStart]; [done|].
  rewrite isWhiteSpace_lower. by destruct (isWhiteSpace c).
Qed.

Lemma trimEnd_lower (s : string) :
  trimEnd (toLowerCase s) = toLowerCase (trimEnd s).
Proof.
  induction s as [|c s IH]; [done|]. cbn [toLowerCase trimEnd].
  rewrite IH, isWhiteSpace_lower.
  destruct (trimEnd s); cbn [toLowerCase]; [by destruct (isWhiteSpace c)|done].
Qed.

Lemma trim_lower (s : string) : trim (toLowerCase s) = toLowerCase (trim s).
Proof. unfold trim. by rewrite trimStart_lower, trimEnd_lower. Qed.

Lemma canonicalize_plain (c p : ascii) :
  isPlainChar p = true →
  Ascii.eqb (canonicalize c) (canonicalize p) = Ascii.eqb (toLowerCaseUnit c) p.
Proof.
  intros Hp.
  pose proof (forallb_ascii
    (λ c, forallb
            (λ p, implb (isPlainChar p)
                    (Bool.eqb (Ascii.eqb (canonicalize c) (canonicalize p))
                              (Ascii.eqb (toLowerCaseUnit c) p)))
            (map ascii_of_nat (seq 0 256)))) as H.
  specialize (H ltac:(vm_compute; reflexivity) c). cbv beta in H.
  pose proof (forallb_ascii _ H p) as H'. cbv beta in H'.
  rewrite Hp in H'. by apply Bool.eqb_prop in H'.
Qed.

Lemma equalsIgnoreCase_plain (p : string) : ∀ s,
  forallb isPlainChar (units p) = true →
  equalsIgnoreCase s p = String.eqb (toLowerCase s) p.
Proof.
  induction p as [|a p IH]; intros [|c s] Hp; cbn [equalsIgnoreCase toLowerCase String.eqb];
    try done.
  cbn in Hp. apply andb_true_iff in Hp as [Ha Hp].
  rewrite canonicalize_plain, IH by done.
  by destruct (Ascii.eqb (toLowerCaseUnit c) a).
Qed.

Lemma matchesWholeIgnoreCase_plain (alternatives : list string) (s : string) :
  forallb (λ p, forallb isPlainChar (units p)) alternatives = true →
  matchesWholeIgnoreCase alternatives s = matchesWhole alternatives (toLowerCase s).
Proof.
  unfold matchesWholeIgnoreCase, matchesWhole.
  induction alternatives as [|p alternatives IH]; cbn [forallb existsb]; [done|].
  intros [Hp Hrest]%andb_true_iff. by rewrite equalsIgnoreCase_plain, IH.
Qed.

Lemma existsb_concat {A} (f : A → bool) (ls : list (list A)) :
  existsb (λ l, existsb f l) ls = existsb f (concat ls).
Proof.
  induction ls as [|l ls IH]; cbn [existsb concat]; [done|].
  by rewrite existsb_app, IH.
Qed.

Lemma greeting_normalForm (message : string) :
  existsb (λ pattern, matchesWhole pattern (normalForm message)) ChatRoute.greetingPatterns
  = arrayIncludes (concat ChatRoute.greetingPatterns) (normalForm message).
Proof. unfold matchesWhole, arrayIncludes. apply existsb_concat. Qed.

Lemma simple_normalForm (message : string) :
  existsb (λ pattern, matchesWholeIgnoreCase pattern (trim message)) ChatRoute.simplePatterns
  = arrayIncludes (concat ChatRoute.simplePatterns) (normalForm message).
Proof.
  unfold ChatRoute.simplePatterns. cbn [existsb].
  rewrite !matchesWholeIgnoreCase_plain by (vm_compute; reflexivity).
  rewrite <- trim_lower. fold (normalForm message).
  unfold arrayIncludes, matchesWhole. cbn [concat]. rewrite app_nil_r, existsb_app.
  by rewrite orb_false_r.
Qed.

Lemma detectIntent_greeting (message : string) :
  String.eqb (ChatRoute.detectIntent message) "greeting"
  = arrayIncludes (concat ChatRoute.greetingPatterns) (normalForm message).
Proof.
  unfold ChatRoute.detectIntent. fold (normalForm message).
  rewrite greeting_normalForm.
  destruct (arrayIncludes _ _); [done|].
  by destruct (_ || _).
Qed.

(** The knowledge base is left out for the messages of [smallTalk], and for
    no other. *)
Lemma needsKnowledgeBase_normalForm (message : string) :
  ChatRoute.needsKnowledgeBase (ChatRoute.detectIntent message) message
  = negb (arrayIncludes smallTalk (normalForm message)).
Proof.
  unfold ChatRoute.needsKnowledgeBase.
  rewrite detectIntent_greeting, simple_normalForm.
  change smallTalk
    with (concat ChatRoute.greetingPatterns ++ concat ChatRoute.simplePatterns).
  unfold arrayIncludes. rewrite existsb_app.
  by destruct (existsb _ (concat ChatRoute.greetingPatterns)), (existsb _ _).
Qed.

Lemma endsWithChar_lower (s : string) :
  endsWithChar "?" (toLowerCase s) = endsWithChar "?" s.
Proof.
  assert (Hc : ∀ c, Ascii.eqb (toLowerCaseUnit c) "?" = Ascii.eqb c "?").
  { intros c.
    pose proof (forallb_ascii
      (λ c, Bool.eqb (Ascii.eqb (toLowerCaseUnit c) "?") (Ascii.eqb c "?"))) as H.
    specialize (H ltac:(vm_compute; reflexivity) c). by apply Bool.eqb_prop in H. }
  induction s as [|c s IH]; [done|]. cbn [toLowerCase endsWithChar].
  destruct s as [|c' s]; [apply Hc|]. exact IH.
Qed.

Lemma smallTalk_no_question (s : string) :
  arrayIncludes smallTalk s = true → endsWithChar "?" s = false.
Proof.
  intros Hs%arrayIncludes_spec.
  assert (Hall : forallb (λ p, negb (endsWithChar "?" p)) smallTalk = true)
    by (vm_compute; reflexivity).
  rewrite forallb_forall in Hall. apply list_elem_of_In, Hall in Hs.
  by apply negb_true_iff in Hs.
Qed.

Lemma slice_window {A} (pre : list A) (q : A) :
  slice (-7) (-1) (pre ++ [q]) = drop (length pre - 6) pre.
Proof.
  unfold slice. rewrite length_app. cbn [length].
  change (-7 <? 0) with true. change (-1 <? 0) with true. cbv iota zeta.
  replace (Z.to_nat (Z.max (Z.of_nat (length pre + 1) + -7) 0))
    with (length pre - 6)%nat by lia.
  replace (Z.to_nat (Z.max (Z.of_nat (length pre + 1) + -1) 0
                     - Z.max (Z.of_nat (length pre + 1) + -7) 0))
    with (length pre - (length pre - 6))%nat by lia.
  rewrite drop_app_le by lia.
  apply take_app_length'. rewrite length_drop. done.
Qed.

Lemma sliceFrom_drop {A} (n : nat) (l : list A) :
  (n ≤ length l)%nat → sliceFrom (Z.of_nat n) l = drop n l.
Proof.
  intros Hn. unfold sliceFrom, slice.
  destruct (Z.ltb_spec (Z.of_nat n) 0); [lia|].
  destruct (Z.ltb_spec (Z.of_nat (length l)) 0); [lia|].
  rewrite Z.min_id, Z.min_l, Nat2Z.id by lia.
  apply take_ge. rewrite length_drop. lia.
Qed.

Lemma getRelevantContext_ready_normal kcs prompt query conversationHistory maxChunks :
  ∃ context,
    getRelevantContext query conversationHistory maxChunks (ready kcs prompt)
    = (Normal context, ready kcs prompt).
Proof.
  eexists. apply getRelevantContext_ready. apply boostedSimilarities_ready.
Qed.

Lemma retrieve_new config userQuery recentHistory :
  ChatRoute.retrieve config userQuery recentHistory newRAGService
  = getRelevantContext userQuery recentHistory 3
      (ready (ChatRoute.knowledgeBase config) (ChatRoute.systemPrompt config)).
Proof.
  unfold ChatRoute.retrieve. rewrite bind_eval.
  change (isReady newRAGService) with (Normal false, newRAGService).
  cbn [negb]. by rewrite bind_eval, initialize_new.
Qed.

Lemma retrieve_ready config userQuery recentHistory kcs prompt :
  ChatRoute.retrieve config userQuery recentHistory (ready kcs prompt)
  = getRelevantContext userQuery recentHistory 3 (ready kcs prompt).
Proof.
  unfold ChatRoute.retrieve. rewrite bind_eval.
  change (isReady (ready kcs prompt)) with (Normal true, ready kcs prompt).
  cbn [negb]. by rewrite bind_eval.
Qed.

Lemma relevantContextOf_step config ragEnabled messages ragServiceInstance :
  ragServiceInstance = None ∨ (∃ kcs prompt, ragServiceInstance = Some (ready kcs prompt)) →
  let userQuery := ChatRoute.userQueryOf messages in
  let needsRAG :=
    ragEnabled
    && ChatRoute.needsKnowledgeBase (ChatRoute.detectIntent userQuery) userQuery in
  if needsRAG
  then ∃ kcs prompt context,
         ChatRoute.relevantContextOf config ragEnabled messages ragServiceInstance
         = (Normal context, Some (ready kcs prompt)) ∧
         getRelevantContext userQuery (ChatRoute.recentHistoryOf messages) 3
           (ready kcs prompt)
         = (Normal context, ready kcs prompt) ∧
         (ragServiceInstance = None →
            kcs = ChatRoute.knowledgeBase config ∧ prompt = ChatRoute.systemPrompt config) ∧
         (∀ this, ragServiceInstance = Some this → this = ready kcs prompt)
  else ChatRoute.relevantContextOf config ragEnabled messages ragServiceInstance
       = (Normal "", ragServiceInstance).
Proof.
  intros Hinst. cbv zeta. unfold ChatRoute.relevantContextOf.
  destruct (ragEnabled && _) eqn:Hneeds; [|done].
  destruct Hinst as [->|(kcs & prompt & ->)]; cbn [ChatRoute.getRagService].
  - exists (ChatRoute.knowledgeBase config), (ChatRoute.systemPrompt config).
    destruct (getRelevantContext_ready_normal (ChatRoute.knowledgeBase config)
                (ChatRoute.systemPrompt config) (ChatRoute.userQueryOf messages)
                (ChatRoute.recentHistoryOf messages) 3) as [context Hcontext].
    exists context. rewrite retrieve_new, Hcontext. done.
  - exists kcs, prompt.
    destruct (getRelevantContext_ready_normal kcs prompt (ChatRoute.userQueryOf messages)
                (ChatRoute.recentHistoryOf messages) 3) as [context Hcontext].
    exists context. rewrite retrieve_ready, Hcontext.
    split; [done|]. split; [done|]. split; [done|]. by intros this [= <-].
Qed.

Lemma served_inv ragServiceInstance :
  served ragServiceInstance →
  ragServiceInstance = None ∨ ∃ kcs prompt, ragServiceInstance = Some (ready kcs prompt).
Proof.
  induction 1 as [|inst config ragEnabled messages _ IH]; [by left|].
  pose proof (relevantContextOf_step config ragEnabled messages inst IH) as Hstep.
  cbv zeta in Hstep. destruct (ragEnabled && _).
  - destruct Hstep as (kcs & prompt & context & -> & _). right. by exists kcs, prompt.
  - by rewrite Hstep.
Qed.

End RouteFacts.

Section RouteStatements.
Import Js JsText RagUtils RagService Spec Props.



(** X12.  For messages of characters below U+0100, which are the strings
    of this development, the intent of a message and the decision to consult
    the knowledge base depend on the message only through its normal form,
    the message lowercased and without the white space around it.  (With a
    character above U+00FF the decisions for two messages of one normal form
    can differ, as [needsKnowledgeBase] does not lowercase the message but
    matches it with the flag [i].) *)
Theorem intent_normalForm (message message' : string) :
  normalForm message = normalForm message' →
  ChatRoute.detectIntent message = ChatRoute.detectIntent message' ∧
  ChatRoute.needsKnowledgeBase (ChatRoute.detectIntent message) message
  = ChatRoute.needsKnowledgeBase (ChatRoute.detectIntent message') message'.
Proof.
  intros Hnf. split.
  - unfold ChatRoute.detectIntent. fold (normalForm message) (normalForm message').
    by rewrite Hnf.
  - by rewrite !needsKnowledgeBase_normalForm, Hnf.
Qed.

Lemma intent_normalForm_witness :
  ChatRoute.detectIntent "  Thank YOU " = ChatRoute.detectIntent "thank you" ∧
  ChatRoute.needsKnowledgeBase (ChatRoute.detectIntent "  Thank YOU ") "  Thank YOU "
  = ChatRoute.needsKnowledgeBase (ChatRoute.detectIntent "thank you") "thank you".
Proof.
  apply intent_normalForm. vm_compute. reflexivity.
Defined.



(** X14.  What the handler reads of a conversation that ends with the
    message [q]: the query is the content of [q]; the history given to the
    retrieval is made of the up to 6 messages before [q], one line each, and
    never of [q]; and the language model is sent the last 10 messages, [q]
    among them. *)
Theorem conversation_views (pre : list ChatRoute.Message) (q : ChatRoute.Message) :
  ChatRoute.userQueryOf (pre ++ [q]) = ChatRoute.content q ∧
  ChatRoute.recentHistoryOf (pre ++ [q])
  = join newline (map historyLine (drop (length pre - 6) pre)) ∧
  ChatRoute.limitedMessagesOf (pre ++ [q]) = drop (length pre - 9) pre ++ [q].
Proof.
  split; [|split].
  - unfold ChatRoute.userQueryOf. rewrite length_app. cbn [length].
    replace (0 <? length pre + 1)%nat with true by (symmetry; apply Nat.ltb_lt; lia).
    replace (length pre + 1 - 1)%nat with (length pre) by lia.
    by rewrite list_lookup_middle.
  - unfold ChatRoute.recentHistoryOf. rewrite slice_window, length_app. cbn [length].
    destruct pre as [|m pre]; [done|].
    replace (1 <? length (m :: pre) + 1)%nat with true; [done|].
    symmetry. apply Nat.ltb_lt. cbn. lia.
  - unfold ChatRoute.limitedMessagesOf, ChatRoute.maxHistoryMessages.
    rewrite length_app. cbn [length].
    destruct (Z.ltb_spec 10 (Z.of_nat (length pre + 1))).
    + replace (Z.of_nat (length pre + 1) - 10) with (Z.of_nat (length pre - 9)) by lia.
      rewrite sliceFrom_drop by (rewrite length_app; cbn; lia).
      by rewrite drop_app_le by lia.
    + by replace (length pre - 9)%nat with 0%nat by lia.
Qed.

(** X15.  The retrieval of the handler never fails on the instance that the
    requests share: when the knowledge base is not needed the context is
    empty and the instance is left as it is, not even created; otherwise the
    context is what [getRelevantContext] returns for the query, the history
    and 3 chunks on a ready instance, which is the instance that was there
    or, for the first such request, a new one initialized with the knowledge
    base and the prompt of the configuration. *)
Theorem relevantContextOf_served (config : ChatRoute.Config) (ragEnabled : bool)
    (messages : list ChatRoute.Message) (ragServiceInstance : option RAGService) :
  served ragServiceInstance →
  let userQuery := ChatRoute.userQueryOf messages in
  let needsRAG :=
    ragEnabled
    && ChatRoute.needsKnowledgeBase (ChatRoute.detectIntent userQuery) userQuery in
  let result := ChatRoute.relevantContextOf config ragEnabled messages ragServiceInstance in
  ∃ context,
    result.1 = Normal context ∧
    (needsRAG = false → context = "" ∧ result.2 = ragServiceInstance) ∧
    (needsRAG = true →
       ∃ this,
         result.2 = Some this ∧ isInitialized this = true ∧
         getRelevantContext userQuery (ChatRoute.recentHistoryOf messages) 3 this
         = (Normal context, this) ∧
         (ragServiceInstance = None →
            this = (initialize (ChatRoute.knowledgeBase config)
                      (ChatRoute.systemPrompt config) newRAGService).2) ∧
         (∀ this', ragServiceInstance = Some this' → this = this')).
Proof.
  intros Hserved%served_inv. cbv zeta.
  pose proof (relevantContextOf_step config ragEnabled messages _ Hserved) as Hstep.
  cbv zeta in Hstep. destruct (ragEnabled && _).
  - destruct Hstep as (kcs & prompt & context & -> & Hcontext & Hnew & Hold).
    exists context. split; [done|]. split; [done|]. intros _.
    exists (ready kcs prompt). split; [done|]. split; [done|]. split; [done|].
    split.
    + intros Hnone. destruct (Hnew Hnone) as [-> ->]. by rewrite initialize_new.
    + intros this' Hsome. symmetry. by apply Hold.
  - rewrite Hstep. exists "". split; [done|]. split; [done|]. done.
Qed.

Lemma relevantContextOf_served_witness :
  ∃ context,
    (ChatRoute.relevantContextOf
       {| ChatRoute.systemPrompt := "Be brief.";
          ChatRoute.knowledgeBase := [Examples.scenarioX; Examples.scenarioY] |}
       true
       [{| ChatRoute.role := "user"; ChatRoute.content := "How do I get a refund?" |}]
       None).1 = Normal context.
Proof.
  destruct (relevantContextOf_served
              {| ChatRoute.systemPrompt := "Be brief.";
                 ChatRoute.knowledgeBase := [Examples.scenarioX; Examples.scenarioY] |}
              true
              [{| ChatRoute.role := "user"; ChatRoute.content := "How do I get a refund?" |}]
              None served_start) as (context & Hcontext & _).
  exists context. exact Hcontext.
Defined.

(** X16.  Once the shared instance exists, the configuration that a request
    fetches is not read: whatever knowledge base and prompt it holds, the
    context is the same, and the instance stays as it is.  A change of the
    configuration does not reach the retrieval. *)
Theorem relevantContextOf_config_ignored (config config' : ChatRoute.Config)
    (ragEnabled : bool) (messages : list ChatRoute.Message)
    (ragServiceInstance : option RAGService) :
  served ragServiceInstance → is_Some ragServiceInstance →
  ChatRoute.relevantContextOf config ragEnabled messages ragServiceInstance
  = ChatRoute.relevantContextOf config' ragEnabled messages ragServiceInstance ∧
  (ChatRoute.relevantContextOf config ragEnabled messages ragServiceInstance).2
  = ragServiceInstance.
Proof.
  intros Hserved%served_inv [this Hthis].
  destruct Hserved as [->|(kcs & prompt & ->)]; [done|].
  unfold ChatRoute.relevantContextOf. destruct (ragEnabled && _); [|done].
  cbn [ChatRoute.getRagService]. rewrite !retrieve_ready.
  destruct (getRelevantContext_ready_normal kcs prompt (ChatRoute.userQueryOf messages)
              (ChatRoute.recentHistoryOf messages) 3) as [context ->].
  done.
Qed.

Lemma relevantContextOf_config_ignored_witness :
  ChatRoute.relevantContextOf
    {| ChatRoute.systemPrompt := "Be brief.";
       ChatRoute.knowledgeBase := [Examples.scenarioX; Examples.scenarioY] |}
    true [{| ChatRoute.role := "user"; ChatRoute.content := "What about login?" |}]
    (ChatRoute.relevantContextOf
       {| ChatRoute.systemPrompt := "Be brief.";
          ChatRoute.knowledgeBase := [Examples.scenarioX; Examples.scenarioY] |}
       true [{| ChatRoute.role := "user"; ChatRoute.content := "How do I get a refund?" |}]
       None).2
  = ChatRoute.relevantContextOf
      {| ChatRoute.systemPrompt := "Be verbose.";
         ChatRoute.knowledgeBase := [Examples.billing] |}
      true [{| ChatRoute.role := "user"; ChatRoute.content := "What about login?" |}]
      (ChatRoute.relevantContextOf
         {| ChatRoute.systemPrompt := "Be brief.";
            ChatRoute.knowledgeBase := [Examples.scenarioX; Examples.scenarioY] |}
         true [{| ChatRoute.role := "user"; ChatRoute.content := "How do I get a refund?" |}]
         None).2.
Proof.
  apply relevantContextOf_config_ignored.
  - apply served_request, served_start.
  - vm_compute. eexists. reflexivity.
Defined.

End RouteStatements.

(** ** The cache *)

Section CacheFacts.
Import Performance Props.
Context {T : Type}.

Lemma get_miss (this : SimpleCache T) (now : Z) (key : string) :
  cache this !! key = None → get now key this = (None, this).
Proof. intros H. unfold get. by rewrite H. Qed.

Lemma get_fresh (this : SimpleCache T) (now : Z) (key : string) (item : Item T) :
  cache this !! key = Some item → now - timestamp item ≤ ttl this →
  get now key this = (Some (value item), this).
Proof.
  intros H Hfresh. unfold get. rewrite H.
  by destruct (Z.ltb_spec (ttl this) (now - timestamp item)); [lia|].
Qed.

Lemma get_expired (this : SimpleCache T) (now : Z) (key : string) (item : Item T) :
  cache this !! key = Some item → ttl this < now - timestamp item →
  get now key this = (None, {| cache := delete key (cache this); ttl := ttl this |}).
Proof.
  intros H Hold. unfold get. rewrite H.
  by destruct (Z.ltb_spec (ttl this) (now - timestamp item)); [|lia].
Qed.

Lemma lastSet_snoc (key : string) (calls : list (CacheCall T)) (c : CacheCall T) :
  lastSet key (calls ++ [c])
  = match c with
    | CallSet now key' v => if String.eqb key' key then Some (now, v) else lastSet key calls
    | CallGet _ _ => lastSet key calls
    | CallClear => None
    end.
Proof. unfold lastSet. by rewrite foldl_app. Qed.

(** What the cache holds after a sequence of calls: an entry is the last
    value set for its key; a key without an entry was never set since the
    cache was cleared last, or a [get] has found its last value expired. *)
Lemma calls_inv (ttl0 : Z) (calls : list (CacheCall T)) :
  let this := foldl call (newSimpleCache ttl0) calls in
  ttl this = ttl0 ∧
  ∀ key,
    match cache this !! key with
    | Some item => lastSet key calls = Some (timestamp item, value item)
    | None =>
        lastSet key calls = None ∨
        ∃ t v t', lastSet key calls = Some (t, v) ∧
                  Some t' ∈ callTime <$> calls ∧ ttl0 < t' - t
    end.
Proof.
  induction calls as [|c calls IH] using rev_ind; cbv zeta.
  { split; [done|]. intros key. cbn. rewrite lookup_empty. by left. }
  cbv zeta in IH. destruct IH as [Httl IH].
  rewrite foldl_app. cbn [foldl].
  set (this := foldl call (newSimpleCache ttl0) calls) in *.
  assert (Hlater : ∀ key,
            (lastSet key calls = None ∨
             ∃ t v t', lastSet key calls = Some (t, v) ∧
                       Some t' ∈ callTime <$> calls ∧ ttl0 < t' - t) →
            lastSet key calls = None ∨
            ∃ t v t', lastSet key calls = Some (t, v) ∧
                      Some t' ∈ callTime <$> (calls ++ [c]) ∧ ttl0 < t' - t).
  { intros key [?|(t & v & t' & ? & Ht' & ?)]; [by left|right].
    exists t, v, t'. split; [done|]. split; [|done].
    rewrite fmap_app. apply elem_of_app. by left. }
  destruct c as [now key' v|now key'|]; cbn [call].
  - split; [done|]. intros key. rewrite lastSet_snoc. cbn [set cache].
    destruct (String.eqb_spec key' key) as [->|Hne].
    + by rewrite lookup_insert_eq.
    + rewrite lookup_insert_ne by done. specialize (IH key).
      destruct (cache this !! key); [done|]. by apply Hlater.
  - destruct (cache this !! key') as [item|] eqn:Hitem.
    + destruct (Z.lt_ge_cases (ttl this) (now - timestamp item)) as [Hold|Hfresh].
      * rewrite (get_expired this now key' item Hitem Hold). cbn [snd ttl cache].
        split; [done|]. intros key. rewrite lastSet_snoc.
        destruct (decide (key' = key)) as [<-|Hne].
        -- rewrite lookup_delete_eq. right. specialize (IH key'). rewrite Hitem in IH.
           exists (timestamp item), (value item), now. split; [done|].
           split; [|lia].
           rewrite fmap_app. apply elem_of_app. right. apply list_elem_of_here.
        -- rewrite lookup_delete_ne by done. specialize (IH key).
           destruct (cache this !! key); [done|]. by apply Hlater.
      * rewrite (get_fresh this now key' item Hitem) by lia. cbn [snd].
        split; [done|]. intros key. rewrite lastSet_snoc. specialize (IH key).
        destruct (cache this !! key); [done|]. by apply Hlater.
    + rewrite (get_miss this now key' Hitem). cbn [snd].
      split; [done|]. intros key. rewrite lastSet_snoc. specialize (IH key).
      destruct (cache this !! key); [done|]. by apply Hlater.
  - split; [done|]. intros key. rewrite lastSet_snoc. cbn [clear cache].
    rewrite lookup_empty. by left.
Qed.

End CacheFacts.

Section CacheStatements.
Import Performance Props.
Context {T : Type}.

(** X17.  A value that was set is read back while it is fresh: a [get] of
    the key no more than the time to live later returns it and leaves the
    cache as it is.  A [get] that comes later than that returns [null] and
    removes the entry, so that every [get] of the key returns [null] from
    then on, whatever the clock shows, until the key is set again. *)
Theorem SimpleCache_get_set (this : SimpleCache T) (key : string) (v : T) (now now' : Z) :
  (now' - now ≤ ttl this →
     get now' key (set now key v this) = (Some v, set now key v this)) ∧
  (ttl this < now' - now →
     (get now' key (set now key v this)).1 = None ∧
     ∀ now'', (get now'' key (get now' key (set now key v this)).2).1 = None).
Proof.
  assert (Hitem : cache (set now key v this) !! key
                  = Some {| value := v; timestamp := now |}).
  { cbn [set cache]. apply lookup_insert_eq. }
  split.
  - intros Hfresh. by rewrite (get_fresh _ _ _ _ Hitem).
  - intros Hold. rewrite (get_expired _ _ _ _ Hitem) by done. split; [done|].
    intros now''. cbn [snd]. rewrite get_miss; [done|].
    cbn [cache]. apply lookup_delete_eq.
Qed.

(** X18.  The keys of a cache are independent: setting a key, or reading
    it, expired or not, does not change what a [get] of another key returns.
    After [clear] every key reads as [null]. *)
Theorem SimpleCache_other_keys (this : SimpleCache T) (key key' : string) (v : T)
    (now now' : Z) :
  key ≠ key' →
  (get now' key' (set now key v this)).1 = (get now' key' this).1 ∧
  (get now' key' (get now key this).2).1 = (get now' key' this).1 ∧
  (get now' key' (clear this)).1 = None.
Proof.
  intros Hne. split; [|split].
  - unfold get. cbn [set cache ttl]. rewrite lookup_insert_ne by done.
    destruct (cache this !! key') as [item|]; [|done].
    by destruct (ttl this <? now' - timestamp item).
  - assert (Hsame : cache (get now key this).2 !! key' = cache this !! key'
                    ∧ ttl (get now key this).2 = ttl this).
    { unfold get. destruct (cache this !! key) as [item|]; [|done].
      destruct (ttl this <? now - timestamp item); [|done].
      cbn [snd cache ttl]. by rewrite lookup_delete_ne. }
    destruct Hsame as [Hcache Httl]. unfold get at 1 3. rewrite Hcache, Httl.
    destruct (cache this !! key') as [item|]; [|done].
    by destruct (ttl this <? now' - timestamp item).
  - rewrite get_miss; [done|]. cbn [clear cache]. apply lookup_empty.
Qed.

(** X19.  What a [get] returns after any sequence of calls on a new cache,
    when the clock does not show less than at an earlier call: the value set
    last for the key, if the cache was not cleared since and the value was
    set no more than the time to live ago; [null] otherwise.  That an
    expired entry is removed by a [get] is not observable. *)
Theorem SimpleCache_get_last (ttlMs : Z) (calls : list (CacheCall T)) (now : Z)
    (key : string) :
  (∀ t, Some t ∈ callTime <$> calls → t ≤ now) →
  (get now key (foldl call (newSimpleCache ttlMs) calls)).1
  = match lastSet key calls with
    | Some (t, v) => if ttlMs <? now - t then None else Some v
    | None => None
    end.
Proof.
  intros Hclock. destruct (calls_inv ttlMs calls) as [Httl Hinv].
  cbv zeta in Httl. specialize (Hinv key). cbv zeta in Hinv.
  set (this := foldl call (newSimpleCache ttlMs) calls) in *.
  unfold get. destruct (cache this !! key) as [item|].
  - rewrite Hinv, Httl. by destruct (ttlMs <? now - timestamp item).
  - destruct Hinv as [->|(t & v & t' & -> & Ht' & Hold)]; [done|].
    apply Hclock in Ht'. by destruct (Z.ltb_spec ttlMs (now - t)); [|lia].
Qed.

End CacheStatements.

Lemma SimpleCache_get_set_witness :
  Performance.get 1000 "answer" (Performance.set 0 "answer" "42"
                                   (Performance.newSimpleCache Performance.defaultTtl))
  = (Some "42", Performance.set 0 "answer" "42"
                  (Performance.newSimpleCache Performance.defaultTtl)) ∧
  (Performance.get 300001 "answer"
     (Performance.set 0 "answer" "42"
        (Performance.newSimpleCache Performance.defaultTtl))).1 = None.
Proof.
  split.
  - apply (SimpleCache_get_set (Performance.newSimpleCache Performance.defaultTtl)
             "answer" "42" 0 1000). vm_compute. discriminate.
  - apply (SimpleCache_get_set (Performance.newSimpleCache Performance.defaultTtl)
             "answer" "42" 0 300001). vm_compute. reflexivity.
Defined.

Lemma SimpleCache_other_keys_witness :
  (Performance.get 1 "b" (Performance.set 0 "a" "x" (Performance.newSimpleCache 10))).1
  = (Performance.get 1 "b" (Performance.newSimpleCache (T := string) 10)).1.
Proof.
  apply (SimpleCache_other_keys (Performance.newSimpleCache 10) "a" "b" "x" 0 1).
  discriminate.
Defined.

Lemma SimpleCache_get_last_witness :
  (Performance.get 600000 "k"
     (foldl Props.call (Performance.newSimpleCache Performance.defaultTtl)
        [Props.CallSet 0 "k" "v"; Props.CallGet 400000 "k";
         Props.CallSet 500000 "k" "w"])).1
  = Some "w".
Proof.
  apply (SimpleCache_get_last Performance.defaultTtl
           [Props.CallSet 0 "k" "v"; Props.CallGet 400000 "k";
            Props.CallSet 500000 "k" "w"] 600000 "k").
  intros t Ht. cbn in Ht.
  repeat (apply elem_of_cons in Ht as [[= ->]|Ht]; [lia|]).
  by apply elem_of_nil in Ht.
Defined.

(** ** The chunking of a text *)

Section ChunkFacts.
Import Js JsText RagChunking.

Lemma prefix_refl (s : string) : String.prefix s s = true.
Proof.
  induction s as [|c s IH]; cbn; [done|]. by destruct (ascii_dec c c).
Qed.

Lemma prefix_app_l (x s t : string) :
  String.prefix x s = true → String.prefix x (s +:+ t) = true.
Proof.
  revert s. induction x as [|a x IH]; intros s.
  - intros _. by destruct (s +:+ t).
  - destruct s as [|c s]; [done|].
    change (String c s +:+ t) with (String c (s +:+ t)). cbn [String.prefix].
    destruct (ascii_dec a c); [apply IH|done].
Qed.

Lemma includes_app_r (s sub : string) : includes (s +:+ sub) sub = true.
Proof.
  induction s as [|c s IH].
  - change ("" +:+ sub) with sub. destruct sub; cbn; [done|].
    destruct (ascii_dec _ _); [|done]. by rewrite prefix_refl.
  - change (String c s +:+ sub) with (String c (s +:+ sub)). cbn [includes].
    rewrite IH. apply orb_true_r.
Qed.

Lemma includes_app_l (s t x : string) :
  includes s x = true → includes (s +:+ t) x = true.
Proof.
  induction s as [|c s IH].
  - destruct x; cbn; [|done]. intros _. by destruct t.
  - change (String c s +:+ t) with (String c (s +:+ t)). cbn [includes].
    intros [Hp|Hi]%orb_true_iff.
    + apply (prefix_app_l _ _ t) in Hp.
      change (String c s +:+ t) with (String c (s +:+ t)) in Hp. by rewrite Hp.
    + rewrite (IH Hi). apply orb_true_r.
Qed.

Lemma strlen_pos (s : string) : (0 <? strlen s) = true ↔ s ≠ "".
Proof.
  unfold strlen. destruct s; cbn [String.length]; split; done.
Qed.

Lemma strlen_zero (s : string) : (0 <? strlen s) = false ↔ s = "".
Proof.
  unfold strlen. destruct s; cbn [String.length]; split; done.
Qed.

(** One turn of the loop keeps what the chunks and the current chunk hold. *)
Lemma addParagraph_inv (chunkSize overlap : Z) (done : list string)
    (chunks : list string) (cur p : string) :
  (∀ c, c ∈ chunks → c ≠ "") →
  (∀ x, x ∈ done → x ≠ "" →
     (∃ c, c ∈ chunks ∧ includes c x = true) ∨ includes cur x = true) →
  (length chunks + (if (0 <? strlen cur)%Z then 1 else 0) ≤ length done)%nat →
  ∃ chunks' cur',
    addParagraph chunkSize overlap (chunks, cur) p = (chunks', cur') ∧
    (∀ c, c ∈ chunks' → c ≠ "") ∧
    (∀ x, x ∈ done ++ [p] → x ≠ "" →
       (∃ c, c ∈ chunks' ∧ includes c x = true) ∨ includes cur' x = true) ∧
    (length chunks' + (if (0 <? strlen cur')%Z then 1 else 0) ≤ length (done ++ [p]))%nat.
Proof.
  intros Hne Hcover Hcount. unfold addParagraph.
  set (over := (chunkSize <? strlen cur + strlen p) && (0 <? strlen cur)).
  set (chunks1 := if over then chunks ++ [cur] else chunks).
  set (cur1 := if over then overlapOf overlap cur else cur).
  set (cur2 := (if 0 <? strlen cur1 then cur1 +:+ paragraphSeparator else cur1) +:+ p).
  exists chunks1, cur2. split; [unfold chunks1, cur2, cur1; by destruct over|].
  assert (Hp : includes cur2 p = true) by apply includes_app_r.
  assert (Hkeep : ∀ x, includes cur1 x = true → includes cur2 x = true).
  { intros x Hx. unfold cur2. apply includes_app_l.
    destruct (0 <? strlen cur1); [by apply includes_app_l|done]. }
  rewrite length_app. cbn [length].
  destruct over eqn:Hover; subst chunks1 cur1.
  - apply andb_true_iff in Hover as [_ Hcur]. split; [|split].
    + intros c [Hc|Hc%list_elem_of_singleton]%elem_of_app; [by apply Hne|].
      subst c. by apply strlen_pos.
    + intros x [Hx|Hx%list_elem_of_singleton]%elem_of_app Hnonempty;
        [|subst x; by right].
      left. destruct (Hcover x Hx Hnonempty) as [(c & Hc & Hcx)|Hcx].
      * exists c. split; [apply elem_of_app; by left|done].
      * exists cur. split; [apply elem_of_app; right; apply list_elem_of_here|done].
    + rewrite length_app. cbn [length]. rewrite Hcur in Hcount.
      destruct (0 <? strlen cur2); lia.
  - split; [done|]. split.
    + intros x [Hx|Hx%list_elem_of_singleton]%elem_of_app Hnonempty;
        [|subst x; by right].
      destruct (Hcover x Hx Hnonempty) as [?|Hcx]; [by left|right]. by apply Hkeep.
    + destruct (0 <? strlen cur) eqn:Hcur.
      * destruct (0 <? strlen cur2); lia.
      * destruct (0 <? strlen cur2); lia.
Qed.

Lemma foldl_addParagraph_inv (chunkSize overlap : Z) (ps : list string) :
  ∀ (done chunks : list string) (cur : string),
  (∀ c, c ∈ chunks → c ≠ "") →
  (∀ x, x ∈ done → x ≠ "" →
     (∃ c, c ∈ chunks ∧ includes c x = true) ∨ includes cur x = true) →
  (length chunks + (if (0 <? strlen cur)%Z then 1 else 0) ≤ length done)%nat →
  ∃ chunks' cur',
    foldl (addParagraph chunkSize overlap) (chunks, cur) ps = (chunks', cur') ∧
    (∀ c, c ∈ chunks' → c ≠ "") ∧
    (∀ x, x ∈ done ++ ps → x ≠ "" →
       (∃ c, c ∈ chunks' ∧ includes c x = true) ∨ includes cur' x = true) ∧
    (length chunks' + (if (0 <? strlen cur')%Z then 1 else 0) ≤ length (done ++ ps))%nat.
Proof.
  induction ps as [|p ps IH]; intros done chunks cur Hne Hcover Hcount.
  - exists chunks, cur. rewrite app_nil_r. done.
  - destruct (addParagraph_inv chunkSize overlap done chunks cur p Hne Hcover Hcount)
      as (chunks1 & cur1 & Hstep & Hne1 & Hcover1 & Hcount1).
    destruct (IH (done ++ [p]) chunks1 cur1 Hne1 Hcover1 Hcount1)
      as (chunks' & cur' & Hrun & Hresult).
    exists chunks', cur'. cbn [foldl]. rewrite Hstep, Hrun.
    split; [done|]. by rewrite <- app_assoc in Hresult.
Qed.

End ChunkFacts.

Section ChunkStatements.
Import Js JsText RagChunking.

(** X20.  [chunkText] returns a text that is not longer than [chunkSize] as
    its only chunk.  Of a longer text it returns chunks none of which is
    empty, at most as many as the text has paragraphs, and no paragraph is
    cut: every paragraph that is not empty is found whole in a chunk. *)
Theorem chunkText_paragraphs (text : string) (chunkSize overlap : Z) :
  (strlen text ≤ chunkSize → chunkText text chunkSize overlap = [text]) ∧
  (chunkSize < strlen text →
     let chunks := chunkText text chunkSize overlap in
     (∀ c, c ∈ chunks → c ≠ "") ∧
     (∀ p, p ∈ paragraphsOf text → p ≠ "" → ∃ c, c ∈ chunks ∧ includes c p = true) ∧
     (length chunks ≤ length (paragraphsOf text))%nat).
Proof.
  unfold chunkText. split.
  - intros Hshort. by destruct (Z.leb_spec (strlen text) chunkSize); [|lia].
  - intros Hlong. destruct (Z.leb_spec (strlen text) chunkSize); [lia|]. cbv zeta.
    destruct (foldl_addParagraph_inv chunkSize overlap (paragraphsOf text) [] [] "")
      as (chunks & cur & -> & Hne & Hcover & Hcount).
    { by intros c ?%elem_of_nil. }
    { by intros x ?%elem_of_nil. }
    { vm_compute. lia. }
    cbn [app] in Hcover, Hcount.
    destruct (0 <? strlen cur) eqn:Hcur.
    + split; [|split].
      * intros c [Hc|Hc%list_elem_of_singleton]%elem_of_app; [by apply Hne|].
        subst c. by apply strlen_pos.
      * intros p Hp Hnonempty.
        destruct (Hcover p Hp Hnonempty) as [(c & Hc & Hcp)|Hcp].
        -- exists c. split; [apply elem_of_app; by left|done].
        -- exists cur. split; [apply elem_of_app; right; apply list_elem_of_here|done].
      * rewrite length_app. cbn [length]. lia.
    + apply strlen_zero in Hcur as ->. split; [done|]. split; [|lia].
      intros p Hp Hnonempty.
      destruct (Hcover p Hp Hnonempty) as [?|Hcp]; [done|].
      destruct p; [done|]. cbn in Hcp. done.
Qed.

Lemma chunkText_paragraphs_witness :
  chunkText "abc" 3 200 = ["abc"] ∧
  ∃ c, c ∈ chunkText ("One. Two. Three. Four." +:+ paragraphSeparator +:+ "Five six seven.")
             25 200 ∧
       includes c "Five six seven." = true.
Proof.
  split.
  - apply (chunkText_paragraphs "abc" 3 200). vm_compute. discriminate.
  - apply (chunkText_paragraphs
             ("One. Two. Three. Four." +:+ paragraphSeparator +:+ "Five six seven.") 25 200).
    + vm_compute. reflexivity.
    + vm_compute. apply list_elem_of_further, list_elem_of_here.
    + discriminate.
Defined.

End ChunkStatements.

(** ** The stored conversation *)

Section NumberFacts.
Import Js JsText JsNumber.

Lemma digit_cases (d : Z) :
  0 ≤ d < 10 →
  d = 0 ∨ d = 1 ∨ d = 2 ∨ d = 3 ∨ d = 4 ∨ d = 5 ∨ d = 6 ∨ d = 7 ∨ d = 8 ∨ d = 9.
Proof. lia. Qed.

Lemma digitValue_digitChar (d : Z) : 0 ≤ d < 10 → digitValue (digitChar d) = Some d.
Proof.
  intros Hd. destruct (digit_cases d Hd) as [->|[->|[->|[->|[->|[->|[->|[->|[->| ->]]]]]]]]];
    reflexivity.
Qed.

(** A digit is no white space, no sign and no [x]. *)
Lemma digitChar_plain (d : Z) :
  0 ≤ d < 10 →
  isWhiteSpace (digitChar d) = false ∧
  Ascii.eqb (digitChar d) "-" = false ∧ Ascii.eqb (digitChar d) "+" = false ∧
  Ascii.eqb (digitChar d) "x" = false ∧ Ascii.eqb (digitChar d) "X" = false.
Proof.
  intros Hd. destruct (digit_cases d Hd) as [->|[->|[->|[->|[->|[->|[->|[->|[->| ->]]]]]]]]];
    repeat split; reflexivity.
Qed.

Lemma parseDigits_digit (d : Z) (acc : option Z) (rest : string) :
  0 ≤ d < 10 →
  parseDigits 10 acc (String (digitChar d) rest)
  = parseDigits 10 (Some (default 0 acc * 10 + d)) rest.
Proof.
  intros Hd. cbn [parseDigits]. rewrite digitValue_digitChar by done.
  by destruct (Z.ltb_spec d 10); [|lia].
Qed.

Lemma parseDigits_digitsOf (fuel : nat) : ∀ n rest,
  0 ≤ n < 10 * 2 ^ Z.of_nat fuel →
  parseDigits 10 None (digitsOf fuel n rest) = parseDigits 10 (Some n) rest.
Proof.
  induction fuel as [|fuel IH]; intros n rest Hn.
  - cbn [digitsOf]. change (2 ^ Z.of_nat 0) with 1 in Hn.
    rewrite Z.mod_small by lia. rewrite parseDigits_digit by lia. done.
  - cbn [digitsOf]. destruct (Z.ltb_spec n 10) as [Hsmall|Hbig].
    + rewrite Z.mod_small by lia. rewrite parseDigits_digit by lia. done.
    + rewrite Nat2Z.inj_succ, Z.pow_succ_r in Hn by lia.
      rewrite IH.
      2:{ split; [apply Z.div_pos; lia|].
          apply Z.div_lt_upper_bound; lia. }
      rewrite parseDigits_digit by (apply Z.mod_pos_bound; lia).
      cbn [default]. unfold Datatypes.id. do 2 f_equal.
      pose proof (Z.div_mod n 10 ltac:(lia)). lia.
Qed.

Lemma digitsOf_head (fuel : nat) : ∀ n rest,
  0 ≤ n →
  ∃ d tail,
    0 ≤ d < 10 ∧ digitsOf fuel n rest = String (digitChar d) tail ∧
    (tail = rest ∨ ∃ d' tail', 0 ≤ d' < 10 ∧ tail = String (digitChar d') tail').
Proof.
  induction fuel as [|fuel IH]; intros n rest Hn.
  - exists (n mod 10), rest. split; [apply Z.mod_pos_bound; lia|]. split; [done|by left].
  - cbn [digitsOf]. destruct (Z.ltb_spec n 10) as [Hsmall|Hbig].
    + exists (n mod 10), rest. split; [apply Z.mod_pos_bound; lia|].
      split; [done|by left].
    + destruct (IH (n / 10) (String (digitChar (n mod 10)) rest))
        as (d & tail & Hd & Heq & Htail); [apply Z.div_pos; lia|].
      exists d, tail. split; [done|]. split; [done|]. right.
      destruct Htail as [->|?]; [|done].
      exists (n mod 10), rest. split; [apply Z.mod_pos_bound; lia|done].
Qed.

Lemma log2_fuel (n : Z) : 0 ≤ n → 0 ≤ n < 10 * 2 ^ Z.of_nat (Z.to_nat (Z.log2 n)).
Proof.
  intros Hn. split; [done|]. rewrite Z2Nat.id by apply Z.log2_nonneg.
  destruct (Z.eq_dec n 0) as [->|Hne]; [done|].
  pose proof (Z.log2_spec n ltac:(lia)) as [_ Hlt].
  rewrite Z.pow_succ_r in Hlt by apply Z.log2_nonneg. lia.
Qed.

(** The digits of a number that is not negative are read as that number. *)
Lemma parseUnsigned (n : Z) (sign : Z) :
  0 ≤ n →
  let s := digitsOf (Z.to_nat (Z.log2 n)) n EmptyString in
  (let '(radix, s) :=
     match s with
     | String c1 (String c2 s') =>
         if Ascii.eqb c1 "0" && (Ascii.eqb c2 "x" || Ascii.eqb c2 "X")
         then (16, s')
         else (10, s)
     | _ => (10, s)
     end in
   (λ n, sign * n) <$> parseDigits radix None s) = Some (sign * n).
Proof.
  intros Hn. cbv zeta.
  pose proof (parseDigits_digitsOf _ n EmptyString (log2_fuel n Hn)) as Hdigits.
  destruct (digitsOf_head (Z.to_nat (Z.log2 n)) n EmptyString Hn)
    as (d & tail & Hd & Heq & Htail).
  rewrite Heq in *.
  destruct Htail as [->|(d' & tail' & Hd' & ->)].
  - by rewrite Hdigits.
  - destruct (digitChar_plain d' Hd') as (_ & _ & _ & -> & ->).
    rewrite andb_false_r. by rewrite Hdigits.
Qed.

(** What [toString] writes of an integer, [parseInt] reads. *)
Lemma parseInt_toString (z : Z) : parseInt (toString z) = Some z.
Proof.
  unfold toString. destruct (Z.ltb_spec z 0) as [Hneg|Hpos].
  - unfold parseInt. cbn [trimStart]. change (isWhiteSpace "-") with false.
    cbv iota. change (Ascii.eqb "-" "-") with true. cbv iota.
    pose proof (parseUnsigned (- z) (-1) ltac:(lia)) as H. cbv zeta in H.
    rewrite H. f_equal. lia.
  - destruct (digitsOf_head (Z.to_nat (Z.log2 z)) z EmptyString Hpos)
      as (d & tail & Hd & Heq & _).
    destruct (digitChar_plain d Hd) as (Hspace & Hminus & Hplus & _).
    unfold parseInt. rewrite Heq. cbn [trimStart]. rewrite Hspace, Hminus, Hplus.
    pose proof (parseUnsigned z 1 Hpos) as H. cbv zeta in H. rewrite Heq in H.
    etransitivity; [exact H|]. f_equal. lia.
Qed.

Lemma toString_nonempty (z : Z) : String.eqb (toString z) "" = false.
Proof.
  unfold toString. destruct (Z.ltb_spec z 0) as [Hneg|Hpos]; [done|].
  by destruct (digitsOf_head (Z.to_nat (Z.log2 z)) z EmptyString Hpos)
    as (d & tail & _ & -> & _).
Qed.

End NumberFacts.

Section ConversationFacts.
Import Js JsText JsNumber ConversationUtils Props.
Context {Message : Type}.
Context (stringify : list Message → string).
Context (parse : string → completion (list Message)).

Lemma saved_time (now : Z) (messages : list Message) (items : gmap string string) :
  ∃ items',
    saveConversation stringify now messages (Some items) = Some items' ∧
    items' !! "last_interaction_time" = Some (toString now) ∧
    items' !! "chat_messages"
    = Some (stringify (drop (length messages - 20) messages)).
Proof.
  eexists. split; [reflexivity|]. split.
  - apply lookup_insert_eq.
  - rewrite lookup_insert_ne by done. rewrite lookup_insert_eq. do 2 f_equal.
    unfold MAX_MESSAGES. destruct (Z.ltb_spec 20 (Z.of_nat (length messages))).
    + replace (Z.of_nat (length messages) - 20)
        with (Z.of_nat (length messages - 20)) by lia.
      apply sliceFrom_drop. lia.
    + by replace (length messages - 20)%nat with 0%nat by lia.
Qed.

Lemma read_time (now now' : Z) (items : gmap string string) :
  items !! "last_interaction_time" = Some (toString now) →
  shouldClearConversation now' (Some items) = (86400000 <? now' - now) ∧
  getConversationAge now' (Some items) = Some (now' - now).
Proof.
  intros Htime. unfold shouldClearConversation, getConversationAge.
  by rewrite Htime, toString_nonempty, parseInt_toString.
Qed.

Lemma read_messages (messages : list Message) (items : gmap string string) :
  (∀ ms, parse (stringify ms) = Normal ms) →
  (∀ ms, stringify ms ≠ "") →
  items !! "chat_messages" = Some (stringify messages) →
  loadConversation parse (Some items) = messages.
Proof.
  intros Hcodec Hnonempty Hitem. unfold loadConversation. rewrite Hitem, Hcodec.
  destruct (String.eqb_spec (stringify messages) ""); [|done].
  by destruct (Hnonempty messages).
Qed.

End ConversationFacts.

Lemma parse_stringify_units (ms : list unit) :
  Props.parseUnits (Props.stringifyUnits ms) = Js.Normal ms.
Proof.
  unfold Props.parseUnits, Props.stringifyUnits. f_equal. cbn [String.length].
  rewrite Nat.sub_1_r. cbn [Nat.pred].
  induction ms as [|[] ms IH]; cbn; [done|]. by rewrite IH.
Qed.

Section ConversationStatements.
Import Js JsText JsNumber ConversationUtils Props.
Context {Message : Type}.
Context (stringify : list Message → string).
Context (parse : string → completion (list Message)).

(** X21.  A conversation that was saved at the time [now] is to be cleared
    at the time [now'] exactly when more than 24 hours, 86400000
    milliseconds, have passed between the two, and its age is the time
    passed between the two: both count from the last time the conversation
    was saved, whatever the storage held before.  [clearConversation] does
    not reset them. *)
Theorem conversation_expiry (now now' : Z) (messages : list Message)
    (items : gmap string string) :
  let localStorage := saveConversation stringify now messages (Some items) in
  shouldClearConversation now' localStorage = (86400000 <? now' - now) ∧
  getConversationAge now' localStorage = Some (now' - now) ∧
  shouldClearConversation now' (clearConversation localStorage)
  = (86400000 <? now' - now) ∧
  getConversationAge now' (clearConversation localStorage) = Some (now' - now).
Proof.
  cbv zeta. destruct (saved_time stringify now messages items)
    as (items' & -> & Htime & _).
  destruct (read_time now now' items' Htime) as [Hclear Hage].
  assert (Htime' : delete "chat_messages" items' !! "last_interaction_time"
                   = Some (toString now)) by (by rewrite lookup_delete_ne).
  destruct (read_time now now' _ Htime') as [Hclear' Hage'].
  done.
Qed.

(** X22.  What [saveConversation] stores, [loadConversation] reads back:
    the last 20 messages of the conversation, in their order, when
    [JSON.parse] reads what [JSON.stringify] writes.  After
    [clearConversation] there is no conversation to load, and on the server
    nothing is stored and nothing is loaded. *)
Theorem conversation_round_trip (now : Z) (messages : list Message)
    (items : gmap string string) :
  (∀ ms, parse (stringify ms) = Normal ms) →
  (∀ ms, stringify ms ≠ "") →
  let localStorage := saveConversation stringify now messages (Some items) in
  loadConversation parse localStorage = drop (length messages - 20) messages ∧
  loadConversation parse (clearConversation localStorage) = [] ∧
  saveConversation stringify now messages None = None ∧
  loadConversation parse None = [].
Proof.
  intros Hcodec Hnonempty. cbv zeta.
  destruct (saved_time stringify now messages items) as (items' & -> & _ & Hitem).
  split; [by apply (read_messages stringify parse)|].
  split; [|done].
  unfold clearConversation, loadConversation. by rewrite lookup_delete_eq.
Qed.

(** X23.  The messages that the chat interface starts with when the
    conversation was saved last at the time [now]: the last 20 messages of
    the conversation if no more than 24 hours have passed; none otherwise,
    and the stored conversation is removed.  As the time of the last save
    stays in the storage, the interface then starts empty at every later
    time, until a conversation is saved again. *)
Theorem initialMessages_expiry (now now' : Z) (messages : list Message)
    (items : gmap string string) :
  (∀ ms, parse (stringify ms) = Normal ms) →
  (∀ ms, stringify ms ≠ "") →
  let localStorage := saveConversation stringify now messages (Some items) in
  (now' - now ≤ 86400000 →
     initialMessages parse now' localStorage
     = (drop (length messages - 20) messages, localStorage)) ∧
  (86400000 < now' - now →
     initialMessages parse now' localStorage = ([], clearConversation localStorage) ∧
     ∀ now'', now' ≤ now'' →
       initialMessages parse now'' (clearConversation localStorage)
       = ([], clearConversation localStorage)).
Proof.
  intros Hcodec Hnonempty. cbv zeta.
  destruct (saved_time stringify now messages items) as (items' & -> & Htime & Hitem).
  assert (Htime' : delete "chat_messages" items' !! "last_interaction_time"
                   = Some (toString now)) by (by rewrite lookup_delete_ne).
  split.
  - intros Hfresh. unfold initialMessages.
    destruct (read_time now now' items' Htime) as [-> _].
    destruct (Z.ltb_spec 86400000 (now' - now)); [lia|]. rewrite andb_false_r.
    by rewrite (read_messages stringify parse _ items' Hcodec Hnonempty Hitem).
  - intros Hold. split.
    + unfold initialMessages. destruct (read_time now now' items' Htime) as [-> _].
      by destruct (Z.ltb_spec 86400000 (now' - now)); [|lia].
    + intros now'' Hlater. unfold initialMessages. cbn [clearConversation].
      destruct (read_time now now'' _ Htime') as [-> _].
      destruct (Z.ltb_spec 86400000 (now'' - now)); [|lia].
      cbn. do 2 f_equal. apply delete_delete_eq.
Qed.

End ConversationStatements.

Lemma conversation_round_trip_witness :
  ConversationUtils.loadConversation Props.parseUnits
    (ConversationUtils.saveConversation Props.stringifyUnits 1700000000000
       (replicate 25 ()) (Some ∅))
  = drop (length (replicate 25 ()) - 20) (replicate 25 ()).
Proof.
  destruct (conversation_round_trip Props.stringifyUnits Props.parseUnits 1700000000000
              (replicate 25 ()) ∅) as [Hload _].
  - apply parse_stringify_units.
  - intros ms. discriminate.
  - exact Hload.
Defined.

Lemma initialMessages_expiry_witness :
  ConversationUtils.initialMessages Props.parseUnits 1700086400001
    (ConversationUtils.saveConversation Props.stringifyUnits 1700000000000 [(); ()]
       (Some ∅))
  = ([], ConversationUtils.clearConversation
           (ConversationUtils.saveConversation Props.stringifyUnits 1700000000000
              [(); ()] (Some ∅))).
Proof.
  destruct (initialMessages_expiry Props.stringifyUnits Props.parseUnits
              1700000000000 1700086400001 [(); ()] ∅) as [_ Hold].
  - apply parse_stringify_units.
  - intros ms. discriminate.
  - destruct Hold as [Hstart _]; [lia|]. exact Hstart.
Defined.

(** ** The case of the letters and the ranking of the plain search *)

Section CaseFacts.
Import Js RagUtils RagService RagSearch Spec Props.

Lemma toLowerCaseUnit_idem (c : ascii) :
  toLowerCaseUnit (toLowerCaseUnit c) = toLowerCaseUnit c.
Proof.
  pose proof (forallb_ascii
    (λ c, Ascii.eqb (toLowerCaseUnit (toLowerCaseUnit c)) (toLowerCaseUnit c))) as H.
  specialize (H ltac:(vm_compute; reflexivity) c). by apply Ascii.eqb_eq in H.
Qed.

Lemma toLowerCase_idem (s : string) : toLowerCase (toLowerCase s) = toLowerCase s.
Proof.
  induction s as [|c s IH]; [done|]. cbn [toLowerCase].
  by rewrite toLowerCaseUnit_idem, IH.
Qed.

Lemma toLowerCase_app (s t : string) :
  toLowerCase (s +:+ t) = toLowerCase s +:+ toLowerCase t.
Proof.
  induction s as [|c s IH]; [done|].
  change (String c s +:+ t) with (String c (s +:+ t)). cbn [toLowerCase].
  by rewrite IH.
Qed.

Lemma createSimpleEmbedding_lower (text : string) :
  createSimpleEmbedding (toLowerCase text) = createSimpleEmbedding text.
Proof. unfold createSimpleEmbedding. by rewrite toLowerCase_idem. Qed.

Lemma extractKeywords_lower (text : string) :
  extractKeywords (toLowerCase text) = extractKeywords text.
Proof. unfold extractKeywords, wordCounts, words. by rewrite toLowerCase_idem. Qed.

Lemma boostedSimilarities_lower (this : RAGService) (combinedQuery : string) :
  boostedSimilarities this (toLowerCase combinedQuery)
  = boostedSimilarities this combinedQuery.
Proof.
  unfold boostedSimilarities.
  rewrite createSimpleEmbedding_lower, extractKeywords_lower.
  destruct (mapC _ _) as [similarities|e]; [|done].
  f_equal. apply map_ext. intros item. unfold boost, manualKeywordMatches.
  by rewrite toLowerCase_idem.
Qed.

Lemma getRelevantContext_boosted this query conversationHistory query' conversationHistory'
    maxChunks :
  boostedSimilarities this (query +:+ " " +:+ conversationHistory)
  = boostedSimilarities this (query' +:+ " " +:+ conversationHistory') →
  getRelevantContext query conversationHistory maxChunks this
  = getRelevantContext query' conversationHistory' maxChunks this.
Proof.
  intros Hsame. unfold getRelevantContext. rewrite !bind_eval. cbn [getThis].
  destruct (negb (isInitialized this)); [done|].
  rewrite !bind_eval. cbn [lift]. by rewrite Hsame.
Qed.

End CaseFacts.

Section CaseStatements.
Import Js RagUtils RagService RagSearch Spec Props.

(** X24.  The retrieval does not distinguish the case of the letters of the
    query and of the conversation history: two requests whose queries and
    whose histories are equal when lowercased get the same result from
    [getRelevantContext], on any instance. *)
Theorem getRelevantContext_ignores_case (this : RAGService)
    (query query' conversationHistory conversationHistory' : string) (maxChunks : Z) :
  toLowerCase query = toLowerCase query' →
  toLowerCase conversationHistory = toLowerCase conversationHistory' →
  getRelevantContext query conversationHistory maxChunks this
  = getRelevantContext query' conversationHistory' maxChunks this.
Proof.
  intros Hquery Hhistory. apply getRelevantContext_boosted.
  rewrite <- (boostedSimilarities_lower this (query +:+ _)).
  rewrite <- (boostedSimilarities_lower this (query' +:+ _)).
  by rewrite !toLowerCase_app, Hquery, Hhistory.
Qed.

Lemma getRelevantContext_ignores_case_witness :
  getRelevantContext "REFUND on my Invoice" "user: Hello" 3
    (initialize [Examples.scenarioX; Examples.scenarioY] "" newRAGService).2
  = getRelevantContext "refund on my invoice" "USER: hello" 3
      (initialize [Examples.scenarioX; Examples.scenarioY] "" newRAGService).2.
Proof.
  apply getRelevantContext_ignores_case; vm_compute; reflexivity.
Defined.

(** X25.  The ranking of [findRelevantChunks] when the comparator is
    consistent on the scores, as it is when none of them is a NaN: for
    [topK >= 0] the result holds the chunks at the first [topK] indices of a
    ranking of the embeddings in which no embedding stands before one of
    higher similarity to the query, and which keeps the order of the array
    between embeddings that the comparator does not reorder. *)
Theorem findRelevantChunks_ranked (query : string) (chunks : list string)
    (embeddings : list (list float)) (topK : Z) :
  (∀ e, e ∈ embeddings → length e = 26%nat) →
  0 ≤ topK →
  let items :=
    imap (λ index e, (index, cosine (createSimpleEmbedding query) e)) embeddings in
  consistent lowerScore items →
  ∃ ranked : list scored,
    ranked ≡ₚ items ∧
    (∀ i j a b, (i < j)%nat → ranked !! i = Some a → ranked !! j = Some b →
       lowerScore a b = false) ∧
    (∀ a b, precedes items a b → lowerScore a b = false → precedes ranked a b) ∧
    findRelevantChunks query chunks embeddings topK
    = Normal (map (λ item : scored, chunks !! item.1) (take (Z.to_nat topK) ranked)).
Proof.
  intros Hlen HtopK items Hcons.
  exists (sort lowerScore items).
  split; [apply sort_perm|].
  split.
  { intros i j a b Hij Hi Hj.
    exact (StronglySorted_lookup (λ a b, lowerScore a b = false) _ i j a b
             (sort_sorted lowerScore items Hcons) Hij Hi Hj). }
  split; [apply sort_stable|].
  unfold findRelevantChunks.
  rewrite mapC_cosineSimilarity.
  2:{ apply Forall_forall. intros e He.
      by rewrite createSimpleEmbedding_length, (Hlen e He). }
  change (map (cosine (createSimpleEmbedding query)) embeddings)
    with (cosine (createSimpleEmbedding query) <$> embeddings).
  rewrite imap_fmap. fold items.
  rewrite slice0_take by done. by rewrite map_map.
Qed.

Lemma findRelevantChunks_ranked_witness :
  ∃ ranked : list scored,
    findRelevantChunks "refund" ["login help"; "refund policy"]
      [createSimpleEmbedding "login help"; createSimpleEmbedding "refund policy"] 1
    = Normal (map (λ item : scored, ["login help"; "refund policy"] !! item.1)
                (take 1 ranked)).
Proof.
  destruct (findRelevantChunks_ranked "refund" ["login help"; "refund policy"]
              [createSimpleEmbedding "login help"; createSimpleEmbedding "refund policy"] 1)
    as (ranked & _ & _ & _ & Hresult).
  - intros e He. apply elem_of_cons in He as [->|He]; [vm_compute; reflexivity|].
    apply list_elem_of_singleton in He as ->. vm_compute. reflexivity.
  - lia.
  - apply consistentb_spec. vm_compute. reflexivity.
  - exists ranked. exact Hresult.
Defined.

End CaseStatements.

(** ** The timers *)

Section TimerFacts.
Import Timers Props.
Context {Args : Type}.

Lemma spaced_snoc (distance : Z) (l : list (Z * Args)) (x : Z * Args) :
  (∀ i a b, l !! i = Some a → l !! S i = Some b → a.1 + distance ≤ b.1) →
  (∀ y, last l = Some y → y.1 + distance ≤ x.1) →
  ∀ i a b, (l ++ [x]) !! i = Some a → (l ++ [x]) !! S i = Some b →
    a.1 + distance ≤ b.1.
Proof.
  intros Hspaced Hlast i a b Ha Hb.
  destruct (decide (S i < length l)%nat) as [Hlt|Hge].
  - rewrite lookup_app_l in Ha by lia. rewrite lookup_app_l in Hb by lia.
    by eapply Hspaced.
  - assert (S i = length l) as Hi.
    { apply lookup_lt_Some in Hb. rewrite length_app in Hb. cbn in Hb. lia. }
    rewrite lookup_app_l in Ha by lia.
    rewrite lookup_app_r in Hb by lia. rewrite Hi, Nat.sub_diag in Hb.
    injection Hb as <-. apply Hlast. by rewrite last_lookup, <- Hi.
Qed.

Lemma runThrottle_prefix (limit : Z) (events : list (Event Args)) : ∀ st st',
  runThrottle limit events st = Some st' →
  throttleInvoked st `prefix_of` throttleInvoked st'.
Proof.
  induction events as [|[now args|now due] events IH]; intros st st' Hrun;
    cbn [runThrottle] in Hrun.
  - by injection Hrun as <-.
  - apply IH in Hrun. etrans; [|exact Hrun].
    unfold throttled. destruct (negb (inThrottle st)); [|done].
    by apply prefix_app_r.
  - destruct (throttleTimeout now due st) as [st1|] eqn:Htimer; [|done].
    apply IH in Hrun. unfold throttleTimeout in Htimer.
    destruct (_ && _); [|done]. by injection Htimer as <-.
Qed.

(** While the closure is throttled one timer is set, which is due [limit]
    after the last call of [func]; otherwise none is, and that time has
    passed. *)
Lemma runThrottle_inv (limit : Z) (events : list (Event Args)) : ∀ clock st st',
  chronological clock events →
  (if inThrottle st
   then ∃ y, last (throttleInvoked st) = Some y ∧
             throttleTimers st = [y.1 + delay limit]
   else throttleTimers st = [] ∧
        ∀ y, last (throttleInvoked st) = Some y → y.1 + delay limit ≤ clock) →
  (∀ i a b, throttleInvoked st !! i = Some a → throttleInvoked st !! S i = Some b →
     a.1 + delay limit ≤ b.1) →
  runThrottle limit events st = Some st' →
  (∀ i a b, throttleInvoked st' !! i = Some a → throttleInvoked st' !! S i = Some b →
     a.1 + delay limit ≤ b.1) ∧
  (∀ y, y ∈ throttleInvoked st' → y ∈ throttleInvoked st ∨ Call y.1 y.2 ∈ events).
Proof.
  induction events as [|[now args|now due] events IH];
    intros clock st st' Hchrono Hinv Hspaced Hrun; cbn [runThrottle] in Hrun.
  - injection Hrun as <-. split; [done|]. by left.
  - destruct Hchrono as [Hnow Hchrono]. cbn [eventTime] in Hnow, Hchrono.
    unfold throttled in Hrun. destruct (inThrottle st) eqn:Hin; cbn [negb] in Hrun.
    + destruct (IH now st st' Hchrono) as [Hsp Hprov]; [by rewrite Hin|done|done|].
      split; [done|]. intros y Hy.
      destruct (Hprov y Hy) as [?|?]; [by left|right]. by apply list_elem_of_further.
    + destruct Hinv as [Htimers Hlast].
      match type of Hrun with runThrottle _ _ ?s = _ => set (st1 := s) in * end.
      destruct (IH now st1 st' Hchrono) as [Hsp Hprov]; [| |exact Hrun|]; subst st1.
      * cbn [inThrottle throttleInvoked throttleTimers]. exists (now, args).
        by rewrite last_snoc, Htimers.
      * cbn [throttleInvoked]. apply spaced_snoc; [done|].
        intros y Hy. cbn [fst]. specialize (Hlast y Hy). lia.
      * split; [done|]. intros y Hy.
        destruct (Hprov y Hy) as [Hold|?]; [|right; by apply list_elem_of_further].
        cbn [throttleInvoked] in Hold.
        apply elem_of_app in Hold as [?|Hnew%list_elem_of_singleton]; [by left|].
        right. subst y. apply list_elem_of_here.
  - destruct Hchrono as [Hnow Hchrono]. cbn [eventTime] in Hnow, Hchrono.
    destruct (throttleTimeout now due st) as [st1|] eqn:Htimer; [|done].
    unfold throttleTimeout in Htimer.
    destruct (bool_decide (due ∈ throttleTimers st)) eqn:Hdue; [|done].
    apply bool_decide_eq_true in Hdue.
    destruct (Z.leb_spec due now) as [Hle|]; [|done]. cbn [andb] in Htimer.
    injection Htimer as <-.
    destruct (inThrottle st).
    + destruct Hinv as (y & Hy & Htimers). rewrite Htimers in Hdue.
      apply list_elem_of_singleton in Hdue as ->.
      match type of Hrun with runThrottle _ _ ?s = _ => set (st1 := s) in * end.
      destruct (IH now st1 st' Hchrono) as [Hsp Hprov]; [|done|exact Hrun|]; subst st1.
      * cbn [inThrottle throttleInvoked throttleTimers]. rewrite Htimers.
        cbn [removeTimer]. rewrite Z.eqb_refl. split; [done|].
        intros y' Hy'. by replace y' with y by congruence.
      * split; [done|]. intros y' Hy'.
        destruct (Hprov y' Hy') as [?|?]; [by left|right].
        by apply list_elem_of_further.
    + destruct Hinv as [Htimers _]. rewrite Htimers in Hdue.
      by apply elem_of_nil in Hdue.
Qed.

Lemma runDebounce_answered (wait : Z) (events : list (Event Args)) : ∀ st st',
  runDebounce wait events st = Some st' →
  debounceInvoked st' = debounceInvoked st ++ answered (snd <$> timeout st) events.
Proof.
  induction events as [|[now args|now due] events IH]; intros st st' Hrun;
    cbn [runDebounce] in Hrun; cbn [answered].
  - injection Hrun as <-. by rewrite app_nil_r.
  - by apply IH in Hrun.
  - unfold debounceTimeout in Hrun.
    destruct (timeout st) as [[due' args]|]; [|done].
    destruct (due' <=? now); [|done].
    apply IH in Hrun. cbn in Hrun. cbn. by rewrite <- app_assoc in Hrun.
Qed.

Lemma runDebounce_app (wait : Z) (pre events : list (Event Args)) : ∀ st st',
  runDebounce wait (pre ++ events) st = Some st' →
  ∃ st1, runDebounce wait pre st = Some st1 ∧ runDebounce wait events st1 = Some st'.
Proof.
  induction pre as [|[now args|now due] pre IH]; intros st st' Hrun; cbn in Hrun |- *.
  - by exists st.
  - by apply IH.
  - destruct (debounceTimeout now st); [by apply IH|done].
Qed.

End TimerFacts.

Section TimerStatements.
Import Timers Props.
Context {Args : Type}.


(** X27.  A debounced function calls [func] only when a timer runs, with
    the arguments of the call of the closure just before it: a call of the
    closure that another call follows before a timer has run is dropped.
    The timer runs no sooner than [wait] milliseconds after that call. *)
Theorem debounce_answers (wait : Z) (events : list (Event Args)) (st : Debounce Args) :
  runDebounce wait events newDebounce = Some st →
  debounceInvoked st = answered None events ∧
  ∀ pre now args now' due events',
    events = pre ++ Call now args :: Timeout now' due :: events' →
    now + delay wait ≤ now'.
Proof.
  intros Hrun. split; [by apply runDebounce_answered in Hrun|].
  intros pre now args now' due events' ->.
  apply runDebounce_app in Hrun as (st1 & _ & Hrun).
  cbn [runDebounce] in Hrun. unfold debounceTimeout, debounced in Hrun.
  cbn [timeout] in Hrun. destruct (Z.leb_spec (now + delay wait) now'); done.
Qed.

End TimerStatements.


Lemma debounce_answers_witness :
  Timers.debounceInvoked
    {| Timers.timeout := None; Timers.debounceInvoked := [(700, "ab")] |}
  = Props.answered None
      [Timers.Call 0 "a"; Timers.Call 200 "ab"; Timers.Timeout 700 500].
Proof.
  apply (debounce_answers 500
           [Timers.Call 0 "a"; Timers.Call 200 "ab"; Timers.Timeout 700 500]).
  reflexivity.
Defined.
